(** * Insignia leaderboard engine (src/src/insignia.cpp): a shallow embedding

    The engine resolves an application name against a remote index, loads
    the leaderboards of the matched title through a flash cache and rotates
    boards and regional variants.  The definitions below follow
    [insignia.cpp] function by function, for the ARDUINO / ESP_PLATFORM
    build; the theorems at the end of the file are stated over them.

    Conventions of the embedding:
    - an Arduino [String] is a [list ascii] ([Str]); the [String] methods the
      engine uses are written out in the first section;
    - [int], [size_t] and [uint32_t] values are in [Z]; where the code relies
      on 32-bit wrap-around it is written out ([u32], [wrap32]);
    - the globals of the translation unit are gathered in the record
      [Engine]; every function that touches them takes and returns it;
    - what the engine reads from its surroundings on a call (clock, network,
      random numbers, ArduinoJson's parser) is the record [Env]. *)

From Stdlib Require Import Ascii String.
From Stdlib Require Import List ZArith Lia Bool Arith.
From Stdlib Require Import Sorting.Permutation Sorting.Sorted.
Import ListNotations.

Set Warnings "-register-all".
Local Open Scope Z_scope.

(* ================================================================== *)
(** ** Arduino [String], as far as the engine uses it                   *)
(* ================================================================== *)

Definition Str := list ascii.

(** A literal. *)
Definition str (s : string) : Str := list_ascii_of_string s.

Definition len (s : Str) : Z := Z.of_nat (length s).

Definition code (c : ascii) : nat := nat_of_ascii c.

Definition is_upper (c : ascii) : bool := (65 <=? code c)%nat && (code c <=? 90)%nat.
Definition is_lower (c : ascii) : bool := (97 <=? code c)%nat && (code c <=? 122)%nat.
Definition is_digit (c : ascii) : bool := (48 <=? code c)%nat && (code c <=? 57)%nat.
Definition is_space (c : ascii) : bool := (code c =? 32)%nat.

(** [isspace] of the C locale, which [String::trim] uses. *)
Definition c_isspace (c : ascii) : bool :=
  (code c =? 32)%nat || ((9 <=? code c)%nat && (code c <=? 13)%nat).

(** [tolower] of the C locale. *)
Definition tolower (c : ascii) : ascii :=
  if is_upper c then ascii_of_nat (code c + 32) else c.

Definition toLowerCase (s : Str) : Str := map tolower s.

Fixpoint streq (a b : Str) : bool :=
  match a, b with
  | [], [] => true
  | x :: a', y :: b' => Ascii.eqb x y && streq a' b'
  | _, _ => false
  end.

(** [operator<] on [String]: [strcmp] on unsigned bytes. *)
Fixpoint strlt (a b : Str) : bool :=
  match a, b with
  | _, [] => false
  | [], _ :: _ => true
  | x :: a', y :: b' =>
      if (code x <? code y)%nat then true
      else if (code y <? code x)%nat then false
      else strlt a' b'
  end.

(** [s[i]]: the character at [i], NUL when out of range. *)
Definition charAt (s : Str) (i : Z) : ascii :=
  if i <? 0 then zero else nth (Z.to_nat i) s zero.

Fixpoint isPrefix (p s : Str) : bool :=
  match p, s with
  | [], _ => true
  | x :: p', y :: s' => Ascii.eqb x y && isPrefix p' s'
  | _ :: _, [] => false
  end.

Definition startsWith (s p : Str) : bool := isPrefix p s.

Definition endsWith (s p : Str) : bool := isPrefix (rev p) (rev s).

(** [substring(left, right)]: the characters in [left, right). *)
Definition substring (s : Str) (left right : Z) : Str :=
  let (l, r) := if right <? left then (right, left) else (left, right) in
  if len s <=? l then []
  else
    let r := Z.min r (len s) in
    firstn (Z.to_nat (r - l)) (skipn (Z.to_nat l) s).

Definition substringFrom (s : Str) (left : Z) : Str := substring s left (len s).

(** [remove(index)]: drop everything from [index] on. *)
Definition removeFrom (s : Str) (index : Z) : Str :=
  if len s <=? index then s else firstn (Z.to_nat index) s.

(** First position of [c] in [s], counted from [i]; -1 when absent. *)
Fixpoint findCh (c : ascii) (s : Str) (i : Z) : Z :=
  match s with
  | [] => -1
  | x :: r => if Ascii.eqb x c then i else findCh c r (i + 1)
  end.

Definition indexOfChFrom (s : Str) (c : ascii) (from : Z) : Z :=
  if len s <=? from then -1 else findCh c (skipn (Z.to_nat from) s) from.

Definition indexOfCh (s : Str) (c : ascii) : Z := indexOfChFrom s c 0.

(** First position of the substring [p] ([strstr]). *)
Fixpoint findStr (p s : Str) (i : Z) : Z :=
  if isPrefix p s then i
  else match s with
       | [] => -1
       | _ :: r => findStr p r (i + 1)
       end.

Definition indexOfFrom (s p : Str) (from : Z) : Z :=
  if len s <=? from then -1 else findStr p (skipn (Z.to_nat from) s) from.

Definition indexOf (s p : Str) : Z := indexOfFrom s p 0.

(** Last position of [c]; -1 when absent. *)
Fixpoint lastCh (c : ascii) (s : Str) (i : Z) (found : Z) : Z :=
  match s with
  | [] => found
  | x :: r => lastCh c r (i + 1) (if Ascii.eqb x c then i else found)
  end.

Definition lastIndexOfCh (s : Str) (c : ascii) : Z := lastCh c s 0 (-1).

Fixpoint dropWhile {A} (p : A -> bool) (l : list A) : list A :=
  match l with
  | [] => []
  | x :: r => if p x then dropWhile p r else l
  end.

Fixpoint takeWhile {A} (p : A -> bool) (l : list A) : list A :=
  match l with
  | [] => []
  | x :: r => if p x then x :: takeWhile p r else []
  end.

Definition trim (s : Str) : Str :=
  rev (dropWhile c_isspace (rev (dropWhile c_isspace s))).

(** [replace(find, with)] for a one-character [find]. *)
Definition replaceCh (s : Str) (c : ascii) (w : Str) : Str :=
  flat_map (fun x => if Ascii.eqb x c then w else [x]) s.

(** [replace(find, with)]: every occurrence, left to right, not overlapping;
    an empty [find] changes nothing. *)
Fixpoint replaceFuel (fuel : nat) (s f w : Str) : Str :=
  match fuel with
  | O => s
  | S k =>
      match s with
      | [] => []
      | x :: r =>
          if isPrefix f s then w ++ replaceFuel k (skipn (length f) s) f w
          else x :: replaceFuel k r f w
      end
  end.

Definition replace (s f w : Str) : Str :=
  match f with
  | [] => s
  | _ => replaceFuel (length s) s f w
  end.

(** [String(int)]: the decimal digits, most significant first. *)
Fixpoint digitsFuel (fuel : nat) (n : Z) (acc : Str) : Str :=
  match fuel with
  | O => acc
  | S k =>
      let acc' := ascii_of_nat (48 + Z.to_nat (n mod 10)) :: acc in
      if n <? 10 then acc' else digitsFuel k (n / 10) acc'
  end.

Definition String_of_int (n : Z) : Str :=
  if n <? 0 then "-"%char :: digitsFuel (S (Z.to_nat (Z.log2 (- n)))) (- n) []
  else digitsFuel (S (Z.to_nat (Z.log2 n))) n [].

(** 32-bit arithmetic. *)
Definition u32 (z : Z) : Z := z mod 4294967296.
Definition wrap32 (z : Z) : Z := (z + 2147483648) mod 4294967296 - 2147483648.

(** [std::sort]: the result is ordered by the comparator.  Insertion keeps
    the given order among elements the comparator does not separate; the
    library promises no particular order there. *)
Fixpoint sort_insert {A} (lt : A -> A -> bool) (x : A) (l : list A) : list A :=
  match l with
  | [] => [x]
  | y :: r => if lt y x then y :: sort_insert lt x r else x :: l
  end.

Definition std_sort {A} (lt : A -> A -> bool) (l : list A) : list A :=
  fold_right (sort_insert lt) [] l.

(** [std::unique]: drop an element equal to its predecessor. *)
Fixpoint std_unique (l : list Str) : list Str :=
  match l with
  | [] => []
  | x :: r =>
      match r with
      | [] => [x]
      | y :: _ => if streq x y then std_unique r else x :: std_unique r
      end
  end.

(** [std::find(...) != end]. *)
Definition contains (l : list Str) (s : Str) : bool := existsb (streq s) l.

(* ================================================================== *)
(** ** Normalizer                                                       *)
(* ================================================================== *)

Definition lc (s : Str) : Str := toLowerCase s.

Definition romanToInt (s_in : Str) : Z :=
  let s := lc s_in in
  if streq s (str "i") then 1
  else if streq s (str "ii") then 2
  else if streq s (str "iii") then 3
  else if streq s (str "iiii") || streq s (str "iv") then 4
  else if streq s (str "v") then 5
  else if streq s (str "vi") then 6
  else if streq s (str "vii") then 7
  else if streq s (str "viii") then 8
  else if streq s (str "ix") then 9
  else if streq s (str "x") then 10
  else -1.

Definition foldChar (c0 : ascii) : Str :=
  let c := if is_upper c0 then ascii_of_nat (code c0 - 65 + 97) else c0 in
  if is_lower c || is_digit c || is_space c then [c]
  else if Ascii.eqb c "&"%char then str " and "
  else [" "%char].

Definition asciiFoldKeepSpace (s : Str) : Str := flat_map foldChar s.

(** First loop of [squeezeSpace]: one space for each run of spaces. *)
Fixpoint collapse (prevSpace : bool) (s : Str) : Str :=
  match s with
  | [] => []
  | c :: r =>
      if is_space c then (if prevSpace then collapse true r else c :: collapse true r)
      else c :: collapse false r
  end.

Definition squeezeSpace (s_in : Str) : Str :=
  let out := collapse false s_in in
  let s := Z.of_nat (length out - length (dropWhile is_space out)) in
  let e :=
    Z.max s (len out - Z.of_nat (length (rev out) - length (dropWhile is_space (rev out)))) in
  if (s =? 0) && (e =? len out) then out else substring out s e.

(** The token loop: maximal runs of characters other than a separator.  The
    pair is the run being read at the head of the string and the complete
    tokens after it. *)
Definition consNE (t : Str) (l : list Str) : list Str :=
  match t with [] => l | _ => t :: l end.

Fixpoint splitAux (sep : ascii -> bool) (s : Str) : Str * list Str :=
  match s with
  | [] => ([], [])
  | c :: r =>
      let (cur, rest) := splitAux sep r in
      if sep c then ([], consNE cur rest) else (c :: cur, rest)
  end.

Definition splitOn (sep : ascii -> bool) (s : Str) : list Str :=
  let (cur, rest) := splitAux sep s in consNE cur rest.

Definition romanize (tok : Str) : Str :=
  let r := romanToInt tok in
  if 0 <? r then String_of_int r else tok.

(** The test that drops a leading region letter. *)
Definition xPrefixed (s : Str) : bool :=
  (1 <? len s) && Ascii.eqb (charAt s 0) "x"%char
  && (is_lower (charAt s 1) || is_digit (charAt s 1)).

Definition tokenize (raw : Str) : list Str :=
  let s := lc raw in
  let s := if xPrefixed s then substringFrom s 1 else s in
  let s := if startsWith s (str "the ") then substringFrom s 4 else s in
  let s := asciiFoldKeepSpace s in
  let s := squeezeSpace s in
  map romanize (splitOn is_space s).

Definition normKey (raw : Str) : Str := concat (tokenize raw).

(* ================================================================== *)
(** ** Family keys                                                      *)
(* ================================================================== *)

Definition region_words : list Str :=
  map str ["ntsc"; "pal"; "usa"; "us"; "japan"; "jpn"; "germany"; "de";
           "europe"; "eu"; "asia"; "kor"; "korea"; "au"; "australia"]%string.

Definition isRegionWord (tok : Str) : bool :=
  let t := toLowerCase tok in
  let t := if endsWith t (str ",") then removeFrom t (len t - 1) else t in
  contains region_words t.

Definition is_label_sep (c : ascii) : bool :=
  Ascii.eqb c " "%char || Ascii.eqb c ","%char.

Definition familyKeyFromLabel (name : Str) : Str :=
  let s := name in
  let open := lastIndexOfCh s "("%char in
  let close := lastIndexOfCh s ")"%char in
  let s :=
    if (0 <=? open) && (open <? close) && (close =? len s - 1) then
      let inside := substring s (open + 1) close in
      let toks := splitOn is_label_sep inside in
      let allRegion := negb (Nat.eqb (length toks) 0) && forallb isRegionWord toks in
      if allRegion then substring s 0 open else s
    else s in
  normKey (trim s).

Definition slug_suffixes : list Str :=
  map str ["-ntsc"; "-pal"; "-usa"; "-japan"; "-jpn"; "-germany"; "-eu";
           "-europe"; "-asia"; "-kor"; "-korea"]%string.

(** The suffix loop: the first suffix that fits is removed, then [break]. *)
Fixpoint stripSuffix (sufs : list Str) (s : Str) : Str :=
  match sufs with
  | [] => s
  | suf :: more =>
      if (len suf <? len s) && endsWith s suf then removeFrom s (len s - len suf)
      else stripSuffix more s
  end.

Definition familyKeyFromSlug (slug : Str) : Str :=
  let s := stripSuffix slug_suffixes (toLowerCase slug) in
  normKey (replace s (str "-") (str " ")).

(* ================================================================== *)
(** ** Scoring helpers                                                  *)
(* ================================================================== *)

Definition tokenOverlapScore (qtoks ctoks : list Str) : Z :=
  match qtoks, ctoks with
  | [], _ | _, [] => 0
  | _, _ =>
      let matches := Z.of_nat (length (filter (fun q => contains ctoks q) qtoks)) in
      Z.min (matches * 12) 60
  end.

Definition firstTokenBoost (qtoks ctoks : list Str) : Z :=
  match qtoks, ctoks with
  | q :: _, c :: _ => if streq q c then 25 else 0
  | _, _ => 0
  end.

Definition isGenericXLA (ctoks : list Str) : bool :=
  match ctoks with
  | [] => false
  | _ => forallb (fun t => contains (map str ["xbox"; "live"; "arcade"]%string) t) ctoks
  end.

Definition tokenJaccardPenaltyShort (candNorm : Str) : Z :=
  if len candNorm <=? 6 then -20 else 0.

(** *** Single-precision arithmetic of [bigramJaccardScore]

    [(float)inter / (float)uni] and the product with [70.0f] are binary32
    operations, each rounded to nearest, ties to even.  A positive binary32
    value is kept as a pair [(m, e)] standing for [m * 2^e]; the operands
    here lie between 2^-32 and 70, away from subnormals and overflow. *)

(** [p / q] rounded to the nearest integer, ties to even. *)
Definition round_nearest_even (p q : Z) : Z :=
  let f := p / q in
  let r := p mod q in
  if 2 * r <? q then f
  else if q <? 2 * r then f + 1
  else if Z.even f then f else f + 1.

(** The binary32 value nearest to [p / q], for [0 < p] and [0 < q]. *)
Definition f32_of_ratio (p q : Z) : Z * Z :=
  let e0 := Z.log2 p - Z.log2 q in
  (* floor (log2 (p/q)) is e0 or e0 - 1 *)
  let below := if 0 <=? e0 then p <? q * 2 ^ e0 else p * 2 ^ (- e0) <? q in
  let e := if below then e0 - 1 else e0 in
  let k := 23 - e in
  let m := if 0 <=? k then round_nearest_even (p * 2 ^ k) q
           else round_nearest_even p (q * 2 ^ (- k)) in
  (m, e - 23).

Definition f32_div (a b : Z) : Z * Z := f32_of_ratio a b.

Definition f32_mul_int (x : Z * Z) (c : Z) : Z * Z :=
  let (m, e) := x in
  if 0 <=? e then f32_of_ratio (m * c * 2 ^ e) 1
  else f32_of_ratio (m * c) (2 ^ (- e)).

(** [(int)x] for a positive [x]. *)
Definition f32_to_int (x : Z * Z) : Z :=
  let (m, e) := x in
  if 0 <=? e then m * 2 ^ e else m / 2 ^ (- e).

(** The bigrams of [s], sorted and without repetition. *)
Fixpoint bigrams (s : Str) : list Str :=
  match s with
  | a :: ((b :: _) as r) => [a; b] :: bigrams r
  | _ => []
  end.

Definition grams (s : Str) : list Str := std_unique (std_sort strlt (bigrams s)).

(** The two-cursor walk over the sorted gram lists, counting common grams. *)
Fixpoint interCount (A : list Str) : list Str -> Z :=
  fix walk (B : list Str) : Z :=
    match A, B with
    | a :: A', b :: B' =>
        if streq a b then 1 + interCount A' B'
        else if strlt a b then interCount A' B
        else walk B'
    | _, _ => 0
    end.

Definition bigramJaccardScore (a b : Str) : Z :=
  match a, b with
  | [], _ | _, [] => 0
  | _, _ =>
      let A := grams a in
      let B := grams b in
      let inter := interCount A B in
      let uni := Z.of_nat (length A) + Z.of_nat (length B) - inter in
      if uni =? 0 then 0
      else if inter =? 0 then 0
      else
        let jacc := f32_div inter uni in
        let score := f32_to_int (f32_mul_int jacc 70) in
        Z.min (Z.max score 0) 70
  end.

Definition containsBonus (small big : Str) : Z :=
  match small, big with
  | [], _ | _, [] => 0
  | _, _ =>
      if 0 <=? indexOf big small then
        if 12 <=? len small then 25
        else if 8 <=? len small then 22
        else if 5 <=? len small then 18
        else 15
      else 0
  end.

(* ================================================================== *)
(** ** The scanner for search.json                                      *)
(* ================================================================== *)

Definition dquote : ascii := "034"%char.
Definition backslash : ascii := "092"%char.

(** [find_unescaped_quote]: [skip] is set after a backslash, whose
    successor is jumped over. *)
Fixpoint quoteWalk (s : Str) (i : Z) (skip : bool) : Z :=
  match s with
  | [] => -1
  | c :: r =>
      if skip then quoteWalk r (i + 1) false
      else if Ascii.eqb c backslash then quoteWalk r (i + 1) true
      else if Ascii.eqb c dquote then i
      else quoteWalk r (i + 1) false
  end.

Definition find_unescaped_quote (s : Str) (pos : Z) : Z :=
  quoteWalk (skipn (Z.to_nat (pos + 1)) s) (pos + 1) false.

Definition extract_str_field (obj key : Str) : option Str :=
  let pat := dquote :: key ++ [dquote] in
  let k := indexOf obj pat in
  if k <? 0 then None else
  let colon := indexOfChFrom obj ":"%char (k + len pat) in
  if colon <? 0 then None else
  let q1 := indexOfChFrom obj dquote (colon + 1) in
  if q1 <? 0 then None else
  let q2 := find_unescaped_quote obj q1 in
  if q2 <? 0 then None else
  Some (substring obj (q1 + 1) q2).

(** [String x; extract_str_field(obj, key, x);]: empty when the field is absent. *)
Definition field_or_empty (obj key : Str) : Str :=
  match extract_str_field obj key with Some v => v | None => [] end.

(** The [while (idx >= 0)] loop over the objects of the body: from an open
    brace to the next closing brace.  Every round moves [idx] forward, so
    one unit of fuel per character is enough. *)
Fixpoint scanObjects (fuel : nat) (body : Str) (idx : Z) : list Str :=
  match fuel with
  | O => []
  | S k =>
      if idx <? 0 then []
      else
        let fin := indexOfChFrom body "}"%char idx in
        if fin <? 0 then []
        else substring body idx (fin + 1)
             :: scanObjects k body (indexOfChFrom body "{"%char (fin + 1))
  end.

Record IndexEntry := mkEntry {
  e_id : Str;
  e_name : Str;
  e_nlc : Str;
  e_slug : Str
}.

(** The objects that carry a [title_id], with their optional fields. *)
Definition parseEntry (obj : Str) : option IndexEntry :=
  match extract_str_field obj (str "title_id") with
  | None => None
  | Some id =>
      Some (mkEntry id (field_or_empty obj (str "name"))
                    (field_or_empty obj (str "name_lc"))
                    (field_or_empty obj (str "slug")))
  end.

Fixpoint keepSome {A} (l : list (option A)) : list A :=
  match l with
  | [] => []
  | Some x :: r => x :: keepSome r
  | None :: r => keepSome r
  end.

Definition indexEntries (body : Str) : list IndexEntry :=
  keepSome (map parseEntry
                (scanObjects (S (length body)) body (indexOfCh body "{"%char))).

(* ================================================================== *)
(** ** Surroundings of a call                                           *)
(* ================================================================== *)

(** A JSON value as ArduinoJson hands it out.  Numbers are the integers;
    a number with a fraction is outside the model. *)
Inductive Json :=
| JNull
| JBool (b : bool)
| JInt (n : Z)
| JStr (s : Str)
| JArr (l : list Json)
| JObj (m : list (Str * Json)).

(** What a call reads from outside the engine.  [millis()], [esp_random()]
    are read at several places of one [tick]; each place has its own field,
    so that nothing is assumed about how the readings relate. *)
Record Env := mkEnv {
  env_net : bool;                    (* WiFi.status() == WL_CONNECTED *)
  ms_fetch : Z;                      (* millis() in maybeResolveAndLoad *)
  ms_probe : Z;                      (* millis() in stepProbeWorkRoot *)
  ms_load : Z;                       (* millis() for lastBoardSwitch *)
  ms_load2 : Z;                      (* millis() for lastModelSwitch *)
  ms_tick : Z;                       (* millis() in tick *)
  env_time : Z;                      (* time(nullptr), seconds *)
  rnd_resolve : Z;                   (* esp_random() in resolveTitlePool *)
  rnd_load : Z;                      (* esp_random() in loadGameModel *)
  rnd_tick : Z;                      (* esp_random() in tick *)
  env_http : Str -> option Str;      (* body of a GET answered with 200 *)
  env_parse : Str -> option Json;    (* deserializeJson, 64 KB document *)
  env_probe_parse : Str -> bool;     (* deserializeJson, 512-byte document, succeeded *)
  env_mount : bool;                  (* SPIFFS.begin(true) *)
  env_open : bool;                   (* SPIFFS.open(path, FILE_WRITE) gave a file *)
  env_room : Z                       (* bytes a print to that file accepts *)
}.

(* ================================================================== *)
(** ** SPIFFS cache                                                     *)
(* ================================================================== *)

Definition CACHE_DIR : Str := str "/insig".

Record File := mkFile {
  f_path : Str;
  f_data : Str;
  f_mtime : Z
}.

(** The cache configuration and the flash file system, in directory order. *)
Record Cache := mkCache {
  fsReady : bool;
  flushOnBoot : bool;
  cacheMaxFiles : Z;
  cacheMaxBytes : Z;
  cacheMaxAgeMs : Z;
  disk : list File
}.

Definition set_disk (c : Cache) (d : list File) : Cache :=
  mkCache (fsReady c) (flushOnBoot c) (cacheMaxFiles c) (cacheMaxBytes c)
          (cacheMaxAgeMs c) d.

Definition TTL_SEARCH_MS : Z := 6 * 60 * 60 * 1000.
Definition TTL_BYID_MS : Z := 2 * 60 * 1000.

Definition inCacheDir (f : File) : bool := startsWith (f_path f) CACHE_DIR.

Definition fs_remove (p : Str) (d : list File) : list File :=
  filter (fun f => negb (streq (f_path f) p)) d.

Definition fs_find (p : Str) (d : list File) : option File :=
  find (fun f => streq (f_path f) p) d.

Definition ensureFS (env : Env) (c : Cache) : Cache :=
  if fsReady c then c
  else if env_mount env then
    if flushOnBoot c then
      mkCache true false (cacheMaxFiles c) (cacheMaxBytes c) (cacheMaxAgeMs c)
              (filter (fun f => negb (inCacheDir f)) (disk c))
    else mkCache true (flushOnBoot c) (cacheMaxFiles c) (cacheMaxBytes c)
                 (cacheMaxAgeMs c) (disk c)
  else c.

Definition sanitizeKey (url : Str) : Str :=
  let k := replace url (str "://") (str "__") in
  let k := fold_left (fun k bad => replaceCh k bad (str "_")) (str "/?:&=%#") k in
  let k := if startsWith k (str "/") then k else "/"%char :: k in
  CACHE_DIR ++ k.

(** [dirSize]: bytes and number of the files under the cache directory. *)
Definition dirBytes (d : list File) : Z :=
  fold_right (fun f acc => len (f_data f) + acc) 0 (filter inCacheDir d).
Definition dirFiles (d : list File) : Z :=
  Z.of_nat (length (filter inCacheDir d)).

(** The [(path, mtime)] pairs that [pruneCache] collects. *)
Definition listing (d : list File) : list (Str * Z) :=
  map (fun f => (f_path f, f_mtime f)) (filter inCacheDir d).

Definition tooOld (nowt mtime maxAgeMs : Z) : bool :=
  (0 <? nowt) && (0 <? mtime) && (maxAgeMs <? u32 ((nowt - mtime) * 1000)).

(** First loop of [pruneCache]: entries past the maximal age go. *)
Definition agePhase (nowt maxAgeMs : Z) (entries : list (Str * Z)) (d : list File)
  : list File :=
  fold_left
    (fun d e =>
       match fs_find (fst e) d with
       | None => d
       | Some _ => if tooOld nowt (snd e) maxAgeMs then fs_remove (fst e) d else d
       end)
    entries d.

Definition withinLimits (maxFiles maxBytes files bytes : Z) : bool :=
  (files <=? maxFiles) && (bytes <=? maxBytes).

(** Last loop of [pruneCache], over the entries sorted by mtime. *)
Fixpoint evict (maxFiles maxBytes : Z) (entries : list (Str * Z))
         (files bytes : Z) (d : list File) : list File :=
  match entries with
  | [] => d
  | e :: rest =>
      if withinLimits maxFiles maxBytes files bytes then d
      else
        let sz := match fs_find (fst e) d with
                  | Some f => len (f_data f)
                  | None => 0
                  end in
        evict maxFiles maxBytes rest
              (if files =? 0 then files else files - 1)
              (if sz <=? bytes then bytes - sz else 0)
              (fs_remove (fst e) d)
  end.

Definition capacityPhase (maxFiles maxBytes : Z) (d : list File) : list File :=
  let files := dirFiles d in
  let bytes := dirBytes d in
  if withinLimits maxFiles maxBytes files bytes then d
  else
    let entries := std_sort (fun a b => snd a <? snd b) (listing d) in
    evict maxFiles maxBytes entries files bytes d.

Definition pruneCache (env : Env) (c0 : Cache) : Cache :=
  let c := ensureFS env c0 in
  if negb (fsReady c) then c
  else
    let d1 := agePhase (env_time env) (cacheMaxAgeMs c) (listing (disk c)) (disk c) in
    set_disk c (capacityPhase (cacheMaxFiles c) (cacheMaxBytes c) d1).

(** [SPIFFS.open(path, FILE_WRITE)], [print], [close]: the file is created
    or replaced, holds what the flash accepted, and is stamped with the
    clock. *)
Definition fs_write (env : Env) (path body : Str) (d : list File) : list File :=
  fs_remove path d
  ++ [mkFile path (firstn (Z.to_nat (env_room env)) body) (env_time env)].

Definition cacheWrite (env : Env) (url body : Str) (c0 : Cache) : Cache * bool :=
  let c := ensureFS env c0 in
  if negb (fsReady c) then (c, false)
  else if negb (env_open env) then (c, false)
  else
    let n := Z.min (len body) (Z.max 0 (env_room env)) in
    let c := set_disk c (fs_write env (sanitizeKey url) body (disk c)) in
    (pruneCache env c, n =? len body).

(** [cacheRead]: the flag returned and the new content of [out]. *)
Definition cacheRead (env : Env) (url out : Str) (maxAgeMs : Z)
           (allowStaleIfNoNet : bool) (c0 : Cache) : Cache * bool * Str :=
  let c := ensureFS env c0 in
  if negb (fsReady c) then (c, false, out)
  else
    match fs_find (sanitizeKey url) (disk c) with
    | None => (c, false, out)
    | Some f =>
        let mtime := f_mtime f in
        let nowt := env_time env in
        let fresh := (0 <? mtime) && (0 <? nowt)
                     && (u32 ((nowt - mtime) * 1000) <=? maxAgeMs) in
        (c, if fresh then true else allowStaleIfNoNet, f_data f)
    end.

(** [httpGet]: the flag and the new content of [out]. *)
Definition httpGet (env : Env) (url out : Str) : bool * Str :=
  match env_http env url with
  | Some body => (true, body)
  | None => (false, out)
  end.

(** The fetch that [resolveTitlePool] and [loadGameModel] share: a fresh
    cache entry, else the network (and the answer is cached), else a stale
    entry.  [None] is the [return false]. *)
Definition fetchThroughCache (env : Env) (url : Str) (ttl : Z) (c : Cache)
  : Cache * option Str :=
  let '(c, ok, body) := cacheRead env url [] ttl false c in
  if ok then (c, Some body)
  else
    let (got, body) := httpGet env url body in
    if got then (fst (cacheWrite env url body c), Some body)
    else
      let '(c, ok, body) := cacheRead env url body 0 true c in
      if ok then (c, Some body) else (c, None).

(* ================================================================== *)
(** ** Candidate matcher                                                *)
(* ================================================================== *)

Definition MIN_ACCEPT_SCORE : Z := 65.

Record Best := mkBest {
  b_id : Str;
  b_name : Str;
  b_nlc : Str;
  b_slug : Str;
  b_fam : Str;
  b_score : Z;
  b_reason : Str
}.

Definition best0 : Best := mkBest [] [] [] [] [] 0 [].

Record MatchDiag := mkDiag {
  d_id : Str;
  d_name : Str;
  d_slug : Str;
  d_score : Z;
  d_reason : Str
}.

(** The composite score of the last tier. *)
Definition compositeScore (qToks : list Str) (lastQueryNorm : Str) (e : IndexEntry) : Z :=
  let nName := normKey (e_name e) in
  let nSlug := normKey (e_slug e) in
  let tName := tokenize (e_name e) in
  let tSlug := tokenize (e_slug e) in
  let stName := tokenOverlapScore qToks tName + firstTokenBoost qToks tName in
  let stSlug := tokenOverlapScore qToks tSlug + firstTokenBoost qToks tSlug in
  let sb1 := bigramJaccardScore lastQueryNorm nName in
  let sb2 := bigramJaccardScore lastQueryNorm nSlug in
  let sc1 := containsBonus lastQueryNorm nName in
  let sc2 := containsBonus lastQueryNorm nSlug in
  let sc3 := containsBonus nName lastQueryNorm in
  let sc4 := containsBonus nSlug lastQueryNorm in
  let score :=
    Z.max (Z.max stName stSlug)
          (Z.max (Z.max sb1 sb2) (Z.max (Z.max sc1 sc2) (Z.max sc3 sc4))) in
  let score :=
    if (firstTokenBoost qToks tName =? 0) && (firstTokenBoost qToks tSlug =? 0)
    then score + tokenJaccardPenaltyShort nName else score in
  let score :=
    if isGenericXLA tName then
      match qToks with
      | [] => score - 35
      | q :: _ => if streq q (str "xbox") then score else score - 35
      end
    else score in
  if score <? 0 then 0 else score.

(** The tiers, before the hard gate. *)
Definition tierScore (curApp : Str) (qToks : list Str) (lastQueryNorm : Str)
           (e : IndexEntry) : Z * Str :=
  if streq (lc (e_name e)) (lc curApp) then (100, str "exact name")
  else if negb (Nat.eqb (length (e_nlc e)) 0) && streq (e_nlc e) (lc curApp)
       then (98, str "exact name_lc")
  else if streq (lc (e_slug e)) (lc curApp) then (95, str "exact slug")
  else if streq (normKey (e_name e)) lastQueryNorm then (93, str "norm(name)")
  else if streq (normKey (e_slug e)) lastQueryNorm then (91, str "norm(slug)")
  else (compositeScore qToks lastQueryNorm e, []).

(** The hard gate: a shared token, or one normalized string inside the other. *)
Definition gateOpen (qToks : list Str) (lastQueryNorm : Str) (e : IndexEntry) : bool :=
  let nName := normKey (e_name e) in
  let nSlug := normKey (e_slug e) in
  let tName := tokenize (e_name e) in
  let tSlug := tokenize (e_slug e) in
  let tokenOverlap := existsb (fun q => contains tName q || contains tSlug q) qToks in
  let containsEither :=
    (0 <=? indexOf nName lastQueryNorm) || (0 <=? indexOf nSlug lastQueryNorm)
    || (0 <=? indexOf lastQueryNorm nName) || (0 <=? indexOf lastQueryNorm nSlug) in
  tokenOverlap || containsEither.

(** Score and reason of one entry, as pass 1 holds them after the gate. *)
Definition scoreEntry (curApp : Str) (e : IndexEntry) : Z * Str :=
  let qToks := tokenize curApp in
  let lastQueryNorm := normKey curApp in
  if gateOpen qToks lastQueryNorm e then tierScore curApp qToks lastQueryNorm e
  else (0, []).

(** The lambda [better]: does the entry with score [sc] beat the holder [A]? *)
Definition better (lastQueryRaw lastQueryNorm : Str) (A : Best) (sc : Z)
           (e : IndexEntry) : bool :=
  let nNm := normKey (e_name e) in
  let tNm := tokenize (e_name e) in
  if A.(b_score) <? sc then true
  else if sc <? A.(b_score) then false
  else
    let da := Z.abs (len nNm - len lastQueryNorm) in
    let db := Z.abs (len (normKey A.(b_name)) - len lastQueryNorm) in
    if negb (da =? db) then da <? db
    else
      let qT := tokenize lastQueryRaw in
      let af := match qT, tNm with
                | q :: _, t :: _ => streq q t
                | _, _ => false
                end in
      let bf := match qT, tokenize A.(b_name) with
                | q :: _, t :: _ => streq q t
                | _, _ => false
                end in
      if negb (Bool.eqb af bf) then af
      else len (e_name e) <? len A.(b_name).

Definition familyOf (name slug : Str) : Str :=
  let fam := familyKeyFromLabel name in
  match fam with
  | [] => familyKeyFromSlug slug
  | _ => fam
  end.

(** One round of pass 1 for an entry that has a [title_id]. *)
Definition pass1_step (curApp : Str) (acc : Best * list MatchDiag) (e : IndexEntry)
  : Best * list MatchDiag :=
  let (best, diags) := acc in
  let (score, reason) := scoreEntry curApp e in
  let diags :=
    if (0 <? score) && (Z.of_nat (length diags) <? 10)
    then diags ++ [mkDiag (e_id e) (e_name e) (e_slug e) score reason]
    else diags in
  let best :=
    if (MIN_ACCEPT_SCORE <=? score)
       && (Nat.eqb (length best.(b_id)) 0
           || better curApp (normKey curApp) best score e)
    then mkBest (e_id e) (e_name e) (e_nlc e) (e_slug e)
                (familyOf (e_name e) (e_slug e)) score reason
    else best in
  (best, diags).

Definition pass1 (curApp : Str) (entries : list IndexEntry) : Best * list MatchDiag :=
  fold_left (pass1_step curApp) entries (best0, []).

(** Pass 2: the ids of the entries of the best match's family, each once. *)
Definition pass2_step (fam : Str) (pool : list Str) (e : IndexEntry) : list Str :=
  if streq (familyOf (e_name e) (e_slug e)) fam
     && negb (Nat.eqb (length (e_id e)) 0)
     && negb (contains pool (e_id e))
  then pool ++ [e_id e] else pool.

Definition pass2 (fam : Str) (entries : list IndexEntry) : list Str :=
  fold_left (pass2_step fam) entries [].

(* ================================================================== *)
(** ** Leaderboard loader                                               *)
(* ================================================================== *)

Definition RANK_KEYS : list Str :=
  map str ["rank"; "#"; "pos"; "position"; "place"]%string.
Definition NAME_KEYS : list Str :=
  map str ["name"; "player"; "gamertag"; "gamer"; "tag"; "alias"; "username";
           "user"; "gt"; "account"]%string.
Definition PREFER_METRIC : list Str :=
  map str ["score"; "points"; "rating"; "time"; "best time"; "laps"; "wins";
           "value"]%string.
Definition MAX_ROWS_PER_BOARD : Z := 0.

Record Row := mkRow {
  rank : Str;
  name : Str;
  metric : Str;
  extras : list Str
}.

Record Board := mkBoard {
  board_name : Str;
  rows : list Row
}.

(** ArduinoJson's serializer, which [as<String>()] runs on a value that is
    not a string. *)
Definition escapeChar (c : ascii) : Str :=
  if Ascii.eqb c dquote then [backslash; dquote]
  else if Ascii.eqb c backslash then [backslash; backslash]
  else if (code c =? 8)%nat then backslash :: str "b"
  else if (code c =? 12)%nat then backslash :: str "f"
  else if (code c =? 10)%nat then backslash :: str "n"
  else if (code c =? 13)%nat then backslash :: str "r"
  else if (code c =? 9)%nat then backslash :: str "t"
  else [c].

Definition quoted (s : Str) : Str := dquote :: flat_map escapeChar s ++ [dquote].

Fixpoint joinWith (sep : Str) (l : list Str) : Str :=
  match l with
  | [] => []
  | [x] => x
  | x :: r => x ++ sep ++ joinWith sep r
  end.

Fixpoint serializeJson (v : Json) : Str :=
  match v with
  | JNull => str "null"
  | JBool true => str "true"
  | JBool false => str "false"
  | JInt n => String_of_int n
  | JStr s => quoted s
  | JArr l => str "[" ++ joinWith (str ",") (map serializeJson l) ++ str "]"
  | JObj m =>
      str "{"
      ++ joinWith (str ",")
           (map (fun kv => quoted (fst kv) ++ str ":" ++ serializeJson (snd kv)) m)
      ++ str "}"
  end.

Definition j2s (v : Json) : Str :=
  match v with
  | JNull => []
  | JStr s => s
  | _ => serializeJson v
  end.

(** [obj[key]]: the first member of that name, null when there is none or
    when the value is no object. *)
Definition member (v : Json) (key : Str) : Json :=
  match v with
  | JObj m =>
      match find (fun kv => streq (fst kv) key) m with
      | Some kv => snd kv
      | None => JNull
      end
  | _ => JNull
  end.

Definition in_list_ci (s : Str) (keys : list Str) : bool :=
  contains keys (toLowerCase s).

(** Position in [PREFER_METRIC], 100 when absent. *)
Fixpoint positionIn (keys : list Str) (L : Str) (i : Z) : Z :=
  match keys with
  | [] => 100
  | k :: r => if streq L k then i else positionIn r L (i + 1)
  end.

Definition metric_pref (key : Str) : Z := positionIn PREFER_METRIC (toLowerCase key) 0.

(** The digit loop of [rankKey]: the first run of digits is read, the
    characters before it are passed over, the first one after it ends the
    loop.  [int] arithmetic wraps. *)
Fixpoint rankLoop (rs : Str) (n : Z) (any : bool) : Z * bool :=
  match rs with
  | [] => (n, any)
  | c :: r =>
      if is_digit c then rankLoop r (wrap32 (n * 10 + (Z.of_nat (code c) - 48))) true
      else if any then (n, any)
      else rankLoop r n any
  end.

Definition rankKey (rs : Str) : Z :=
  let (n, any) := rankLoop rs 0 false in
  if any then n else 1000000000.

(** The elements of a list with their positions. *)
Fixpoint indexedFrom {A} (i : Z) (l : list A) : list (Z * A) :=
  match l with
  | [] => []
  | x :: r => (i, x) :: indexedFrom (i + 1) r
  end.

Definition indexed {A} (l : list A) : list (Z * A) := indexedFrom 0 l.

(** First column with a name in [keys], -1 when there is none. *)
Definition aliasIdx (keys cols : list Str) : Z :=
  match find (fun ic => in_list_ci (snd ic) keys) (indexed cols) with
  | Some ic => fst ic
  | None => -1
  end.

Definition colAt (cols : list Str) (i : Z) : Str := nth (Z.to_nat i) cols [].

(** The lambda [val_by_col] of an object row. *)
Definition val_by_col (cols : list Str) (r : Json) (i : Z) : Str :=
  if (i <? 0) || (Z.of_nat (length cols) <=? i) then []
  else j2s (member r (colAt cols i)).

(** The lambda [val_at] of an array row. *)
Definition val_at (arr : list Json) (i : Z) : Str :=
  if (i <? 0) || (Z.of_nat (length arr) <=? i) then []
  else j2s (nth (Z.to_nat i) arr JNull).

(** [for (JsonPair kv : r) if (in_list_ci(key, keys)) { x = j2s(value); break; }] *)
Definition firstAlias (keys : list Str) (m : list (Str * Json)) (dflt : Str) : Str :=
  match find (fun kv => in_list_ci (fst kv) keys) m with
  | Some kv => j2s (snd kv)
  | None => dflt
  end.

Definition kvText (k v : Str) : Str := k ++ str "=" ++ v.

(** The extras taken from the declared columns. *)
Definition colExtras (cols : list Str) (rankIdx nameIdx : Z) (value : Z -> Str)
  : list Str :=
  flat_map
    (fun ic =>
       let i := fst ic in
       if (i =? rankIdx) || (i =? nameIdx) then []
       else match value i with
            | [] => []
            | v => [kvText (snd ic) v]
            end)
    (indexed cols).

(** The extras taken from the members no column declares. *)
Definition freeExtras (cols : list Str) (m : list (Str * Json)) : list Str :=
  flat_map
    (fun kv =>
       match fst kv with
       | [] => []
       | k =>
           if contains cols k then []
           else match j2s (snd kv) with
                | [] => []
                | v => [kvText k v]
                end
       end)
    m.

(** Rank, name and raw extras of a row, by its shape; [pos] is
    [B.rows.size()]. *)
Definition rowFields (cols : list Str) (rankIdx nameIdx : Z) (pos : Z) (rv : Json)
  : Str * Str * list Str :=
  match rv with
  | JObj m =>
      let rk := if 0 <=? rankIdx then val_by_col cols rv rankIdx else [] in
      let nm := if 0 <=? nameIdx then val_by_col cols rv nameIdx else [] in
      let rk := match rk with [] => firstAlias RANK_KEYS m rk | _ => rk end in
      let nm := match nm with [] => firstAlias NAME_KEYS m nm | _ => nm end in
      let rk := match rk with [] => String_of_int (pos + 1) | _ => rk end in
      (rk, nm,
       colExtras cols rankIdx nameIdx (val_by_col cols rv) ++ freeExtras cols m)
  | JArr arr =>
      let rk := if 0 <=? rankIdx then val_at arr rankIdx else String_of_int (pos + 1) in
      let nm := if 0 <=? nameIdx then val_at arr nameIdx else [] in
      (rk, nm, colExtras cols rankIdx nameIdx (val_at arr))
  | _ => (String_of_int (pos + 1), j2s rv, [])
  end.

(** The key of a [key=value] text, empty when there is no [=] past the
    first character. *)
Definition extraKey (kv : Str) : Str :=
  let eq := indexOfCh kv "="%char in
  if 0 <? eq then substring kv 0 eq else [].

(** Rank-like and name-like keys are taken out of the extras. *)
Definition cleanExtras (extras : list Str) : list Str :=
  filter
    (fun kv =>
       match extraKey kv with
       | [] => false
       | k => negb (in_list_ci k RANK_KEYS || in_list_ci k NAME_KEYS)
       end)
    extras.

(** The loop that picks the metric: [(bestIdx, bestScore)]. *)
Definition metricChoice (extras : list Str) : Z * Z :=
  fold_left
    (fun acc ie =>
       let eq := indexOfCh (snd ie) "="%char in
       if eq <=? 0 then acc
       else
         let sc := metric_pref (substring (snd ie) 0 eq) in
         if sc <? snd acc then (fst ie, sc) else acc)
    (indexed extras) (-1, 999).

Definition eraseAt {A} (l : list A) (i : Z) : list A :=
  firstn (Z.to_nat i) l ++ skipn (S (Z.to_nat i)) l.

Definition valueOf (kv : Str) : Str :=
  substringFrom kv (indexOfCh kv "="%char + 1).

Definition buildRow (cols : list Str) (rankIdx nameIdx : Z) (pos : Z) (rv : Json) : Row :=
  let '(rk, nm, raw) := rowFields cols rankIdx nameIdx pos rv in
  let extras := cleanExtras raw in
  let bestIdx := fst (metricChoice extras) in
  if 0 <=? bestIdx then
    mkRow rk nm (valueOf (nth (Z.to_nat bestIdx) extras [])) (eraseAt extras bestIdx)
  else
    match extras with
    | e0 :: more =>
        if 0 <? indexOfCh e0 "="%char then mkRow rk nm (valueOf e0) more
        else mkRow rk nm [] extras
    | [] => mkRow rk nm [] []
    end.

(** The row loop of one board, with its two [break]s. *)
Fixpoint loadRows (cols : list Str) (rankIdx nameIdx : Z) (rowsA : list Json)
         (pushed : Z) (acc : list Row) : list Row :=
  match rowsA with
  | [] => acc
  | rv :: more =>
      let acc := acc ++ [buildRow cols rankIdx nameIdx (Z.of_nat (length acc)) rv] in
      let pushed := pushed + 1 in
      if (0 <? MAX_ROWS_PER_BOARD) && (MAX_ROWS_PER_BOARD <=? pushed) then acc
      else if 1000 <=? Z.of_nat (length acc) then acc
      else loadRows cols rankIdx nameIdx more pushed acc
  end.

Definition rankLess (a b : Row) : bool := rankKey (rank a) <? rankKey (rank b).

(** One element of [scoreboards]: the board it yields, if any. *)
Definition loadBoard (vSB : Json) : option Board :=
  match vSB with
  | JObj _ =>
      let nm := match j2s (member vSB (str "name")) with
                | [] => str "default"
                | n => n
                end in
      let cols := match member vSB (str "columns") with
                  | JArr l => map j2s l
                  | _ => []
                  end in
      match member vSB (str "rows") with
      | JArr rowsA =>
          let cols :=
            match cols, rowsA with
            | [], JObj first :: _ => map fst first
            | _, _ => cols
            end in
          let rankIdx := aliasIdx RANK_KEYS cols in
          let nameIdx := aliasIdx NAME_KEYS cols in
          match loadRows cols rankIdx nameIdx rowsA 0 [] with
          | [] => None
          | rs => Some (mkBoard nm (std_sort rankLess rs))
          end
      | _ => None
      end
  | _ => None
  end.

Definition loadBoards (sbs : list Json) : list Board := keepSome (map loadBoard sbs).

(* ================================================================== *)
(** ** Engine state                                                     *)
(* ================================================================== *)

Record Probe := mkProbe {
  probeList : list Str;
  probeIdx : Z;
  nextProbeAt : Z
}.

Record Model := mkModel {
  gameTitle : Str;
  boards : list Board;
  curBoard : Z
}.

Record Resolution := mkRes {
  haveSearch : bool;
  resolved : bool;
  titlePool : list Str;
  curTitleIdx : Z;
  lastDiag : list MatchDiag;
  lastQueryRaw : Str;
  lastQueryNorm : Str
}.

(** [scrollY] is a [float] that only ever holds whole numbers. *)
Record Rotation := mkRot {
  scrollY : Z;
  lastStep : Z;
  lastBoardSwitch : Z;
  freezeUntilMs : Z;
  lastModelSwitch : Z
}.

(** The globals of insignia.cpp ([g_dbg] only switches logging and is left out). *)
Record Engine := mkEngine {
  BASE : Str;
  WORK_ROOT : Str;
  curApp : Str;
  loaded : bool;
  lastFetchMs : Z;
  probe : Probe;
  model : Model;
  res : Resolution;
  rot : Rotation;
  cache : Cache
}.

Definition set_BASE (s : Engine) (x : Str) : Engine :=
  mkEngine x (WORK_ROOT s) (curApp s) (loaded s) (lastFetchMs s) (probe s)
           (model s) (res s) (rot s) (cache s).
Definition set_WORK_ROOT (s : Engine) (x : Str) : Engine :=
  mkEngine (BASE s) x (curApp s) (loaded s) (lastFetchMs s) (probe s)
           (model s) (res s) (rot s) (cache s).
Definition set_curApp (s : Engine) (x : Str) : Engine :=
  mkEngine (BASE s) (WORK_ROOT s) x (loaded s) (lastFetchMs s) (probe s)
           (model s) (res s) (rot s) (cache s).
Definition set_loaded (s : Engine) (x : bool) : Engine :=
  mkEngine (BASE s) (WORK_ROOT s) (curApp s) x (lastFetchMs s) (probe s)
           (model s) (res s) (rot s) (cache s).
Definition set_lastFetchMs (s : Engine) (x : Z) : Engine :=
  mkEngine (BASE s) (WORK_ROOT s) (curApp s) (loaded s) x (probe s)
           (model s) (res s) (rot s) (cache s).
Definition set_probe (s : Engine) (x : Probe) : Engine :=
  mkEngine (BASE s) (WORK_ROOT s) (curApp s) (loaded s) (lastFetchMs s) x
           (model s) (res s) (rot s) (cache s).
Definition set_model (s : Engine) (x : Model) : Engine :=
  mkEngine (BASE s) (WORK_ROOT s) (curApp s) (loaded s) (lastFetchMs s) (probe s)
           x (res s) (rot s) (cache s).
Definition set_res (s : Engine) (x : Resolution) : Engine :=
  mkEngine (BASE s) (WORK_ROOT s) (curApp s) (loaded s) (lastFetchMs s) (probe s)
           (model s) x (rot s) (cache s).
Definition set_rot (s : Engine) (x : Rotation) : Engine :=
  mkEngine (BASE s) (WORK_ROOT s) (curApp s) (loaded s) (lastFetchMs s) (probe s)
           (model s) (res s) x (cache s).
Definition set_cache (s : Engine) (x : Cache) : Engine :=
  mkEngine (BASE s) (WORK_ROOT s) (curApp s) (loaded s) (lastFetchMs s) (probe s)
           (model s) (res s) (rot s) x.

Definition STEP_MS : Z := 40.
Definition PIXELS_PER_STEP : Z := 1.
Definition BOARD_MIN_DWELL_MS : Z := 3000.
Definition FREEZE_MS : Z := 750.
Definition MODEL_DWELL_MS : Z := 12000.
Definition PROBE_SPACING_MS : Z := 200.
Definition PROBE_BACKOFF_MS : Z := 2000.
Definition SCR_H : Z := 64.
Definition RULE_Y : Z := 14.
Definition CONTENT_TOP : Z := RULE_Y + 2.
Definition LINE_H : Z := 9.
Definition ASCENT_5x8 : Z := 7.

Definition isEmpty {A} (s : list A) : bool := Nat.eqb (length s) 0.

(** The state the translation unit starts with; [d] is what the flash holds. *)
Definition initial (d : list File) : Engine :=
  mkEngine (str "http://darkone83.myddns.me:8080/xbox") [] [] false 0
           (mkProbe [] 0 0)
           (mkModel [] [] (-1))
           (mkRes false false [] (-1) [] [] [])
           (mkRot 0 0 0 0 0)
           (mkCache false false 32 (128 * 1024) (6 * 60 * 60 * 1000) d).

(* ================================================================== *)
(** ** Root probing                                                     *)
(* ================================================================== *)

Definition stripSlashes (s : Str) : Str :=
  rev (dropWhile (fun c => Ascii.eqb c "/"%char) (rev s)).

(** The lambda [add]. *)
Definition addRoot (out : list Str) (s : Str) : list Str :=
  let t := stripSlashes s in
  if negb (isEmpty t) && negb (contains out t) then out ++ [t] else out.

Definition addBase (out : list Str) (piece : Str) : list Str :=
  let b := trim piece in
  if isEmpty b then out
  else
    let out := addRoot out b in
    let out := if endsWith b (str "/data")
               then addRoot out (removeFrom b (len b - 5)) else out in
    let out := addRoot out (b ++ str "/xbox") in
    addRoot out (b ++ str "/xbox/data").

Definition buildCandidateRoots (base : Str) : list Str :=
  let csv := trim base in
  fold_left addBase (splitOn (fun c => Ascii.eqb c ","%char) csv) [].

Definition startProbingIfNeeded (s : Engine) : Engine :=
  if negb (isEmpty (probeList (probe s))) || negb (isEmpty (WORK_ROOT s)) then s
  else set_probe s (mkProbe (buildCandidateRoots (BASE s)) 0 0).

Definition stepProbeWorkRoot (env : Env) (s : Engine) : Engine * bool :=
  if negb (isEmpty (WORK_ROOT s)) then (s, true)
  else if negb (env_net env) then (s, false)
  else
    let s := if isEmpty (probeList (probe s)) then startProbingIfNeeded s else s in
    let now := ms_probe env in
    if now <? nextProbeAt (probe s) then (s, false)
    else
      let p := probe s in
      if Z.of_nat (length (probeList p)) <=? probeIdx p then
        (set_probe s (mkProbe (probeList p) 0 (u32 (now + PROBE_BACKOFF_MS))), false)
      else
        let r := nth (Z.to_nat (probeIdx p)) (probeList p) [] in
        let s := set_probe s (mkProbe (probeList p) (probeIdx p + 1)
                                      (u32 (now + PROBE_SPACING_MS))) in
        let url := r ++ str "/data/search.json" in
        let '(c, hit, body) := cacheRead env url [] TTL_SEARCH_MS true (cache s) in
        let s := set_cache s c in
        if hit && env_probe_parse env body then (set_WORK_ROOT s r, true)
        else
          let (got, body) := httpGet env url body in
          if got then
            let s := set_cache s (fst (cacheWrite env url body (cache s))) in
            if env_probe_parse env body then (set_WORK_ROOT s r, true)
            else (s, false)
          else (s, false).

(* ================================================================== *)
(** ** Resolving the title pool                                         *)
(* ================================================================== *)

Definition resolveTitlePool (env : Env) (s : Engine) : Engine * bool :=
  if negb (env_net env) && isEmpty (WORK_ROOT s) then (s, false)
  else if isEmpty (WORK_ROOT s) then (s, false)
  else if isEmpty (curApp s) then (s, false)
  else
    let r := res s in
    let s := set_res s (mkRes (haveSearch r) (resolved r) (titlePool r)
                              (curTitleIdx r) (lastDiag r)
                              (curApp s) (normKey (curApp s))) in
    if isEmpty (lastQueryNorm (res s)) then (s, false)
    else
      let url := WORK_ROOT s ++ str "/data/search.json" in
      let (c, fetched) := fetchThroughCache env url TTL_SEARCH_MS (cache s) in
      let s := set_cache s c in
      match fetched with
      | None => (s, false)
      | Some body =>
          let entries := indexEntries body in
          let (best, diags) := pass1 (curApp s) entries in
          if isEmpty (b_id best) || (b_score best <? MIN_ACCEPT_SCORE) then (s, false)
          else
            let pool := pass2 (b_fam best) entries in
            let pool := match pool with [] => [b_id best] | _ => pool end in
            let idx := u32 (rnd_resolve env) mod Z.of_nat (length pool) in
            (set_res s (mkRes true true pool idx diags
                              (lastQueryRaw (res s)) (lastQueryNorm (res s))),
             true)
      end.

(* ================================================================== *)
(** ** Loading one variant                                              *)
(* ================================================================== *)

Definition loadGameModel (env : Env) (titleId : Str) (s : Engine) : Engine * bool :=
  let url := WORK_ROOT s ++ str "/data/by_id/" ++ titleId ++ str ".json" in
  let (c, fetched) := fetchThroughCache env url TTL_BYID_MS (cache s) in
  let s := set_cache s c in
  match fetched with
  | None => (s, false)
  | Some body =>
      match env_parse env body with
      | None => (s, false)
      | Some doc =>
          let s := set_model s (mkModel (j2s (member doc (str "game_title"))) [] (-1)) in
          match member doc (str "scoreboards") with
          | JArr sbs =>
              let bs := loadBoards sbs in
              match bs with
              | [] => (s, false)
              | _ =>
                  let cb := u32 (rnd_load env) mod Z.of_nat (length bs) in
                  let s := set_model s (mkModel (gameTitle (model s)) bs cb) in
                  let r := rot s in
                  let s := set_rot s (mkRot 0 (lastStep r) (ms_load env)
                                            (u32 (ms_load env + FREEZE_MS))
                                            (ms_load2 env)) in
                  (set_loaded s true, true)
              end
          | _ => (s, false)
          end
      end
  end.

(* ================================================================== *)
(** ** Public API and the scheduler                                     *)
(* ================================================================== *)

Definition setServerBase (base : Str) (s : Engine) : Engine := set_BASE s base.

Definition setFlushCacheOnBoot (enable : bool) (s : Engine) : Engine :=
  let c := cache s in
  set_cache s (mkCache (fsReady c) enable (cacheMaxFiles c) (cacheMaxBytes c)
                       (cacheMaxAgeMs c) (disk c)).

Definition flushCacheNow (env : Env) (s : Engine) : Engine :=
  let c := ensureFS env (cache s) in
  if negb (fsReady c) then set_cache s c
  else set_cache s (set_disk c (filter (fun f => negb (inCacheDir f)) (disk c))).

Definition setCacheLimits (maxFiles maxBytes maxAgeMs : Z) (s : Engine) : Engine :=
  let c := cache s in
  set_cache s
    (mkCache (fsReady c) (flushOnBoot c)
             (if maxFiles =? 0 then cacheMaxFiles c else maxFiles)
             (if maxBytes =? 0 then cacheMaxBytes c else maxBytes)
             (if maxAgeMs =? 0 then cacheMaxAgeMs c else maxAgeMs)
             (disk c)).

(** [keepRoot] is ignored by the code; [WORK_ROOT], [BASE], [curApp],
    [lastFetchMs] and the cache are not touched. *)
Definition resetRuntime (s : Engine) : Engine :=
  mkEngine (BASE s) (WORK_ROOT s) (curApp s) false (lastFetchMs s)
           (mkProbe [] 0 0)
           (mkModel [] [] (-1))
           (mkRes false false [] (-1) [] [] [])
           (mkRot 0 0 0 0 0)
           (cache s).

Definition begin (env : Env) (s : Engine) : Engine :=
  let s := resetRuntime s in
  if env_net env then startProbingIfNeeded s else s.

(** [app] is a C string or the null pointer. *)
Definition onAppName (env : Env) (app : option Str) (s0 : Engine) : Engine :=
  let s := trim (match app with Some a => a | None => [] end) in
  if streq s (curApp s0) then s0
  else
    let s1 := resetRuntime (set_curApp s0 s) in
    if isEmpty (curApp s1) then s1
    else if env_net env then startProbingIfNeeded s1 else s1.

Definition isActive (s : Engine) : bool :=
  negb (isEmpty (curApp s)) && resolved (res s) && loaded s.

Definition maybeResolveAndLoad (env : Env) (s : Engine) : Engine :=
  let now := ms_fetch env in
  if u32 (now - lastFetchMs s) <? 100 then s
  else
    let s := set_lastFetchMs s now in
    if isEmpty (WORK_ROOT s) then fst (stepProbeWorkRoot env s)
    else if negb (resolved (res s)) then fst (resolveTitlePool env s)
    else if negb (loaded s) then
      let i := curTitleIdx (res s) in
      if (i <? 0) || (Z.of_nat (length (titlePool (res s))) <=? i) then s
      else fst (loadGameModel env (nth (Z.to_nat i) (titlePool (res s)) []) s)
    else s.

(** The board switch at the end of [tick]. *)
Definition rotateBoard (env : Env) (now : Z) (s : Engine) : Engine :=
  let m := model s in
  let n := Z.of_nat (length (boards m)) in
  let next := if 1 <? n then u32 (rnd_tick env) mod n else curBoard m in
  let next := if (1 <? n) && (next =? curBoard m) then (next + 1) mod n else next in
  let s := set_model s (mkModel (gameTitle m) (boards m) next) in
  let r := rot s in
  let s := set_rot s (mkRot 0 (lastStep r) now (u32 (now + FREEZE_MS))
                            (lastModelSwitch r)) in
  let pool := Z.of_nat (length (titlePool (res s))) in
  if (1 <? pool) && (MODEL_DWELL_MS <=? u32 (now - lastModelSwitch (rot s))) then
    let q := res s in
    set_loaded
      (set_res s (mkRes (haveSearch q) (resolved q) (titlePool q)
                        (Z.rem (curTitleIdx q + 1) pool)
                        (lastDiag q) (lastQueryRaw q) (lastQueryNorm q)))
      false
  else s.

(** The scroll step of [tick].  [scrollY] is a [float]: past 2^24 adding
    one no longer changes it. *)
Definition advanceScroll (now : Z) (s : Engine) : Engine :=
  let r := rot s in
  if STEP_MS <=? u32 (now - lastStep r) then
    set_rot s (mkRot (if scrollY r <? 16777216
                      then scrollY r + PIXELS_PER_STEP else scrollY r)
                     now (lastBoardSwitch r) (freezeUntilMs r)
                     (lastModelSwitch r))
  else s.

(** Has the last row of board [B] scrolled past the top of the body? *)
Definition lastRowGone (s : Engine) (B : Board) : bool :=
  let last_i := Z.of_nat (length (rows B)) - 1 in
  let bottomBaseline := SCR_H - 2 in
  let y_last := bottomBaseline - (scrollY (rot s) - last_i * LINE_H) in
  let last_top := y_last - ASCENT_5x8 in
  let CONTENT_BODY_TOP := CONTENT_TOP + LINE_H in
  last_top <? CONTENT_BODY_TOP.

Definition tick (env : Env) (s : Engine) : Engine :=
  if isEmpty (curApp s) then s
  else
    let s := maybeResolveAndLoad env s in
    if negb (resolved (res s)) || negb (loaded s) then s
    else
      let now := ms_tick env in
      if now <? freezeUntilMs (rot s) then s
      else
        let s := advanceScroll now s in
        let m := model s in
        if (0 <=? curBoard m) && (curBoard m <? Z.of_nat (length (boards m))) then
          let B := nth (Z.to_nat (curBoard m)) (boards m) (mkBoard [] []) in
          if lastRowGone s B
             && (BOARD_MIN_DWELL_MS <=? u32 (now - lastBoardSwitch (rot s)))
          then rotateBoard env now s
          else s
        else s.

(** The calls the sketch can make. *)
Inductive Call :=
| CallSetServerBase (base : Str)
| CallBegin (env : Env)
| CallOnAppName (env : Env) (app : option Str)
| CallTick (env : Env)
| CallSetCacheLimits (maxFiles maxBytes maxAgeMs : Z)
| CallSetFlushCacheOnBoot (enable : bool)
| CallFlushCacheNow (env : Env).

Definition run (s : Engine) (c : Call) : Engine :=
  match c with
  | CallSetServerBase base => setServerBase base s
  | CallBegin env => begin env s
  | CallOnAppName env app => onAppName env app s
  | CallTick env => tick env s
  | CallSetCacheLimits a b c => setCacheLimits a b c s
  | CallSetFlushCacheOnBoot e => setFlushCacheOnBoot e s
  | CallFlushCacheNow env => flushCacheNow env s
  end.

Definition runAll (s : Engine) (calls : list Call) : Engine := fold_left run calls s.

(* ================================================================== *)
(** ** Notions used in the statements                                   *)
(* ================================================================== *)

(** JSON text written with apostrophes for the double quotes. *)
Definition jsonText (s : string) : Str :=
  map (fun c => if Ascii.eqb c "'"%char then dquote else c) (str s).

(** The index of the Halo 2 scenario: two regional variants, no slug and
    no name_lc. *)
Definition halo_body : Str :=
  jsonText "[{'title_id':'AA','name':'Halo 2 (NTSC)'},{'title_id':'BB','name':'Halo 2 (PAL)'}]".

Definition halo_index : list IndexEntry :=
  [mkEntry (str "AA") (str "Halo 2 (NTSC)") [] [];
   mkEntry (str "BB") (str "Halo 2 (PAL)") [] []].

(** Surroundings in which every GET is answered with [body], the clock
    shows [t] seconds and [ms] milliseconds, and the flash works. *)
Definition serving (body : Str) (doc : option Json) (t ms : Z) : Env :=
  mkEnv true ms ms ms ms ms t 7 7 7 (fun _ => Some body) (fun _ => doc)
        (fun _ => true) true true 1000000.

(** An engine that has confirmed a root and holds the query [q]. *)
Definition rooted (q : Str) : Engine :=
  set_curApp (set_WORK_ROOT (initial []) (str "http://host/xbox")) q.

(** A per-title document whose only board declares a rank column and has
    one positional row without a rank value. *)
Definition doc_array_row : Json :=
  JObj [(str "game_title", JStr (str "Halo 2"));
        (str "scoreboards",
         JArr [JObj [(str "name", JStr (str "Top"));
                     (str "columns", JArr [JStr (str "Rank"); JStr (str "Name");
                                           JStr (str "Score")]);
                     (str "rows", JArr [JArr [JNull; JStr (str "Bob");
                                              JStr (str "500")]])]])].

(** A per-title document with a title and no scoreboards. *)
Definition doc_no_boards : Json := JObj [(str "game_title", JStr (str "New"))].

(** An engine between two variants: the model of the previous variant is
    still installed, [loaded] is off. *)
Definition between_variants : Engine :=
  set_model (rooted (str "Halo 2"))
            (mkModel (str "Old")
                     [mkBoard (str "Top") [mkRow (str "1") (str "Ann") (str "9") []]] 0).

(** What [loadGameModel] gets from the cache or the network, and what the
    parser makes of it. *)
Definition fetchedBody (env : Env) (titleId : Str) (s : Engine) : option Str :=
  snd (fetchThroughCache env
         (WORK_ROOT s ++ str "/data/by_id/" ++ titleId ++ str ".json")
         TTL_BYID_MS (cache s)).

Definition parsedDoc (env : Env) (titleId : Str) (s : Engine) : option Json :=
  match fetchedBody env titleId s with
  | None => None
  | Some body => env_parse env body
  end.

(** Rows in the order of their rank keys. *)
Definition rankOrdered (a b : Row) : Prop := rankKey (rank a) <= rankKey (rank b).

(** The first run of digits of a rank and its decimal value. *)
Definition firstDigitRun (rs : Str) : Str :=
  takeWhile is_digit (dropWhile (fun c => negb (is_digit c)) rs).

Definition decimalValue (ds : Str) : Z :=
  fold_left (fun n c => n * 10 + (Z.of_nat (code c) - 48)) ds 0.


(** The invariant of a loaded model. *)
Definition modelValid (s : Engine) : Prop :=
  loaded s = true ->
  0 <= curBoard (model s) < Z.of_nat (length (boards (model s)))
  /\ Forall (fun B => rows B <> []) (boards (model s)).

(** The probe state as a reset leaves it: cursor and next probe time at
    zero, and the candidate list empty or built anew from [BASE]. *)
Definition probeFresh (s : Engine) : Prop :=
  probeIdx (probe s) = 0 /\ nextProbeAt (probe s) = 0
  /\ (probeList (probe s) = [] \/ probeList (probe s) = buildCandidateRoots (BASE s)).

(** Surroundings with the network up and no server answering. *)
Definition unanswered (t ms : Z) : Env :=
  mkEnv true ms ms ms ms ms t 7 7 7 (fun _ => None) (fun _ => None)
        (fun _ => false) true true 1000000.

(** An engine in the middle of a sweep: a query is set and the first
    candidate root has been probed without an answer. *)
Definition mid_sweep : Engine :=
  tick (unanswered 1700000000 1000)
       (onAppName (unanswered 1700000000 1000) (Some (str "Halo 2")) (initial [])).

Definition argOf (app : option Str) : Str :=
  trim (match app with Some a => a | None => [] end).

(** The record pass 1 keeps for an entry it selects with [score] and [reason]. *)
Definition selected (e : IndexEntry) (score : Z) (reason : Str) : Best :=
  mkBest (e_id e) (e_name e) (e_nlc e) (e_slug e)
         (familyOf (e_name e) (e_slug e)) score reason.

(** Tokens put back into one string, a space between neighbours. *)
Definition joinTokens (toks : list Str) : Str := joinWith (str " ") toks.

(** A character and a token as the Normalizer puts them out. *)
Definition tokenChar (c : ascii) : bool := is_lower c || is_digit c.

Definition normalToken (t : Str) : Prop :=
  t <> [] /\ Forall (fun c => tokenChar c = true) t /\ romanize t = t.

(** A character as the folding step puts it out. *)
Definition folded (c : ascii) : Prop := tokenChar c = true \/ is_space c = true.

(** The files of the cache directory. *)
Definition cacheFiles (d : list File) : list File := filter inCacheDir d.

(** A flash file system has one file per path; the limits are [size_t] and
    [uint32_t] values. *)
Definition fsWf (d : list File) : Prop := NoDup (map f_path d).

Definition cacheWf (c : Cache) : Prop :=
  fsWf (disk c) /\ 0 <= cacheMaxFiles c /\ 0 <= cacheMaxBytes c
  /\ 0 <= cacheMaxAgeMs c.

(** The flash after the first loop of [pruneCache]. *)
Definition agedDisk (env : Env) (c : Cache) : list File :=
  let c1 := ensureFS env c in
  agePhase (env_time env) (cacheMaxAgeMs c1) (listing (disk c1)) (disk c1).

(** A run of cache writes, each in its own surroundings. *)
Definition writeAll (c : Cache) (ws : list (Env * Str * Str)) : Cache :=
  fold_left (fun c w => fst (cacheWrite (fst (fst w)) (snd (fst w)) (snd w) c)) ws c.

(** What the last loop of [pruneCache] relies on: the counters are those of
    the flash and the entries still to visit are its cache files. *)
Definition evictInv (rest : list (Str * Z)) (files bytes : Z) (d : list File) : Prop :=
  fsWf d /\ files = dirFiles d /\ bytes = dirBytes d /\ Permutation rest (listing d).

(** A cache that is mounted, with room for two files, and three writes one
    second apart. *)
Definition small_cache : Cache := mkCache true false 2 1000 (6 * 60 * 60 * 1000) [].

Definition three_writes : list (Env * Str * Str) :=
  [(serving [] None 1700000001 1000, str "http://h/a", str "first");
   (serving [] None 1700000002 2000, str "http://h/b", str "second");
   (serving [] None 1700000003 3000, str "http://h/c", str "third")].


(** A comparator that compares keys, and the order it sorts into. *)
Definition keyLess {A} (key : A -> Z) (a b : A) : bool := key a <? key b.
Definition keyOrdered {A} (key : A -> Z) (a b : A) : Prop := key a <= key b.

(* ================================================================== *)
(** ** Notions used in the further properties                           *)
(* ================================================================== *)

(** The title pool and its cursor go with the [resolved] flag. *)
Definition poolValid (s : Engine) : Prop :=
  (resolved (res s) = true ->
   titlePool (res s) <> []
   /\ 0 <= curTitleIdx (res s) < Z.of_nat (length (titlePool (res s))))
  /\ (resolved (res s) = false ->
      titlePool (res s) = [] /\ curTitleIdx (res s) = -1).

(** Root before resolution, resolution before load. *)
Definition orderValid (s : Engine) : Prop :=
  (resolved (res s) = true -> WORK_ROOT s <> [] /\ curApp s <> [])
  /\ (loaded s = true -> resolved (res s) = true).

(** The probe cursor stays within the candidate list. *)
Definition cursorValid (s : Engine) : Prop :=
  0 <= probeIdx (probe s) <= Z.of_nat (length (probeList (probe s))).

(** The extras of a row before the metric is taken out. *)
Definition cleanedExtras (cols : list Str) (rankIdx nameIdx pos : Z) (rv : Json)
  : list Str :=
  cleanExtras (snd (rowFields cols rankIdx nameIdx pos rv)).

(** A key that is neither rank-like nor name-like, and not empty. *)
Definition plainKey (kv : Str) : Prop :=
  extraKey kv <> []
  /\ in_list_ci (extraKey kv) RANK_KEYS = false
  /\ in_list_ci (extraKey kv) NAME_KEYS = false.

(** The characters [sanitizeKey] replaces. *)
Definition reservedChar (c : ascii) : bool :=
  existsb (Ascii.eqb c) (str "/?:&=%#").

(** [cacheRead]'s freshness test for a file. *)
Definition freshAt (env : Env) (maxAgeMs : Z) (f : File) : bool :=
  (0 <? f_mtime f) && (0 <? env_time env)
  && (u32 ((env_time env - f_mtime f) * 1000) <=? maxAgeMs).

(** A cache whose flash has one file per path and whose limits are positive. *)
Definition cacheGood (c : Cache) : Prop :=
  fsWf (disk c) /\ 1 <= cacheMaxFiles c /\ 1 <= cacheMaxBytes c
  /\ 1 <= cacheMaxAgeMs c.

(** The arguments of [setCacheLimits] are [size_t] and [uint32_t] values. *)
Definition callTyped (c : Call) : Prop :=
  match c with
  | CallSetCacheLimits a b m => 0 <= a /\ 0 <= b /\ 0 <= m
  | _ => True
  end.

(** A usable server root: not blank and without a trailing slash, so that
    appending [/data/...] never doubles the separator. *)
Definition rootShaped (r : Str) : Prop :=
  r <> [] /\ endsWith r (str "/") = false.

(** The candidate list holds distinct usable roots, and the confirmed root
    is either unset or usable. *)
Definition rootsValid (s : Engine) : Prop :=
  NoDup (probeList (probe s)) /\ Forall rootShaped (probeList (probe s))
  /\ (WORK_ROOT s = [] \/ rootShaped (WORK_ROOT s)).

(** A character of a field value that needs no escaping. *)
Definition plainChar (c : ascii) : Prop := c <> dquote /\ c <> backslash.

(** An object text that holds [key] with the value [v] right after [pre]. *)
Definition fieldText (pre key v rest : Str) : Str :=
  pre ++ (dquote :: key ++ [dquote]) ++ ":"%char :: dquote :: v ++ dquote :: rest.

(** The elements of the [scoreboards] array of a document; none when the
    member is missing or is not an array. *)
Definition scoreboardsOf (doc : Json) : list Json :=
  match member doc (str "scoreboards") with
  | JArr sbs => sbs
  | _ => []
  end.

(** A scoreboard element that can be shown: an object whose [rows] member
    is an array with at least one element. *)
Definition usableBoard (v : Json) : bool :=
  match v with
  | JObj _ =>
      match member v (str "rows") with
      | JArr (_ :: _) => true
      | _ => false
      end
  | _ => false
  end.

(** What a load leaves alone when it fails: everything of the engine
    outside the model and the cache. *)
Definition outsideModelKept (s s' : Engine) : Prop :=
  loaded s' = loaded s /\ rot s' = rot s /\ res s' = res s
  /\ probe s' = probe s /\ WORK_ROOT s' = WORK_ROOT s /\ curApp s' = curApp s
  /\ BASE s' = BASE s /\ lastFetchMs s' = lastFetchMs s.

(** The bytes a list of files holds. *)
Definition bytesOf (l : list File) : Z :=
  fold_right (fun f acc => len (f_data f) + acc) 0 l.

(** The cache files of [d] that are at least as new as [f], [f] included
    when it is one of them. *)
Definition atLeastAsNew (f : File) (d : list File) : list File :=
  filter (fun g => f_mtime f <=? f_mtime g) (cacheFiles d).

(** Files that the two capacity limits allow together. *)
Definition fits (maxFiles maxBytes : Z) (l : list File) : Prop :=
  Z.of_nat (length l) <= maxFiles /\ bytesOf l <= maxBytes.

(** Three writes one second apart, the last one larger than the 1000
    bytes that [small_cache] may hold. *)
Definition oversized_writes : list (Env * Str * Str) :=
  [(serving [] None 1700000001 1000, str "http://h/a", str "first");
   (serving [] None 1700000002 2000, str "http://h/b", str "second");
   (serving [] None 1700000003 3000, str "http://h/c", repeat "x"%char 1001)].

(* ================================================================== *)
(** ** Shared lemmas                                                    *)
(* ================================================================== *)

Ltac break_if :=
  match goal with
  | |- context [if ?b then _ else _] => destruct b eqn:?
  end.

Ltac break_match :=
  match goal with
  | |- context [match ?x with _ => _ end] => destruct x eqn:?
  end.

Lemma streq_refl : forall a, streq a a = true.
Proof.
  induction a as [|x a IH]; simpl; [reflexivity|].
  rewrite Ascii.eqb_refl, IH. reflexivity.
Qed.

Lemma streq_eq : forall a b, streq a b = true -> a = b.
Proof.
  induction a as [|x a IH]; destruct b as [|y b]; simpl; intros H;
    try reflexivity; try discriminate.
  apply andb_true_iff in H. destruct H as [Hx Hr].
  apply Ascii.eqb_eq in Hx. subst y. f_equal. apply IH, Hr.
Qed.

Lemma isEmpty_false : forall A (l : list A), isEmpty l = false <-> l <> [].
Proof.
  intros A l. destruct l; cbn; split; intros H; try congruence; auto.
Qed.

Lemma isEmpty_true : forall A (l : list A), isEmpty l = true <-> l = [].
Proof.
  intros A l. destruct l; cbn; split; intros H; try congruence; auto.
Qed.

Lemma digitsFuel_nonempty : forall fuel n acc, acc <> [] -> digitsFuel fuel n acc <> [].
Proof.
  induction fuel as [|k IH]; intros n acc Hacc; simpl; [assumption|].
  destruct (n <? 10); [discriminate|]. apply IH. discriminate.
Qed.

Lemma String_of_int_nonempty : forall n, String_of_int n <> [].
Proof.
  intros n. unfold String_of_int. destruct (n <? 0); [discriminate|].
  simpl. destruct (n <? 10); [discriminate|].
  apply digitsFuel_nonempty. discriminate.
Qed.


(** *** [std_sort] *)

Lemma sort_insert_perm :
  forall A (lt : A -> A -> bool) x l, Permutation (x :: l) (sort_insert lt x l).
Proof.
  intros A lt x l. induction l as [|y r IH]; simpl; [apply Permutation_refl|].
  destruct (lt y x); [|apply Permutation_refl].
  eapply perm_trans; [apply perm_swap|]. apply perm_skip, IH.
Qed.

Lemma std_sort_perm :
  forall A (lt : A -> A -> bool) l, Permutation l (std_sort lt l).
Proof.
  intros A lt l. induction l as [|x r IH]; simpl; [apply perm_nil|].
  eapply perm_trans; [apply perm_skip, IH|]. apply sort_insert_perm.
Qed.

Lemma std_sort_nonempty :
  forall A (lt : A -> A -> bool) l, l <> [] -> std_sort lt l <> [].
Proof.
  intros A lt l Hl Hs. apply Hl.
  apply Permutation_nil. rewrite <- Hs. apply Permutation_sym, std_sort_perm.
Qed.

Section SortByKey.
Context {A : Type} (key : A -> Z).

Lemma sort_insert_sorted :
  forall x l,
    StronglySorted (keyOrdered key) l ->
    StronglySorted (keyOrdered key) (sort_insert (keyLess key) x l).
Proof.
  intros x l Hs. induction Hs as [|y r Hr IH Hall]; simpl.
  - constructor; constructor.
  - unfold keyLess at 1. destruct (key y <? key x) eqn:Hc.
    + apply Z.ltb_lt in Hc. constructor; [exact IH|].
      eapply Permutation_Forall; [apply sort_insert_perm|].
      constructor; [unfold keyOrdered; lia|exact Hall].
    + apply Z.ltb_ge in Hc. constructor; [constructor; assumption|].
      constructor; [exact Hc|].
      eapply Forall_impl; [|exact Hall].
      unfold keyOrdered. intros a Ha. lia.
Qed.

Lemma std_sort_sorted :
  forall l, StronglySorted (keyOrdered key) (std_sort (keyLess key) l).
Proof.
  induction l as [|x r IH]; simpl; [constructor|].
  apply sort_insert_sorted, IH.
Qed.

End SortByKey.

(** *** What the steps of the scheduler leave alone *)

Lemma startProbing_frame :
  forall s,
    let s' := startProbingIfNeeded s in
    model s' = model s /\ loaded s' = loaded s /\ WORK_ROOT s' = WORK_ROOT s
    /\ BASE s' = BASE s /\ curApp s' = curApp s /\ res s' = res s.
Proof.
  intros s. unfold startProbingIfNeeded.
  break_if; cbn; repeat split; reflexivity.
Qed.

Lemma stepProbe_frame :
  forall env s,
    let s' := fst (stepProbeWorkRoot env s) in
    model s' = model s /\ loaded s' = loaded s /\ BASE s' = BASE s
    /\ curApp s' = curApp s /\ res s' = res s.
Proof.
  intros env s. unfold stepProbeWorkRoot, startProbingIfNeeded.
  repeat (break_if || break_match); cbn; repeat split; reflexivity.
Qed.

Lemma resolve_frame :
  forall env s,
    let s' := fst (resolveTitlePool env s) in
    model s' = model s /\ loaded s' = loaded s /\ WORK_ROOT s' = WORK_ROOT s
    /\ probe s' = probe s /\ BASE s' = BASE s /\ curApp s' = curApp s.
Proof.
  intros env s. unfold resolveTitlePool.
  repeat (break_if || break_match); cbn; repeat split; reflexivity.
Qed.

Lemma load_frame :
  forall env titleId s,
    let s' := fst (loadGameModel env titleId s) in
    WORK_ROOT s' = WORK_ROOT s /\ probe s' = probe s /\ BASE s' = BASE s
    /\ curApp s' = curApp s /\ res s' = res s
    /\ (snd (loadGameModel env titleId s) = false -> loaded s' = loaded s).
Proof.
  intros env titleId s. unfold loadGameModel.
  repeat (break_if || break_match); cbn; repeat split;
    try reflexivity; discriminate.
Qed.

(** *** Boards as the loader builds them *)

Lemma loadBoard_sorted :
  forall v B,
    loadBoard v = Some B ->
    rows B <> [] /\ StronglySorted rankOrdered (rows B).
Proof.
  intros v B. unfold loadBoard.
  destruct v; try discriminate.
  destruct (member (JObj m) (str "rows")); try discriminate.
  match goal with
  | |- context [loadRows ?c ?r ?n ?a ?p ?acc] => destruct (loadRows c r n a p acc) as [|r0 rs] eqn:Hrows
  end; [discriminate|].
  intros H. inversion H; subst B; clear H. cbn [rows].
  split.
  - apply (std_sort_nonempty _ rankLess (r0 :: rs)). discriminate.
  - apply (std_sort_sorted (fun r => rankKey (rank r)) (r0 :: rs)).
Qed.

Lemma loadBoards_sorted :
  forall sbs,
    Forall (fun B => rows B <> [] /\ StronglySorted rankOrdered (rows B))
           (loadBoards sbs).
Proof.
  unfold loadBoards. induction sbs as [|v sbs IH]; simpl; [constructor|].
  destruct (loadBoard v) as [B|] eqn:HB; [|exact IH].
  constructor; [eapply loadBoard_sorted; exact HB|exact IH].
Qed.

Lemma loaded_boards :
  forall env titleId s,
    snd (loadGameModel env titleId s) = true ->
    exists sbs,
      boards (model (fst (loadGameModel env titleId s))) = loadBoards sbs
      /\ loadBoards sbs <> []
      /\ curBoard (model (fst (loadGameModel env titleId s)))
         = u32 (rnd_load env) mod Z.of_nat (length (loadBoards sbs))
      /\ loaded (fst (loadGameModel env titleId s)) = true.
Proof.
  intros env titleId s. unfold loadGameModel.
  destruct (fetchThroughCache env _ TTL_BYID_MS (cache s)) as [c fetched].
  destruct fetched as [body|]; [|discriminate].
  destruct (env_parse env body) as [doc|]; [|discriminate].
  destruct (member doc (str "scoreboards")) as [| | | |sbs|]; try discriminate.
  destruct (loadBoards sbs) as [|b bs] eqn:Hb; [discriminate|].
  intros _. exists sbs. rewrite Hb. cbn. repeat split; try reflexivity. discriminate.
Qed.


Lemma advanceScroll_frame :
  forall now s,
    let s' := advanceScroll now s in
    model s' = model s /\ loaded s' = loaded s /\ WORK_ROOT s' = WORK_ROOT s
    /\ probe s' = probe s /\ BASE s' = BASE s /\ curApp s' = curApp s
    /\ res s' = res s.
Proof.
  intros now s. unfold advanceScroll.
  break_if; cbn; repeat split; reflexivity.
Qed.

Lemma rotateBoard_frame :
  forall env now s,
    let s' := rotateBoard env now s in
    WORK_ROOT s' = WORK_ROOT s /\ probe s' = probe s /\ BASE s' = BASE s
    /\ curApp s' = curApp s.
Proof.
  intros env now s. unfold rotateBoard.
  repeat break_if; cbn; repeat split; reflexivity.
Qed.

(** *** The flash file system *)

Lemma fs_remove_In :
  forall p d f, In f (fs_remove p d) -> In f d /\ f_path f <> p.
Proof.
  intros p d f H. unfold fs_remove in H. apply filter_In in H.
  destruct H as [Hin Hne]. split; [exact Hin|].
  intros Heq. rewrite Heq, streq_refl in Hne. discriminate.
Qed.

Lemma fs_remove_keeps :
  forall p d f, In f d -> f_path f <> p -> In f (fs_remove p d).
Proof.
  intros p d f Hin Hne. unfold fs_remove. apply filter_In. split; [exact Hin|].
  destruct (streq (f_path f) p) eqn:H; [|reflexivity].
  exfalso. apply Hne, streq_eq, H.
Qed.

Lemma fs_remove_absent :
  forall p d, ~ In p (map f_path d) -> fs_remove p d = d.
Proof.
  intros p d. induction d as [|g d IH]; intros H; [reflexivity|].
  cbn [fs_remove filter]. cbn [map In] in H.
  destruct (streq (f_path g) p) eqn:Hg.
  - exfalso. apply H. left. apply streq_eq, Hg.
  - cbn [negb]. f_equal. apply IH. intros Hin. apply H. right. exact Hin.
Qed.

Lemma filter_paths_NoDup :
  forall (keep : File -> bool) d, fsWf d -> fsWf (filter keep d).
Proof.
  unfold fsWf. intros keep d. induction d as [|g d IH]; intros H; [constructor|].
  cbn [map] in H. inversion H as [|? ? Hnot Hrest]; subst.
  cbn [filter]. destruct (keep g); [|apply IH, Hrest].
  cbn [map]. constructor; [|apply IH, Hrest].
  intros Hin. apply Hnot. apply in_map_iff in Hin.
  destruct Hin as (f & Hp & Hf). apply filter_In in Hf.
  apply in_map_iff. exists f. split; [exact Hp|apply Hf].
Qed.

Lemma fs_remove_wf : forall p d, fsWf d -> fsWf (fs_remove p d).
Proof. intros p d. apply filter_paths_NoDup. Qed.


Lemma fs_find_In :
  forall d f, fsWf d -> In f d -> fs_find (f_path f) d = Some f.
Proof.
  unfold fsWf. intros d f. induction d as [|g d IH]; intros Hwf Hin; [destruct Hin|].
  cbn [map] in Hwf. inversion Hwf as [|? ? Hnot Hrest]; subst.
  cbn [fs_find find]. destruct Hin as [Heq|Hin].
  - subst g. rewrite streq_refl. reflexivity.
  - destruct (streq (f_path g) (f_path f)) eqn:Hg.
    + exfalso. apply Hnot. apply streq_eq in Hg. rewrite Hg.
      apply in_map. exact Hin.
    + apply IH; assumption.
Qed.

Lemma wf_same_path :
  forall d f g, fsWf d -> In f d -> In g d -> f_path f = f_path g -> f = g.
Proof.
  intros d f g Hwf Hf Hg Hp.
  pose proof (fs_find_In d f Hwf Hf) as H1.
  pose proof (fs_find_In d g Hwf Hg) as H2.
  rewrite Hp in H1. congruence.
Qed.

Lemma inCacheDir_path :
  forall f g, f_path f = f_path g -> inCacheDir f = inCacheDir g.
Proof. intros f g H. unfold inCacheDir. rewrite H. reflexivity. Qed.

(** Taking a cache file off the flash. *)
Lemma fs_remove_split :
  forall d f,
    fsWf d -> In f d ->
    Permutation d (f :: fs_remove (f_path f) d).
Proof.
  unfold fsWf. intros d f. induction d as [|g d IH]; intros Hwf Hin; [destruct Hin|].
  cbn [map] in Hwf. inversion Hwf as [|? ? Hnot Hrest]; subst.
  cbn [fs_remove filter]. destruct Hin as [Heq|Hin].
  - subst g. rewrite streq_refl. cbn [negb].
    fold (fs_remove (f_path f) d). rewrite fs_remove_absent by exact Hnot.
    apply Permutation_refl.
  - destruct (streq (f_path g) (f_path f)) eqn:Hg.
    + exfalso. apply Hnot. apply streq_eq in Hg. rewrite Hg.
      apply in_map. exact Hin.
    + cbn [negb]. fold (fs_remove (f_path f) d).
      eapply perm_trans; [apply perm_skip, IH; assumption|]. apply perm_swap.
Qed.

Lemma dirBytes_perm :
  forall d d', Permutation d d' -> dirBytes d = dirBytes d'.
Proof.
  intros d d' H. unfold dirBytes.
  induction H; cbn [filter].
  - reflexivity.
  - destruct (inCacheDir x); cbn [fold_right]; lia.
  - destruct (inCacheDir x), (inCacheDir y); cbn [fold_right]; lia.
  - lia.
Qed.

Lemma dirFiles_perm :
  forall d d', Permutation d d' -> dirFiles d = dirFiles d'.
Proof.
  intros d d' H. unfold dirFiles.
  induction H; cbn [filter].
  - reflexivity.
  - destruct (inCacheDir x); cbn [length]; lia.
  - destruct (inCacheDir x), (inCacheDir y); cbn [length]; lia.
  - lia.
Qed.

Lemma cacheFiles_perm :
  forall d d', Permutation d d' -> Permutation (cacheFiles d) (cacheFiles d').
Proof.
  intros d d' H. unfold cacheFiles.
  induction H; cbn [filter].
  - constructor.
  - destruct (inCacheDir x); [constructor|]; assumption.
  - destruct (inCacheDir x), (inCacheDir y);
      try apply perm_swap; apply Permutation_refl.
  - eapply perm_trans; eassumption.
Qed.

Lemma dirBytes_nonneg : forall d, 0 <= dirBytes d.
Proof.
  intros d. unfold dirBytes. induction (filter inCacheDir d) as [|f l IH]; cbn.
  - lia.
  - unfold len at 1. lia.
Qed.

Lemma dirFiles_empty : forall d, cacheFiles d = [] -> dirFiles d = 0 /\ dirBytes d = 0.
Proof.
  intros d H. unfold dirFiles, dirBytes. unfold cacheFiles in H. rewrite H.
  split; reflexivity.
Qed.

(** The first loop of [pruneCache] only takes files away. *)
Lemma agePhase_sub :
  forall nowt maxAge entries d f,
    In f (agePhase nowt maxAge entries d) -> In f d.
Proof.
  intros nowt maxAge entries. unfold agePhase.
  induction entries as [|e entries IH]; intros d f H; [exact H|].
  cbn [fold_left] in H. apply IH in H.
  destruct (fs_find (fst e) d); [|exact H].
  destruct (tooOld nowt (snd e) maxAge); [|exact H].
  eapply fs_remove_In. exact H.
Qed.

Lemma agePhase_wf :
  forall nowt maxAge entries d, fsWf d -> fsWf (agePhase nowt maxAge entries d).
Proof.
  intros nowt maxAge entries. unfold agePhase.
  induction entries as [|e entries IH]; intros d H; [exact H|].
  cbn [fold_left]. apply IH.
  destruct (fs_find (fst e) d); [|exact H].
  destruct (tooOld nowt (snd e) maxAge); [|exact H].
  apply fs_remove_wf, H.
Qed.

(** A file that is not listed as too old stays. *)
Lemma agePhase_keeps :
  forall nowt maxAge entries d f,
    In f d ->
    (forall e, In e entries -> fst e = f_path f -> tooOld nowt (snd e) maxAge = false) ->
    In f (agePhase nowt maxAge entries d).
Proof.
  intros nowt maxAge entries. unfold agePhase.
  induction entries as [|e entries IH]; intros d f Hin Hyoung; [exact Hin|].
  cbn [fold_left]. apply IH.
  - destruct (fs_find (fst e) d); [|exact Hin].
    destruct (tooOld nowt (snd e) maxAge) eqn:Hold; [|exact Hin].
    apply fs_remove_keeps; [exact Hin|].
    intros Heq. rewrite (Hyoung e) in Hold; [discriminate|left; reflexivity|].
    symmetry. exact Heq.
  - intros e' He'. apply Hyoung. right. exact He'.
Qed.

(** *** The last loop of [pruneCache] *)

Lemma cacheFiles_In :
  forall d f, In f (cacheFiles d) <-> In f d /\ inCacheDir f = true.
Proof. intros d f. unfold cacheFiles. apply filter_In. Qed.

Lemma listing_In :
  forall d e,
    In e (listing d) <->
    exists f, In f d /\ inCacheDir f = true /\ e = (f_path f, f_mtime f).
Proof.
  intros d e. unfold listing. rewrite in_map_iff. split.
  - intros (f & He & Hf). apply filter_In in Hf. exists f. intuition congruence.
  - intros (f & Hf & Hc & He). exists f. split; [congruence|].
    apply filter_In. split; assumption.
Qed.

Lemma listing_perm :
  forall d d', Permutation d d' -> Permutation (listing d) (listing d').
Proof.
  intros d d' H. unfold listing. apply Permutation_map.
  apply (cacheFiles_perm d d' H).
Qed.


Lemma dirFiles_cons :
  forall f d, dirFiles (f :: d) = (if inCacheDir f then 1 else 0) + dirFiles d.
Proof.
  intros f d. unfold dirFiles. cbn [filter].
  destruct (inCacheDir f); cbn [length]; lia.
Qed.

Lemma dirBytes_cons :
  forall f d,
    dirBytes (f :: d) = (if inCacheDir f then len (f_data f) else 0) + dirBytes d.
Proof.
  intros f d. unfold dirBytes. cbn [filter].
  destruct (inCacheDir f); cbn [fold_right]; lia.
Qed.

Lemma evict_step :
  forall e rest files bytes d,
    evictInv (e :: rest) files bytes d ->
    exists f,
      fs_find (fst e) d = Some f /\ In f d /\ inCacheDir f = true
      /\ e = (f_path f, f_mtime f)
      /\ 1 <= files /\ len (f_data f) <= bytes
      /\ evictInv rest (files - 1) (bytes - len (f_data f)) (fs_remove (fst e) d).
Proof.
  intros e rest files bytes d (Hwf & Hfiles & Hbytes & Hperm).
  assert (He : In e (listing d))
    by (eapply Permutation_in; [exact Hperm|left; reflexivity]).
  apply listing_In in He. destruct He as (f & Hf & Hc & He).
  exists f. subst e. cbn [fst].
  pose proof (fs_remove_split d f Hwf Hf) as Hsplit.
  pose proof (dirFiles_perm _ _ Hsplit) as HF.
  pose proof (dirBytes_perm _ _ Hsplit) as HB.
  rewrite dirFiles_cons, Hc in HF. rewrite dirBytes_cons, Hc in HB.
  pose proof (dirBytes_nonneg (fs_remove (f_path f) d)) as Hnn.
  assert (Hnf : 0 <= dirFiles (fs_remove (f_path f) d)) by (unfold dirFiles; lia).
  split; [apply fs_find_In; assumption|].
  split; [assumption|]. split; [assumption|]. split; [reflexivity|].
  split; [lia|]. split; [lia|].
  split; [apply fs_remove_wf, Hwf|]. split; [lia|]. split; [lia|].
  apply listing_perm in Hsplit. unfold listing at 2 in Hsplit.
  cbn [filter] in Hsplit. rewrite Hc in Hsplit. cbn [map] in Hsplit.
  fold (listing (fs_remove (f_path f) d)) in Hsplit.
  eapply Permutation_cons_inv.
  eapply perm_trans; [exact Hperm|exact Hsplit].
Qed.

Lemma evict_unfold :
  forall maxF maxB e rest files bytes d f,
    withinLimits maxF maxB files bytes = false ->
    fs_find (fst e) d = Some f -> 1 <= files -> len (f_data f) <= bytes ->
    evict maxF maxB (e :: rest) files bytes d
    = evict maxF maxB rest (files - 1) (bytes - len (f_data f)) (fs_remove (fst e) d).
Proof.
  intros maxF maxB e rest files bytes d f Hlim Hfind Hfiles Hsz.
  cbn [evict]. rewrite Hlim, Hfind.
  replace (files =? 0) with false by (symmetry; apply Z.eqb_neq; lia).
  replace (len (f_data f) <=? bytes) with true by (symmetry; apply Z.leb_le; lia).
  reflexivity.
Qed.

Lemma evict_bounds :
  forall maxF maxB rest files bytes d,
    0 <= maxF -> 0 <= maxB ->
    evictInv rest files bytes d ->
    dirFiles (evict maxF maxB rest files bytes d) <= maxF
    /\ dirBytes (evict maxF maxB rest files bytes d) <= maxB
    /\ fsWf (evict maxF maxB rest files bytes d).
Proof.
  intros maxF maxB rest. induction rest as [|e rest IH];
    intros files bytes d HF HB Hinv.
  - destruct Hinv as (Hwf & _ & _ & Hperm). cbn [evict].
    apply Permutation_nil in Hperm. unfold listing in Hperm.
    apply map_eq_nil in Hperm.
    destruct (dirFiles_empty d Hperm) as [H1 H2]. rewrite H1, H2.
    repeat split; try lia. exact Hwf.
  - destruct (withinLimits maxF maxB files bytes) eqn:Hlim.
    + cbn [evict]. rewrite Hlim.
      destruct Hinv as (Hwf & Hfiles & Hbytes & _).
      unfold withinLimits in Hlim. apply andb_true_iff in Hlim.
      destruct Hlim as [H1 H2]. apply Z.leb_le in H1. apply Z.leb_le in H2.
      subst. repeat split; assumption.
    + destruct (evict_step _ _ _ _ _ Hinv) as (f & Hfind & _ & _ & _ & H1 & H2 & Hnext).
      rewrite (evict_unfold _ _ _ _ _ _ _ f Hlim Hfind H1 H2).
      apply IH; assumption.
Qed.

Lemma evict_sub :
  forall maxF maxB rest files bytes d g,
    In g (evict maxF maxB rest files bytes d) -> In g d.
Proof.
  intros maxF maxB rest. induction rest as [|e rest IH];
    intros files bytes d g H; [exact H|].
  cbn [evict] in H. destruct (withinLimits maxF maxB files bytes); [exact H|].
  apply IH in H. eapply fs_remove_In. exact H.
Qed.

(** Whatever the loop takes away is no younger than what it leaves. *)
Lemma evict_oldest_first :
  forall maxF maxB rest files bytes d,
    evictInv rest files bytes d ->
    StronglySorted (keyOrdered snd) rest ->
    forall f g,
      In f (cacheFiles d) ->
      ~ In f (evict maxF maxB rest files bytes d) ->
      In g (cacheFiles (evict maxF maxB rest files bytes d)) ->
      f_mtime f <= f_mtime g.
Proof.
  intros maxF maxB rest. induction rest as [|e rest IH];
    intros files bytes d Hinv Hsorted f g Hf Hgone Hg.
  - exfalso. apply Hgone. cbn [evict]. apply cacheFiles_In in Hf. apply Hf.
  - destruct (withinLimits maxF maxB files bytes) eqn:Hlim.
    + exfalso. apply Hgone. cbn [evict]. rewrite Hlim.
      apply cacheFiles_In in Hf. apply Hf.
    + destruct (evict_step _ _ _ _ _ Hinv)
        as (f0 & Hfind & Hf0 & Hc0 & He & H1 & H2 & Hnext).
      rewrite (evict_unfold _ _ _ _ _ _ _ f0 Hlim Hfind H1 H2) in Hgone, Hg.
      inversion Hsorted as [|? ? Hsorted' Hall]; subst.
      apply cacheFiles_In in Hf. destruct Hf as [Hfd Hfc].
      cbn [fst] in *.
      destruct (list_eq_dec ascii_dec (f_path f) (f_path f0)) as [Hsame|Hdiff].
      * assert (f = f0) by (destruct Hinv as (Hwf & _); eapply wf_same_path; eassumption).
        subst f0.
        apply cacheFiles_In in Hg. destruct Hg as [Hg Hgc].
        apply evict_sub in Hg.
        assert (Hge : In (f_path g, f_mtime g) rest).
        { destruct Hnext as (_ & _ & _ & Hperm).
          eapply Permutation_in; [apply Permutation_sym, Hperm|].
          apply listing_In. exists g. repeat split; assumption. }
        rewrite Forall_forall in Hall. apply (Hall _ Hge).
      * eapply (IH _ _ _ Hnext Hsorted' f g); try assumption.
        apply cacheFiles_In. split; [|exact Hfc].
        apply fs_remove_keeps; assumption.
Qed.

Lemma capacityPhase_inv :
  forall d,
    fsWf d ->
    evictInv (std_sort (fun a b => snd a <? snd b) (listing d))
             (dirFiles d) (dirBytes d) d.
Proof.
  intros d Hwf. repeat split; try assumption.
  apply Permutation_sym, std_sort_perm.
Qed.

Lemma capacityPhase_bounds :
  forall maxF maxB d,
    0 <= maxF -> 0 <= maxB -> fsWf d ->
    dirFiles (capacityPhase maxF maxB d) <= maxF
    /\ dirBytes (capacityPhase maxF maxB d) <= maxB
    /\ fsWf (capacityPhase maxF maxB d).
Proof.
  intros maxF maxB d HF HB Hwf. unfold capacityPhase. cbv zeta.
  destruct (withinLimits maxF maxB (dirFiles d) (dirBytes d)) eqn:Hlim.
  - unfold withinLimits in Hlim. apply andb_true_iff in Hlim.
    destruct Hlim as [H1 H2]. apply Z.leb_le in H1. apply Z.leb_le in H2.
    repeat split; assumption.
  - apply evict_bounds; try assumption. apply capacityPhase_inv, Hwf.
Qed.

Lemma capacityPhase_oldest_first :
  forall maxF maxB d,
    fsWf d ->
    forall f g,
      In f (cacheFiles d) ->
      ~ In f (capacityPhase maxF maxB d) ->
      In g (cacheFiles (capacityPhase maxF maxB d)) ->
      f_mtime f <= f_mtime g.
Proof.
  intros maxF maxB d Hwf f g Hf Hgone Hg. unfold capacityPhase in *. cbv zeta in *.
  destruct (withinLimits maxF maxB (dirFiles d) (dirBytes d)).
  - exfalso. apply Hgone. apply cacheFiles_In in Hf. apply Hf.
  - eapply evict_oldest_first; try eassumption.
    + apply capacityPhase_inv, Hwf.
    + apply (std_sort_sorted snd).
Qed.

Lemma ensureFS_wf : forall env c, cacheWf c -> cacheWf (ensureFS env c).
Proof.
  intros env c (Hwf & H1 & H2 & H3). unfold ensureFS.
  repeat break_if; repeat split; cbn; try assumption.
  apply filter_paths_NoDup, Hwf.
Qed.

Lemma ensureFS_limits :
  forall env c,
    cacheMaxFiles (ensureFS env c) = cacheMaxFiles c
    /\ cacheMaxBytes (ensureFS env c) = cacheMaxBytes c
    /\ cacheMaxAgeMs (ensureFS env c) = cacheMaxAgeMs c.
Proof.
  intros env c. unfold ensureFS. repeat break_if; repeat split; reflexivity.
Qed.

Lemma ensureFS_ready : forall env c, fsReady c = true -> ensureFS env c = c.
Proof. intros env c H. unfold ensureFS. rewrite H. reflexivity. Qed.

Lemma pruneCache_bounds :
  forall env c,
    cacheWf c -> fsReady (ensureFS env c) = true ->
    dirFiles (disk (pruneCache env c)) <= cacheMaxFiles c
    /\ dirBytes (disk (pruneCache env c)) <= cacheMaxBytes c
    /\ cacheWf (pruneCache env c)
    /\ cacheMaxFiles (pruneCache env c) = cacheMaxFiles c
    /\ cacheMaxBytes (pruneCache env c) = cacheMaxBytes c
    /\ fsReady (pruneCache env c) = true.
Proof.
  intros env c Hwf Hready. unfold pruneCache. cbv zeta. rewrite Hready. cbn [negb].
  destruct (ensureFS_limits env c) as (HF & HB & HA).
  destruct (ensureFS_wf env c Hwf) as (Hd & H1 & H2 & H3).
  set (c1 := ensureFS env c) in *. clearbody c1.
  pose proof (agePhase_wf (env_time env) (cacheMaxAgeMs c1) (listing (disk c1))
                          (disk c1) Hd) as Hd1.
  destruct (capacityPhase_bounds (cacheMaxFiles c1) (cacheMaxBytes c1) _ H1 H2 Hd1)
    as (B1 & B2 & B3).
  cbn [disk set_disk cacheMaxFiles cacheMaxBytes cacheMaxAgeMs fsReady].
  rewrite <- HF, <- HB.
  repeat split; assumption.
Qed.

(** *** Cache writes *)

Lemma fs_write_wf :
  forall env p body d, fsWf d -> fsWf (fs_write env p body d).
Proof.
  intros env p body d Hwf. unfold fs_write, fsWf.
  eapply Permutation_NoDup.
  - apply Permutation_map. apply Permutation_cons_append.
  - cbn [map f_path]. constructor; [|apply (fs_remove_wf p d Hwf)].
    intros Hin. apply in_map_iff in Hin. destruct Hin as (f & Hp & Hf).
    apply fs_remove_In in Hf. destruct Hf as [_ Hne]. congruence.
Qed.

Lemma cacheWrite_wf :
  forall env url body c,
    cacheWf c ->
    cacheWf (fst (cacheWrite env url body c))
    /\ cacheMaxFiles (fst (cacheWrite env url body c)) = cacheMaxFiles c
    /\ cacheMaxBytes (fst (cacheWrite env url body c)) = cacheMaxBytes c.
Proof.
  intros env url body c Hwf. unfold cacheWrite. cbv zeta.
  destruct (ensureFS_limits env c) as (HF & HB & _).
  pose proof (ensureFS_wf env c Hwf) as Hwf1.
  set (c1 := ensureFS env c) in *. clearbody c1.
  destruct (fsReady c1) eqn:Hready; cbn [negb]; [|cbn [fst]; auto].
  destruct (env_open env); cbn [negb fst]; [|auto].
  set (c2 := set_disk c1 (fs_write env (sanitizeKey url) body (disk c1))).
  assert (Hwf2 : cacheWf c2).
  { destruct Hwf1 as (Hd & H1 & H2 & H3). subst c2.
    repeat split; cbn; try assumption. apply fs_write_wf, Hd. }
  assert (Hready2 : fsReady (ensureFS env c2) = true)
    by (rewrite ensureFS_ready; subst c2; cbn; assumption).
  destruct (pruneCache_bounds env c2 Hwf2 Hready2) as (_ & _ & Hwf3 & HF3 & HB3 & _).
  split; [exact Hwf3|]. rewrite HF3, HB3. subst c2. cbn. auto.
Qed.

Lemma cacheWrite_bounds :
  forall env url body c,
    cacheWf c -> snd (cacheWrite env url body c) = true ->
    dirFiles (disk (fst (cacheWrite env url body c))) <= cacheMaxFiles c
    /\ dirBytes (disk (fst (cacheWrite env url body c))) <= cacheMaxBytes c.
Proof.
  intros env url body c Hwf. unfold cacheWrite. cbv zeta.
  destruct (ensureFS_limits env c) as (HF & HB & _).
  pose proof (ensureFS_wf env c Hwf) as Hwf1.
  set (c1 := ensureFS env c) in *. clearbody c1.
  destruct (fsReady c1) eqn:Hready; cbn [negb]; [|discriminate].
  destruct (env_open env); cbn [negb fst snd]; [|discriminate].
  intros _.
  set (c2 := set_disk c1 (fs_write env (sanitizeKey url) body (disk c1))).
  assert (Hwf2 : cacheWf c2).
  { destruct Hwf1 as (Hd & H1 & H2 & H3). subst c2.
    repeat split; cbn; try assumption. apply fs_write_wf, Hd. }
  assert (Hready2 : fsReady (ensureFS env c2) = true)
    by (rewrite ensureFS_ready; subst c2; cbn; assumption).
  destruct (pruneCache_bounds env c2 Hwf2 Hready2) as (B1 & B2 & _).
  rewrite <- HF, <- HB. exact (conj B1 B2).
Qed.

Lemma writeAll_wf :
  forall ws c,
    cacheWf c ->
    cacheWf (writeAll c ws)
    /\ cacheMaxFiles (writeAll c ws) = cacheMaxFiles c
    /\ cacheMaxBytes (writeAll c ws) = cacheMaxBytes c.
Proof.
  unfold writeAll. induction ws as [|w ws IH]; intros c Hwf; [auto|].
  cbn [fold_left].
  destruct (cacheWrite_wf (fst (fst w)) (snd (fst w)) (snd w) c Hwf) as (H1 & H2 & H3).
  destruct (IH _ H1) as (I1 & I2 & I3).
  split; [exact I1|]. rewrite I2, I3. auto.
Qed.

(** *** The row loop *)

Lemma loadRows_length :
  forall cols rankIdx nameIdx rowsA pushed acc,
    (length acc < 1000)%nat ->
    length (loadRows cols rankIdx nameIdx rowsA pushed acc)
    = Nat.min (length acc + length rowsA) 1000.
Proof.
  intros cols rankIdx nameIdx rowsA.
  induction rowsA as [|rv more IH]; intros pushed acc Hacc.
  - cbn [loadRows length]. lia.
  - cbn [loadRows]. change (0 <? MAX_ROWS_PER_BOARD) with false. cbn [andb].
    rewrite length_app. cbn [length].
    destruct (1000 <=? Z.of_nat (length acc + 1)) eqn:Hcap.
    + apply Z.leb_le in Hcap. rewrite length_app. cbn [length]. lia.
    + apply Z.leb_gt in Hcap. rewrite IH; rewrite length_app; cbn [length]; lia.
Qed.

(* ================================================================== *)
(** ** C1: an entry whose name is the query                             *)
(* ================================================================== *)

Lemma tokenize_lc : forall a b, lc a = lc b -> tokenize a = tokenize b.
Proof. intros a b H. unfold tokenize. rewrite H. reflexivity. Qed.

Lemma normKey_lc : forall a b, lc a = lc b -> normKey a = normKey b.
Proof. intros a b H. unfold normKey. rewrite (tokenize_lc a b H). reflexivity. Qed.

Lemma gate_exact_name :
  forall q e,
    lc (e_name e) = lc q -> isEmpty (normKey q) = false ->
    gateOpen (tokenize q) (normKey q) e = true.
Proof.
  intros q e Hlc Hnorm. unfold gateOpen. cbv zeta.
  rewrite (tokenize_lc _ _ Hlc).
  unfold normKey at 1 in Hnorm.
  destruct (tokenize q) as [|t ts] eqn:Ht; [discriminate|].
  cbn [existsb contains]. rewrite streq_refl. reflexivity.
Qed.

Lemma tokenOverlapScore_le : forall q c, tokenOverlapScore q c <= 60.
Proof. intros q c. unfold tokenOverlapScore. destruct q, c; lia. Qed.

Lemma firstTokenBoost_le : forall q c, firstTokenBoost q c <= 25.
Proof.
  intros q c. unfold firstTokenBoost. destruct q, c; try lia. break_if; lia.
Qed.

Lemma bigramJaccardScore_le : forall a b, bigramJaccardScore a b <= 70.
Proof.
  intros a b. unfold bigramJaccardScore.
  destruct a, b; try lia. repeat break_if; lia.
Qed.

Lemma containsBonus_le : forall a b, containsBonus a b <= 25.
Proof.
  intros a b. unfold containsBonus.
  destruct a, b; try lia. repeat break_if; lia.
Qed.

Lemma tokenJaccardPenaltyShort_le : forall n, tokenJaccardPenaltyShort n <= 0.
Proof. intros n. unfold tokenJaccardPenaltyShort. break_if; lia. Qed.

Lemma compositeScore_le : forall qToks n e, compositeScore qToks n e <= 85.
Proof.
  intros qToks n e. unfold compositeScore. cbv zeta.
  pose proof (tokenOverlapScore_le qToks (tokenize (e_name e))).
  pose proof (tokenOverlapScore_le qToks (tokenize (e_slug e))).
  pose proof (firstTokenBoost_le qToks (tokenize (e_name e))).
  pose proof (firstTokenBoost_le qToks (tokenize (e_slug e))).
  pose proof (bigramJaccardScore_le n (normKey (e_name e))).
  pose proof (bigramJaccardScore_le n (normKey (e_slug e))).
  pose proof (containsBonus_le n (normKey (e_name e))).
  pose proof (containsBonus_le n (normKey (e_slug e))).
  pose proof (containsBonus_le (normKey (e_name e)) n).
  pose proof (containsBonus_le (normKey (e_slug e)) n).
  pose proof (tokenJaccardPenaltyShort_le (normKey (e_name e))).
  repeat (break_if || break_match); lia.
Qed.

Lemma scoreEntry_le : forall q e, fst (scoreEntry q e) <= 100.
Proof.
  intros q e. unfold scoreEntry, tierScore. cbv zeta.
  pose proof (compositeScore_le (tokenize q) (normKey q) e).
  repeat break_if; cbn [fst]; lia.
Qed.

Lemma scoreEntry_exact_name :
  forall q e,
    isEmpty (normKey q) = false -> lc (e_name e) = lc q ->
    scoreEntry q e = (100, str "exact name").
Proof.
  intros q e Hnorm Hlc. unfold scoreEntry. cbv zeta.
  rewrite (gate_exact_name q e Hlc Hnorm).
  unfold tierScore. rewrite Hlc, streq_refl. reflexivity.
Qed.

(** Entries that score below 100 keep the holder's score below 100. *)
Lemma pass1_below :
  forall q es acc,
    b_score (fst acc) < 100 ->
    (forall e', In e' es -> fst (scoreEntry q e') <> 100) ->
    b_score (fst (fold_left (pass1_step q) es acc)) < 100.
Proof.
  intros q es. induction es as [|e' es IH]; intros acc Hacc Hes; [exact Hacc|].
  cbn [fold_left]. apply IH.
  - unfold pass1_step. destruct acc as [best diags].
    pose proof (scoreEntry_le q e') as Hle.
    assert (Hne : fst (scoreEntry q e') <> 100) by (apply Hes; left; reflexivity).
    destruct (scoreEntry q e') as [sc reason]. cbn [fst] in *.
    break_if; cbn [fst b_score]; lia.
  - intros e'' Hin. apply Hes. right. exact Hin.
Qed.

(** Entries that score below 100 do not replace a holder with score 100
    and a title id. *)
Lemma pass1_keeps :
  forall q es acc,
    b_score (fst acc) = 100 -> isEmpty (b_id (fst acc)) = false ->
    (forall e', In e' es -> fst (scoreEntry q e') <> 100) ->
    fst (fold_left (pass1_step q) es acc) = fst acc.
Proof.
  intros q es. induction es as [|e' es IH]; intros acc Hsc Hid Hes; [reflexivity|].
  cbn [fold_left].
  assert (Hstep : fst (pass1_step q acc e') = fst acc).
  { unfold pass1_step. destruct acc as [best diags]. cbn [fst] in *.
    pose proof (scoreEntry_le q e') as Hle.
    assert (Hne : fst (scoreEntry q e') <> 100) by (apply Hes; left; reflexivity).
    destruct (scoreEntry q e') as [sc reason]. cbn [fst] in *.
    unfold isEmpty in Hid. rewrite Hid. cbn [orb].
    unfold better. rewrite Hsc.
    replace (100 <? sc) with false by (symmetry; apply Z.ltb_ge; lia).
    replace (sc <? 100) with true by (symmetry; apply Z.ltb_lt; lia).
    rewrite andb_false_r. reflexivity. }
  rewrite IH; rewrite ?Hstep; try assumption.
  - reflexivity.
  - intros e'' Hin. apply Hes. right. exact Hin.
Qed.

(** C1, as stated, fails in two ways.  An entry with an empty title id
    scores 100 by its name and is still passed over for a later entry that
    scores 95; and for a query that normalizes to nothing the entry of the
    same name scores 0, and resolution stops before the index is read. *)
Lemma C1_exact_name_not_selected :
  (let q := str "Halo" in
   let e1 := mkEntry [] (str "Halo") [] [] in
   let e2 := mkEntry (str "B") (str "Halo X") [] (str "halo") in
   indexEntries
     (jsonText "[{'title_id':'','name':'Halo'},{'title_id':'B','name':'Halo X','slug':'halo'}]")
   = [e1; e2]
   /\ lc (e_name e1) = lc q
   /\ fst (scoreEntry q e1) = 100
   /\ fst (scoreEntry q e2) = 95
   /\ fst (pass1 q [e1; e2]) = selected e2 95 (str "exact slug"))
  /\ (let q := str "!!!" in
      let e := mkEntry (str "A") (str "!!!") [] [] in
      lc (e_name e) = lc q
      /\ fst (scoreEntry q e) = 0
      /\ snd (resolveTitlePool (serving halo_body None 1700000000 1000) (rooted q))
         = false).
Proof. vm_compute. repeat split; reflexivity. Qed.

(** C1, amended: for a query whose normalized key is not empty, an entry
    whose name equals the query up to case scores exactly 100; if moreover
    its title id is not empty and no other entry of the index scores 100,
    pass 1 ends with that entry as the best match. *)
Theorem C1_exact_name_amended :
  forall q pre e post,
    isEmpty (normKey q) = false ->
    lc (e_name e) = lc q ->
    scoreEntry q e = (100, str "exact name")
    /\ (isEmpty (e_id e) = false ->
        (forall e', In e' (pre ++ post) -> fst (scoreEntry q e') <> 100) ->
        fst (pass1 q (pre ++ e :: post)) = selected e 100 (str "exact name")).
Proof.
  intros q pre e post Hnorm Hlc.
  pose proof (scoreEntry_exact_name q e Hnorm Hlc) as Hscore.
  split; [exact Hscore|].
  intros Hid Hothers.
  unfold pass1. rewrite fold_left_app. cbn [fold_left].
  assert (Hpre : b_score (fst (fold_left (pass1_step q) pre (best0, []))) < 100).
  { apply pass1_below; [cbn; lia|].
    intros e' Hin. apply Hothers, in_or_app. left. exact Hin. }
  set (acc := fold_left (pass1_step q) pre (best0, [])) in *. clearbody acc.
  assert (Hstep : fst (pass1_step q acc e) = selected e 100 (str "exact name")).
  { unfold pass1_step. destruct acc as [best diags]. cbn [fst] in Hpre.
    rewrite Hscore.
    replace (MIN_ACCEPT_SCORE <=? 100) with true by reflexivity.
    unfold better.
    replace (b_score best <? 100) with true by (symmetry; apply Z.ltb_lt; lia).
    rewrite orb_true_r. reflexivity. }
  rewrite pass1_keeps; rewrite ?Hstep; try reflexivity; try assumption.
  intros e' Hin. apply Hothers, in_or_app. right. exact Hin.
Qed.

Lemma C1_exact_name_amended_witness :
  let q := str "halo 2 (pal)" in
  fst (pass1 q halo_index)
  = selected (mkEntry (str "BB") (str "Halo 2 (PAL)") [] []) 100 (str "exact name").
Proof.
  intros q.
  apply (C1_exact_name_amended q
           [mkEntry (str "AA") (str "Halo 2 (NTSC)") [] []]
           (mkEntry (str "BB") (str "Halo 2 (PAL)") [] []) []).
  - vm_compute. reflexivity.
  - vm_compute. reflexivity.
  - vm_compute. reflexivity.
  - intros e' [He|[]]. subst e'. vm_compute. discriminate.
Defined.

(* ================================================================== *)
(** ** C2: the Halo 2 scenario                                          *)
(* ================================================================== *)

Lemma halo_body_entries : indexEntries halo_body = halo_index.
Proof. vm_compute. reflexivity. Qed.

Lemma halo2_scores :
  map (fun e => fst (scoreEntry (str "Halo 2") e)) halo_index = [49; 49].
Proof. vm_compute. reflexivity. Qed.

(** C2, as stated, fails: with the query "Halo 2" and the two-entry index,
    resolution returns false and the title pool stays empty. *)
Lemma C2_halo2_not_resolved :
  let r := resolveTitlePool (serving halo_body None 1700000000 1000)
                            (rooted (str "Halo 2")) in
  snd r = false /\ titlePool (res (fst r)) = [] /\ resolved (res (fst r)) = false.
Proof. vm_compute. repeat split; reflexivity. Qed.

(** C2, amended: against that index both entries score 49 for the query
    "Halo 2", below MIN_ACCEPT_SCORE = 65, so resolution fails and the pool
    is left as it was; for the query "Halo 2 (NTSC)", the name of one of the
    variants, resolution succeeds with the pool [AA; BB]. *)
Theorem C2_halo2_amended :
  forall env s c body,
    isEmpty (WORK_ROOT s) = false ->
    fetchThroughCache env (WORK_ROOT s ++ str "/data/search.json") TTL_SEARCH_MS
                      (cache s) = (c, Some body) ->
    indexEntries body = halo_index ->
    (curApp s = str "Halo 2" ->
       map (fun e => fst (scoreEntry (curApp s) e)) halo_index = [49; 49]
       /\ snd (resolveTitlePool env s) = false
       /\ titlePool (res (fst (resolveTitlePool env s))) = titlePool (res s)
       /\ resolved (res (fst (resolveTitlePool env s))) = resolved (res s))
    /\ (curApp s = str "Halo 2 (NTSC)" ->
       snd (resolveTitlePool env s) = true
       /\ titlePool (res (fst (resolveTitlePool env s))) = [str "AA"; str "BB"]
       /\ resolved (res (fst (resolveTitlePool env s))) = true).
Proof.
  intros env s c body Hroot Hfetch Hidx.
  split; intros Hq.
  - split; [rewrite Hq; apply halo2_scores|].
    unfold resolveTitlePool.
    rewrite Hroot, andb_false_r.
    destruct s as [base root app ld lf pr md rs ro ca].
    cbn [set_res WORK_ROOT curApp cache res lastQueryNorm] in *.
    subst app.
    change (isEmpty (str "Halo 2")) with false.
    replace (isEmpty (normKey (str "Halo 2"))) with false by (vm_compute; reflexivity).
    rewrite Hfetch, Hidx.
    replace (pass1 (str "Halo 2") halo_index) with (best0, [mkDiag (str "AA") (str "Halo 2 (NTSC)") [] 49 []; mkDiag (str "BB") (str "Halo 2 (PAL)") [] 49 []])
      by (vm_compute; reflexivity).
    cbn. destruct rs; auto.
  - unfold resolveTitlePool.
    rewrite Hroot, andb_false_r.
    destruct s as [base root app ld lf pr md rs ro ca].
    cbn [set_res WORK_ROOT curApp cache res lastQueryNorm] in *.
    subst app.
    change (isEmpty (str "Halo 2 (NTSC)")) with false.
    replace (isEmpty (normKey (str "Halo 2 (NTSC)"))) with false by (vm_compute; reflexivity).
    rewrite Hfetch, Hidx.
    remember (pass1 (str "Halo 2 (NTSC)") halo_index) as p eqn:Hp.
    vm_compute in Hp. subst p.
    cbn. auto.
Qed.

Lemma C2_halo2_amended_witness :
  let env := serving halo_body None 1700000000 1000 in
  (snd (resolveTitlePool env (rooted (str "Halo 2"))) = false)
  /\ (snd (resolveTitlePool env (rooted (str "Halo 2 (NTSC)"))) = true
      /\ titlePool (res (fst (resolveTitlePool env (rooted (str "Halo 2 (NTSC)")))))
         = [str "AA"; str "BB"]).
Proof.
  intros env. split.
  - destruct (C2_halo2_amended env (rooted (str "Halo 2"))
                (fst (fetchThroughCache env
                        (WORK_ROOT (rooted (str "Halo 2")) ++ str "/data/search.json")
                        TTL_SEARCH_MS (cache (rooted (str "Halo 2")))))
                halo_body) as [H _].
    + vm_compute; reflexivity.
    + vm_compute; reflexivity.
    + vm_compute; reflexivity.
    + destruct (H eq_refl) as (_ & H2 & _). exact H2.
  - destruct (C2_halo2_amended env (rooted (str "Halo 2 (NTSC)"))
                (fst (fetchThroughCache env
                        (WORK_ROOT (rooted (str "Halo 2 (NTSC)"))
                         ++ str "/data/search.json")
                        TTL_SEARCH_MS (cache (rooted (str "Halo 2 (NTSC)")))))
                halo_body) as [_ H].
    + vm_compute; reflexivity.
    + vm_compute; reflexivity.
    + vm_compute; reflexivity.
    + destruct (H eq_refl) as (H1 & H2 & _). split; assumption.
Defined.

(* ================================================================== *)
(** ** C3: the rank of a loaded row                                     *)
(* ================================================================== *)

(** Keyed rows and scalar rows always carry a rank: where the source gives
    none, the position in the board is written in. *)
Lemma rank_of_object_or_scalar_row :
  forall cols rankIdx nameIdx pos rv,
    (forall arr, rv <> JArr arr) ->
    rank (buildRow cols rankIdx nameIdx pos rv) <> [].
Proof.
  intros cols rankIdx nameIdx pos rv Hshape.
  assert (Hf : fst (fst (rowFields cols rankIdx nameIdx pos rv)) <> []).
  { destruct rv; try (cbn; apply String_of_int_nonempty).
    - exfalso. eapply Hshape. reflexivity.
    - cbn [rowFields fst].
      repeat break_match; try discriminate; apply String_of_int_nonempty. }
  unfold buildRow.
  destruct (rowFields cols rankIdx nameIdx pos rv) as [[rk nm] raw].
  cbn [fst] in Hf.
  repeat break_match; cbn; assumption.
Qed.

(** C3, at the failing input: a positional row of a board that declares a
    rank column keeps an empty rank when its rank cell is null (or empty,
    or missing); the load succeeds and installs the row with no rank, where
    the claim has the 1-based position written in. *)
Theorem C3_array_row_without_rank :
  let r := loadGameModel (serving [] (Some doc_array_row) 1700000000 1000)
                         (str "AA") between_variants in
  snd r = true
  /\ boards (model (fst r))
     = [mkBoard (str "Top") [mkRow [] (str "Bob") (str "500") []]].
Proof. vm_compute. split; reflexivity. Qed.

(* ================================================================== *)
(** ** C4: a failed load                                                *)
(* ================================================================== *)

(** C4, as stated, fails: a document that parses but has no scoreboards
    makes the load fail after the previous model has been discarded. *)
Lemma C4_failed_load_discards_model :
  let s := between_variants in
  let r := loadGameModel (serving [] (Some doc_no_boards) 1700000000 1000)
                         (str "AA") s in
  snd r = false
  /\ boards (model s) <> []
  /\ model (fst r) = mkModel (str "New") [] (-1)
  /\ model (fst r) <> model s.
Proof. vm_compute. repeat split; try reflexivity; discriminate. Qed.

Lemma loadBoard_usable :
  forall v, usableBoard v = match loadBoard v with Some _ => true | None => false end.
Proof.
  intros v. unfold usableBoard, loadBoard. destruct v; try reflexivity.
  destruct (member (JObj m) (str "rows")) as [| | | |rowsA|]; try reflexivity.
  destruct rowsA as [|rv more]; [reflexivity|].
  match goal with
  | |- context [loadRows ?c ?r ?n ?a ?p ?acc] =>
      pose proof (loadRows_length c r n a p acc) as Hlen;
      destruct (loadRows c r n a p acc) as [|r0 rs]
  end; [|reflexivity].
  exfalso. cbn [length] in Hlen. specialize (Hlen ltac:(lia)). lia.
Qed.

Lemma loadBoards_usable :
  forall sbs,
    existsb usableBoard sbs
    = match loadBoards sbs with [] => false | _ :: _ => true end.
Proof.
  unfold loadBoards. induction sbs as [|v sbs IH]; [reflexivity|].
  cbn [existsb map keepSome]. rewrite loadBoard_usable.
  destruct (loadBoard v); [reflexivity|exact IH].
Qed.

(** C4, amended: the load returns failure exactly when the fetch or the
    parse fails, or when the parsed document has no usable board: no
    [scoreboards] array, or no element of it that is an object with a
    non-empty [rows] array.  A load that fails at the fetch or at the parse
    leaves boards, board index and title as they were; a load that fails on
    a parsed document has discarded the previous model: no board, index -1,
    and the title of the document.  In every failing case the [loaded]
    flag and the state outside the model and the cache are as before. *)
Theorem C4_failed_load_amended :
  forall env titleId s,
    match parsedDoc env titleId s with
    | None =>
        snd (loadGameModel env titleId s) = false
        /\ model (fst (loadGameModel env titleId s)) = model s
        /\ outsideModelKept s (fst (loadGameModel env titleId s))
    | Some doc =>
        if existsb usableBoard (scoreboardsOf doc)
        then snd (loadGameModel env titleId s) = true
        else
          snd (loadGameModel env titleId s) = false
          /\ model (fst (loadGameModel env titleId s))
             = mkModel (j2s (member doc (str "game_title"))) [] (-1)
          /\ outsideModelKept s (fst (loadGameModel env titleId s))
    end.
Proof.
  intros env titleId s.
  unfold parsedDoc, fetchedBody, loadGameModel, outsideModelKept, scoreboardsOf.
  destruct (fetchThroughCache env
              (WORK_ROOT s ++ str "/data/by_id/" ++ titleId ++ str ".json")
              TTL_BYID_MS (cache s)) as [c fetched].
  cbn [snd set_cache WORK_ROOT].
  destruct fetched as [body|]; [|cbn; repeat split; reflexivity].
  destruct (env_parse env body) as [doc|]; [|cbn; repeat split; reflexivity].
  destruct (member doc (str "scoreboards")) as [| | | |sbs|];
    try (cbn; repeat split; reflexivity).
  rewrite loadBoards_usable.
  destruct (loadBoards sbs) as [|b bs]; cbn; repeat split; reflexivity.
Qed.

Lemma C4_failed_load_amended_witness :
  snd (loadGameModel (serving [] (Some doc_no_boards) 1700000000 1000)
                     (str "AA") between_variants) = false
  /\ model (fst (loadGameModel (serving [] (Some doc_no_boards) 1700000000 1000)
                               (str "AA") between_variants))
     = mkModel (str "New") [] (-1)
  /\ loaded (fst (loadGameModel (serving [] (Some doc_no_boards) 1700000000 1000)
                                (str "AA") between_variants))
     = loaded between_variants.
Proof.
  pose proof (C4_failed_load_amended
                (serving [] (Some doc_no_boards) 1700000000 1000)
                (str "AA") between_variants) as H.
  replace (parsedDoc (serving [] (Some doc_no_boards) 1700000000 1000)
                     (str "AA") between_variants)
    with (Some doc_no_boards) in H by (vm_compute; reflexivity).
  change (existsb usableBoard (scoreboardsOf doc_no_boards)) with false in H.
  destruct H as (H1 & H2 & H3 & _).
  split; [exact H1|]. split; [exact H2|exact H3].
Defined.

(** A load that fails before the document is parsed changes nothing but the cache. *)
Lemma load_failure_before_parse :
  forall env titleId s,
    parsedDoc env titleId s = None ->
    snd (loadGameModel env titleId s) = false
    /\ model (fst (loadGameModel env titleId s)) = model s.
Proof.
  intros env titleId s.
  unfold parsedDoc, fetchedBody, loadGameModel.
  destruct (fetchThroughCache env
              (WORK_ROOT s ++ str "/data/by_id/" ++ titleId ++ str ".json")
              TTL_BYID_MS (cache s)) as [c fetched].
  cbn [snd].
  destruct fetched as [body|]; [|intros _; split; reflexivity].
  intros Hp. rewrite Hp. split; reflexivity.
Qed.

(* ================================================================== *)
(** ** C5: the probe state and the confirmed root                       *)
(* ================================================================== *)

Lemma streq_neq : forall a b, a <> b -> streq a b = false.
Proof.
  intros a b Hne. destruct (streq a b) eqn:H; [|reflexivity].
  exfalso. apply Hne, streq_eq, H.
Qed.

Lemma onAppName_resets_probe :
  forall env app s, argOf app <> curApp s -> probeFresh (onAppName env app s).
Proof.
  intros env app s Hne. unfold onAppName. fold (argOf app).
  rewrite (streq_neq _ _ Hne).
  set (s1 := resetRuntime (set_curApp s (argOf app))).
  assert (H1 : probeFresh s1) by (unfold probeFresh; cbn; auto).
  destruct (isEmpty (curApp s1)); [exact H1|].
  destruct (env_net env); [|exact H1].
  unfold startProbingIfNeeded.
  break_if; [exact H1|].
  unfold probeFresh. cbn. auto.
Qed.

Lemma maybeResolveAndLoad_rooted :
  forall env s,
    WORK_ROOT s <> [] ->
    WORK_ROOT (maybeResolveAndLoad env s) = WORK_ROOT s
    /\ probe (maybeResolveAndLoad env s) = probe s.
Proof.
  intros env s Hroot. unfold maybeResolveAndLoad.
  break_if; [split; reflexivity|].
  cbn [WORK_ROOT set_lastFetchMs].
  apply isEmpty_false in Hroot. rewrite Hroot.
  set (s1 := set_lastFetchMs s (ms_fetch env)).
  change (WORK_ROOT s) with (WORK_ROOT s1). change (probe s) with (probe s1).
  clearbody s1.
  break_if.
  { destruct (resolve_frame env s1) as (_ & _ & Hw & Hp & _). split; assumption. }
  break_if; [|split; reflexivity].
  break_if; [split; reflexivity|].
  match goal with
  | |- context [loadGameModel env ?id s1] =>
      destruct (load_frame env id s1) as (Hw & Hp & _)
  end.
  split; assumption.
Qed.

Lemma tick_rooted :
  forall env s,
    WORK_ROOT s <> [] ->
    WORK_ROOT (tick env s) = WORK_ROOT s /\ probe (tick env s) = probe s.
Proof.
  intros env s Hroot. unfold tick.
  break_if; [split; reflexivity|].
  destruct (maybeResolveAndLoad_rooted env s Hroot) as [Hw Hp].
  rewrite <- Hw, <- Hp.
  set (s1 := maybeResolveAndLoad env s). clearbody s1.
  break_if; [split; reflexivity|].
  break_if; [split; reflexivity|].
  cbv zeta.
  destruct (advanceScroll_frame (ms_tick env) s1) as (_ & _ & Hw2 & Hp2 & _).
  rewrite <- Hw2, <- Hp2.
  set (s2 := advanceScroll (ms_tick env) s1). clearbody s2.
  repeat break_if; try (split; reflexivity).
  destruct (rotateBoard_frame env (ms_tick env) s2) as (Hw3 & Hp3 & _).
  split; assumption.
Qed.

Lemma run_keeps_root :
  forall c s, WORK_ROOT s <> [] -> WORK_ROOT (run s c) = WORK_ROOT s.
Proof.
  intros c s Hroot. destruct c; cbn [run]; try reflexivity.
  - unfold begin. break_if; [|reflexivity].
    destruct (startProbing_frame (resetRuntime s)) as (_ & _ & Hw & _).
    exact Hw.
  - unfold onAppName. repeat break_if; try reflexivity.
    match goal with
    | |- WORK_ROOT (startProbingIfNeeded ?x) = _ =>
        destruct (startProbing_frame x) as (_ & _ & Hw & _)
    end.
    exact Hw.
  - apply tick_rooted, Hroot.
  - unfold flushCacheNow. break_if; reflexivity.
Qed.

(** C5, as stated, fails: [setServerBase] on an engine in the middle of a
    sweep changes the base and leaves candidate list, cursor and next probe
    time as they are. *)
Lemma C5_setServerBase_keeps_probe_state :
  let s := mid_sweep in
  let s' := setServerBase (str "http://other/xbox") s in
  BASE s' <> BASE s
  /\ probe s' = probe s
  /\ probeIdx (probe s') = 1
  /\ nextProbeAt (probe s') = 1200
  /\ ~ probeFresh s'.
Proof.
  cbv zeta. repeat split; try (vm_compute; congruence).
  intros (H & _). vm_compute in H. discriminate.
Qed.

(** C5, amended: the probe state is reset whenever [onAppName] changes the
    query; [setServerBase] replaces the base list and nothing else (the new
    list is read when the candidates are next built).  A confirmed
    [WORK_ROOT] is not changed by any call, state resets included, and
    once it is confirmed no probe is attempted: [stepProbeWorkRoot] returns
    at once and [tick] leaves the probe state alone. *)
Theorem C5_probe_state_amended :
  (forall env app s, argOf app <> curApp s -> probeFresh (onAppName env app s))
  /\ (forall base s,
         BASE (setServerBase base s) = base
         /\ probe (setServerBase base s) = probe s
         /\ WORK_ROOT (setServerBase base s) = WORK_ROOT s)
  /\ (forall calls s, WORK_ROOT s <> [] -> WORK_ROOT (runAll s calls) = WORK_ROOT s)
  /\ (forall env s,
         WORK_ROOT s <> [] ->
         stepProbeWorkRoot env s = (s, true) /\ probe (tick env s) = probe s).
Proof.
  split; [exact onAppName_resets_probe|].
  split; [intros base s; cbn; repeat split; reflexivity|].
  split.
  - unfold runAll. induction calls as [|c calls IH]; intros s Hroot; [reflexivity|].
    cbn [fold_left]. rewrite IH; [apply run_keeps_root, Hroot|].
    rewrite run_keeps_root; assumption.
  - intros env s Hroot. split; [|apply tick_rooted, Hroot].
    unfold stepProbeWorkRoot. apply isEmpty_false in Hroot. rewrite Hroot.
    reflexivity.
Qed.

Lemma C5_probe_state_amended_witness :
  probeFresh (onAppName (unanswered 1700000000 5000) (Some (str "Forza")) mid_sweep)
  /\ WORK_ROOT (runAll (rooted (str "Halo 2"))
                       [CallOnAppName (unanswered 1700000000 5000) (Some (str "Forza"));
                        CallTick (unanswered 1700000000 5000)])
     = str "http://host/xbox"
  /\ stepProbeWorkRoot (unanswered 1700000000 5000) (rooted (str "Halo 2"))
     = (rooted (str "Halo 2"), true).
Proof.
  destruct C5_probe_state_amended as (Hq & _ & Hroot & Hstep).
  split; [|split].
  - apply Hq. vm_compute. discriminate.
  - rewrite Hroot; [reflexivity|]. vm_compute. discriminate.
  - apply Hstep. vm_compute. discriminate.
Defined.

(* ================================================================== *)
(** ** C6: normalizing twice                                            *)
(* ================================================================== *)

Lemma tokenChar_not_space : forall c, tokenChar c = true -> is_space c = false.
Proof.
  intros c H. unfold tokenChar, is_lower, is_digit in H. unfold is_space.
  apply Nat.eqb_neq. apply orb_true_iff in H.
  destruct H as [H|H]; apply andb_true_iff in H; destruct H as [H1 H2];
    apply Nat.leb_le in H1; apply Nat.leb_le in H2; lia.
Qed.

Lemma tokenChar_not_upper : forall c, tokenChar c = true -> is_upper c = false.
Proof.
  intros c H. unfold tokenChar, is_lower, is_digit in H. unfold is_upper.
  apply andb_false_iff. apply orb_true_iff in H.
  destruct H as [H|H]; apply andb_true_iff in H; destruct H as [H1 H2];
    apply Nat.leb_le in H1; apply Nat.leb_le in H2;
    (left; apply Nat.leb_gt; lia) || (right; apply Nat.leb_gt; lia).
Qed.

Lemma space_not_upper : forall c, is_space c = true -> is_upper c = false.
Proof.
  intros c H. unfold is_space in H. apply Nat.eqb_eq in H.
  unfold is_upper. rewrite H. reflexivity.
Qed.

(** *** What comes out of the folding and squeezing steps *)

Lemma foldChar_folded : forall c, Forall folded (foldChar c).
Proof.
  intros c. unfold foldChar.
  set (c' := if is_upper c then ascii_of_nat (code c - 65 + 97) else c).
  destruct (is_lower c' || is_digit c' || is_space c') eqn:Hk.
  - constructor; [|constructor].
    apply orb_true_iff in Hk. destruct Hk as [Hk|Hk]; [left|right]; assumption.
  - destruct (Ascii.eqb c' "&"%char).
    + cbn. repeat (apply Forall_cons;
                   [first [left; reflexivity | right; reflexivity]|]).
      constructor.
    + apply Forall_cons; [right; reflexivity|constructor].
Qed.

Lemma asciiFold_folded : forall s, Forall folded (asciiFoldKeepSpace s).
Proof.
  induction s as [|c s IH]; [constructor|].
  unfold asciiFoldKeepSpace. cbn [flat_map].
  apply Forall_app. split; [apply foldChar_folded|exact IH].
Qed.

Lemma collapse_Forall :
  forall (P : ascii -> Prop) s b, Forall P s -> Forall P (collapse b s).
Proof.
  intros P s. induction s as [|c s IH]; intros b Hs; [constructor|].
  inversion Hs; subst. cbn [collapse].
  repeat break_if; try constructor; auto.
Qed.

Lemma firstn_Forall :
  forall A (P : A -> Prop) n l, Forall P l -> Forall P (firstn n l).
Proof.
  intros A P n. induction n as [|n IH]; intros l Hl; [constructor|].
  destruct l; [constructor|]. inversion Hl; subst. cbn. constructor; auto.
Qed.

Lemma skipn_Forall :
  forall A (P : A -> Prop) n l, Forall P l -> Forall P (skipn n l).
Proof.
  intros A P n. induction n as [|n IH]; intros l Hl; [exact Hl|].
  destruct l; [constructor|]. inversion Hl; subst. cbn. auto.
Qed.

Lemma substring_Forall :
  forall (P : ascii -> Prop) s a b, Forall P s -> Forall P (substring s a b).
Proof.
  intros P s a b Hs. unfold substring.
  destruct (if b <? a then (b, a) else (a, b)) as [l r].
  break_if; [constructor|].
  apply firstn_Forall, skipn_Forall, Hs.
Qed.

Lemma squeezeSpace_Forall :
  forall (P : ascii -> Prop) s, Forall P s -> Forall P (squeezeSpace s).
Proof.
  intros P s Hs. unfold squeezeSpace. cbv zeta.
  break_if; [|apply substring_Forall]; apply collapse_Forall, Hs.
Qed.

(** *** Tokens of the split *)

Lemma splitAux_tokens :
  forall (P : ascii -> Prop) sep s,
    Forall P s ->
    Forall (fun c => P c /\ sep c = false) (fst (splitAux sep s))
    /\ Forall (fun t => t <> [] /\ Forall (fun c => P c /\ sep c = false) t)
              (snd (splitAux sep s)).
Proof.
  intros P sep s. induction s as [|c s IH]; intros Hs; [split; constructor|].
  inversion Hs; subst. destruct (IH H2) as [Hcur Hrest].
  cbn [splitAux]. destruct (splitAux sep s) as [cur rest]. cbn [fst snd] in *.
  destruct (sep c) eqn:Hc; cbn [fst snd].
  - split; [constructor|].
    destruct cur as [|x cur]; cbn [consNE]; [exact Hrest|].
    constructor; [split; [discriminate|exact Hcur]|exact Hrest].
  - split; [constructor; auto|exact Hrest].
Qed.

Lemma splitOn_tokens :
  forall (P : ascii -> Prop) sep s,
    Forall P s ->
    Forall (fun t => t <> [] /\ Forall (fun c => P c /\ sep c = false) t)
           (splitOn sep s).
Proof.
  intros P sep s Hs. unfold splitOn.
  destruct (splitAux_tokens P sep s Hs) as [Hcur Hrest].
  destruct (splitAux sep s) as [cur rest]. cbn [fst snd] in *.
  destruct cur as [|x cur]; cbn [consNE]; [exact Hrest|].
  constructor; [split; [discriminate|exact Hcur]|exact Hrest].
Qed.

(** *** Roman numerals *)

Lemma romanize_normal :
  forall t,
    t <> [] -> Forall (fun c => tokenChar c = true) t -> normalToken (romanize t).
Proof.
  intros t Hne Hch. unfold romanize.
  destruct (0 <? romanToInt t) eqn:Hr.
  - unfold romanToInt in *.
    repeat break_if; try discriminate;
      (split; [discriminate|split; [repeat constructor|reflexivity]]).
  - unfold normalToken. repeat split; try assumption.
    unfold romanize. rewrite Hr. reflexivity.
Qed.

Lemma tokenize_normal : forall x, Forall normalToken (tokenize x).
Proof.
  intros x. unfold tokenize. cbv zeta.
  match goal with
  | |- Forall _ (map romanize (splitOn is_space (squeezeSpace (asciiFoldKeepSpace ?s)))) =>
      pose proof (splitOn_tokens folded is_space _
                    (squeezeSpace_Forall folded _ (asciiFold_folded s))) as H
  end.
  apply Forall_map. eapply Forall_impl; [|exact H].
  intros t [Hne Hch]. apply romanize_normal; [exact Hne|].
  eapply Forall_impl; [|exact Hch].
  intros c [[Hc|Hc] Hs]; [exact Hc|congruence].
Qed.

(** *** A string of normal tokens passes through every step unchanged *)

Lemma joinTokens_cons :
  forall t toks,
    joinTokens (t :: toks)
    = match toks with [] => t | _ => t ++ " "%char :: joinTokens toks end.
Proof. intros t toks. destruct toks; reflexivity. Qed.

Lemma joinTokens_folded :
  forall toks, Forall normalToken toks -> Forall folded (joinTokens toks).
Proof.
  induction toks as [|t toks IH]; intros H; [constructor|].
  inversion H as [|? ? [_ [Ht _]] Hrest]; subst.
  rewrite joinTokens_cons.
  assert (Hft : Forall folded t)
    by (eapply Forall_impl; [|exact Ht]; intros c Hc; left; exact Hc).
  destruct toks; [exact Hft|].
  apply Forall_app. split; [exact Hft|].
  constructor; [right; reflexivity|apply IH, Hrest].
Qed.

Lemma folded_lc : forall s, Forall folded s -> lc s = s.
Proof.
  induction s as [|c s IH]; intros H; [reflexivity|].
  inversion H as [|? ? Hc Hs]; subst.
  unfold lc, toLowerCase in *. cbn [map]. rewrite (IH Hs).
  unfold tolower.
  replace (is_upper c) with false; [reflexivity|].
  symmetry. destruct Hc as [Hc|Hc];
    [apply tokenChar_not_upper|apply space_not_upper]; exact Hc.
Qed.

Lemma folded_asciiFold : forall s, Forall folded s -> asciiFoldKeepSpace s = s.
Proof.
  induction s as [|c s IH]; intros H; [reflexivity|].
  inversion H as [|? ? Hc Hs]; subst.
  unfold asciiFoldKeepSpace in *. cbn [flat_map]. rewrite (IH Hs).
  unfold foldChar.
  assert (Hup : is_upper c = false)
    by (destruct Hc as [Hc|Hc];
        [apply tokenChar_not_upper|apply space_not_upper]; exact Hc).
  rewrite Hup.
  replace (is_lower c || is_digit c || is_space c) with true; [reflexivity|].
  symmetry. destruct Hc as [Hc|Hc].
  - unfold tokenChar in Hc. rewrite Hc. reflexivity.
  - rewrite Hc. apply orb_true_r.
Qed.

Lemma collapse_token :
  forall t b r,
    t <> [] -> Forall (fun c => tokenChar c = true) t ->
    collapse b (t ++ r) = t ++ collapse false r.
Proof.
  induction t as [|c t IH]; intros b r Hne Ht; [congruence|].
  inversion Ht as [|? ? Hc Ht']; subst.
  cbn [app collapse]. rewrite (tokenChar_not_space c Hc).
  destruct t as [|c2 t2]; [reflexivity|].
  rewrite IH; [reflexivity|discriminate|exact Ht'].
Qed.

Lemma collapse_joinTokens :
  forall toks b, Forall normalToken toks -> collapse b (joinTokens toks) = joinTokens toks.
Proof.
  induction toks as [|t toks IH]; intros b H; [reflexivity|].
  inversion H as [|? ? [Hne [Ht _]] Hrest]; subst.
  rewrite joinTokens_cons.
  destruct toks as [|t2 toks].
  - rewrite <- (app_nil_r t) at 1. rewrite collapse_token by assumption.
    cbn. apply app_nil_r.
  - rewrite collapse_token by assumption.
    cbn [collapse]. change (is_space " "%char) with true. cbv iota.
    rewrite IH by exact Hrest. reflexivity.
Qed.

Lemma joinTokens_head :
  forall toks,
    Forall normalToken toks ->
    match joinTokens toks with [] => True | c :: _ => is_space c = false end.
Proof.
  intros toks H. destruct toks as [|t toks]; [exact I|].
  inversion H as [|? ? [Hne [Ht _]] Hrest]; subst.
  rewrite joinTokens_cons.
  destruct t as [|c t]; [congruence|].
  inversion Ht; subst.
  destruct toks; cbn; apply tokenChar_not_space; assumption.
Qed.

Lemma joinTokens_last :
  forall toks,
    Forall normalToken toks ->
    match rev (joinTokens toks) with [] => True | c :: _ => is_space c = false end.
Proof.
  induction toks as [|t toks IH]; intros H; [exact I|].
  inversion H as [|? ? [Hne [Ht _]] Hrest]; subst.
  rewrite joinTokens_cons.
  destruct toks as [|t2 toks].
  - apply Forall_rev in Ht.
    destruct (rev t) as [|c r] eqn:Hr; [exact I|].
    inversion Ht; subst. apply tokenChar_not_space. assumption.
  - specialize (IH Hrest).
    rewrite rev_app_distr. cbn [rev]. rewrite <- app_assoc.
    destruct (rev (joinTokens (t2 :: toks))) as [|c r] eqn:Hr.
    + exfalso. apply (f_equal (@rev ascii)) in Hr. rewrite rev_involutive in Hr.
      inversion Hrest as [|? ? [Hne2 _] _]; subst.
      rewrite joinTokens_cons in Hr. cbn [rev] in Hr.
      destruct t2; [congruence|]. destruct toks; discriminate.
    + exact IH.
Qed.

Lemma dropWhile_head_false :
  forall A (p : A -> bool) l,
    match l with [] => True | c :: _ => p c = false end -> dropWhile p l = l.
Proof. intros A p l H. destruct l; [reflexivity|]. cbn. rewrite H. reflexivity. Qed.

Lemma squeezeSpace_joinTokens :
  forall toks, Forall normalToken toks -> squeezeSpace (joinTokens toks) = joinTokens toks.
Proof.
  intros toks H. unfold squeezeSpace.
  rewrite (collapse_joinTokens toks false H). cbv zeta.
  rewrite (dropWhile_head_false _ is_space _ (joinTokens_head toks H)).
  rewrite (dropWhile_head_false _ is_space _ (joinTokens_last toks H)).
  rewrite !Nat.sub_diag.
  replace (Z.max (Z.of_nat 0) (len (joinTokens toks) - Z.of_nat 0))
    with (len (joinTokens toks)) by (unfold len; lia).
  cbn [Z.of_nat]. rewrite Z.eqb_refl, Z.eqb_refl. reflexivity.
Qed.

Lemma splitAux_token :
  forall sep t r,
    Forall (fun c => sep c = false) t ->
    splitAux sep (t ++ r)
    = (t ++ fst (splitAux sep r), snd (splitAux sep r)).
Proof.
  intros sep t r Ht. induction Ht as [|c t Hc Ht IH].
  - cbn. destruct (splitAux sep r); reflexivity.
  - cbn [app splitAux]. rewrite IH, Hc. reflexivity.
Qed.

Lemma splitAux_joinTokens :
  forall toks,
    Forall normalToken toks ->
    splitAux is_space (joinTokens toks) = (hd [] toks, tl toks).
Proof.
  induction toks as [|t toks IH]; intros H; [reflexivity|].
  inversion H as [|? ? [Hne [Ht _]] Hrest]; subst.
  assert (Hns : Forall (fun c => is_space c = false) t)
    by (eapply Forall_impl; [|exact Ht]; apply tokenChar_not_space).
  rewrite joinTokens_cons. cbn [hd tl].
  destruct toks as [|t2 toks].
  - rewrite <- (app_nil_r t) at 1. rewrite splitAux_token by exact Hns.
    cbn. rewrite app_nil_r. reflexivity.
  - rewrite splitAux_token by exact Hns.
    cbn [splitAux]. rewrite (IH Hrest). change (is_space " "%char) with true.
    cbn [hd tl fst snd]. rewrite app_nil_r.
    inversion Hrest as [|? ? [Hne2 _] _]; subst.
    destruct t2; [congruence|]. reflexivity.
Qed.

Lemma splitOn_joinTokens :
  forall toks, Forall normalToken toks -> splitOn is_space (joinTokens toks) = toks.
Proof.
  intros toks H. unfold splitOn. rewrite (splitAux_joinTokens toks H).
  destruct toks as [|t toks]; [reflexivity|].
  inversion H as [|? ? [Hne _] _]; subst.
  cbn [hd tl]. destruct t; [congruence|]. reflexivity.
Qed.

Lemma map_romanize_normal :
  forall toks, Forall normalToken toks -> map romanize toks = toks.
Proof.
  induction toks as [|t toks IH]; intros H; [reflexivity|].
  inversion H as [|? ? [_ [_ Hr]] Hrest]; subst.
  cbn [map]. rewrite Hr, (IH Hrest). reflexivity.
Qed.

(** C6, as stated, fails: normalizing strips a leading x before a letter or
    digit, and a leading "the ", each time it runs; tokens that start that
    way lose their head on the second pass. *)
Lemma C6_tokenize_not_idempotent :
  tokenize (str "xxbox") = [str "xbox"]
  /\ tokenize (joinTokens (tokenize (str "xxbox"))) = [str "box"]
  /\ tokenize (str "the the game") = [str "the"; str "game"]
  /\ tokenize (joinTokens (tokenize (str "the the game"))) = [str "game"].
Proof. vm_compute. repeat split; reflexivity. Qed.

(** C6, amended: when the tokens of x, joined by single spaces, neither
    begin with an x followed by a lowercase letter or digit nor with
    "the ", normalizing that string gives the tokens of x again. *)
Theorem C6_tokenize_idempotent_amended :
  forall x,
    xPrefixed (joinTokens (tokenize x)) = false ->
    startsWith (joinTokens (tokenize x)) (str "the ") = false ->
    tokenize (joinTokens (tokenize x)) = tokenize x.
Proof.
  intros x Hx Hthe.
  pose proof (tokenize_normal x) as Hn.
  set (toks := tokenize x) in *. clearbody toks.
  unfold tokenize. cbv zeta.
  rewrite (folded_lc _ (joinTokens_folded toks Hn)).
  rewrite Hx, Hthe.
  rewrite (folded_asciiFold _ (joinTokens_folded toks Hn)).
  rewrite (squeezeSpace_joinTokens toks Hn).
  rewrite (splitOn_joinTokens toks Hn).
  apply map_romanize_normal, Hn.
Qed.

Lemma C6_tokenize_idempotent_amended_witness :
  tokenize (joinTokens (tokenize (str "The Elder Scrolls III: Morrowind & X")))
  = tokenize (str "The Elder Scrolls III: Morrowind & X").
Proof.
  apply C6_tokenize_idempotent_amended; vm_compute; reflexivity.
Defined.

(* ================================================================== *)
(** ** C7: the order of the rows of a board                             *)
(* ================================================================== *)

(** The digit loop, once the first digit has been seen. *)
Lemma rankLoop_digits :
  forall ds rest n,
    Forall (fun c => is_digit c = true) ds ->
    (match rest with [] => True | c :: _ => is_digit c = false end) ->
    rankLoop (ds ++ rest) n true
    = (fold_left (fun n c => wrap32 (n * 10 + (Z.of_nat (code c) - 48))) ds n, true).
Proof.
  induction ds as [|d ds IH]; intros rest n Hds Hrest.
  - simpl. destruct rest as [|c r]; [reflexivity|]. simpl. rewrite Hrest. reflexivity.
  - inversion Hds as [|? ? Hd Hds']; subst. simpl. rewrite Hd.
    apply IH; assumption.
Qed.

Lemma takeWhile_dropWhile :
  forall A (p : A -> bool) l, takeWhile p l ++ dropWhile p l = l.
Proof.
  induction l as [|x r IH]; simpl; [reflexivity|].
  destruct (p x); simpl; [rewrite IH|]; reflexivity.
Qed.

Lemma takeWhile_all :
  forall A (p : A -> bool) l, Forall (fun x => p x = true) (takeWhile p l).
Proof.
  induction l as [|x r IH]; simpl; [constructor|].
  destruct (p x) eqn:Hp; constructor; assumption.
Qed.

Lemma dropWhile_head :
  forall A (p : A -> bool) l,
    match dropWhile p l with [] => True | x :: _ => p x = false end.
Proof.
  induction l as [|x r IH]; simpl; [exact I|].
  destruct (p x) eqn:Hp; [exact IH|exact Hp].
Qed.

Lemma is_digit_value :
  forall c, is_digit c = true -> 0 <= Z.of_nat (code c) - 48 <= 9.
Proof.
  intros c H. unfold is_digit in H. apply andb_true_iff in H.
  destruct H as [H1 H2]. apply Nat.leb_le in H1. apply Nat.leb_le in H2. lia.
Qed.

(** No wrap-around while at most nine digits are read. *)
Lemma digits_no_wrap :
  forall ds n k,
    Forall (fun c => is_digit c = true) ds ->
    0 <= n < 10 ^ k -> 0 <= k -> k + Z.of_nat (length ds) <= 9 ->
    fold_left (fun n c => wrap32 (n * 10 + (Z.of_nat (code c) - 48))) ds n
    = fold_left (fun n c => n * 10 + (Z.of_nat (code c) - 48)) ds n.
Proof.
  induction ds as [|d ds IH]; intros n k Hds Hn Hk Hlen; [reflexivity|].
  inversion Hds as [|? ? Hd Hds']; subst.
  apply is_digit_value in Hd.
  cbn [fold_left]. cbn [length] in Hlen.
  assert (Hpow : 10 ^ (k + 1) = 10 * 10 ^ k) by (rewrite Z.pow_add_r by lia; lia).
  assert (Hle : 10 ^ (k + 1) <= 10 ^ 9) by (apply Z.pow_le_mono_r; lia).
  assert (Hw : wrap32 (n * 10 + (Z.of_nat (code d) - 48))
               = n * 10 + (Z.of_nat (code d) - 48)).
  { unfold wrap32.
    rewrite Z.mod_small; [lia|].
    change (10 ^ 9) with 1000000000 in Hle. lia. }
  rewrite Hw. apply (IH _ (k + 1)); try assumption; lia.
Qed.

Lemma rankLoop_skip :
  forall rs,
    rankLoop rs 0 false
    = rankLoop (dropWhile (fun c => negb (is_digit c)) rs) 0 false.
Proof.
  induction rs as [|c r IH]; [reflexivity|].
  simpl. destruct (is_digit c) eqn:Hc; simpl; [rewrite Hc; reflexivity|exact IH].
Qed.

Lemma rankKey_value :
  forall rs,
    (firstDigitRun rs = [] -> rankKey rs = 1000000000)
    /\ (firstDigitRun rs <> [] -> (length (firstDigitRun rs) <= 9)%nat ->
        rankKey rs = decimalValue (firstDigitRun rs)).
Proof.
  intros rs. unfold rankKey, firstDigitRun. rewrite rankLoop_skip.
  set (t := dropWhile (fun c => negb (is_digit c)) rs).
  pose proof (dropWhile_head _ (fun c => negb (is_digit c)) rs) as Hhead.
  fold t in Hhead.
  destruct t as [|c r] eqn:Ht.
  - simpl. split; [reflexivity|congruence].
  - apply negb_false_iff in Hhead.
    cbn [takeWhile]. rewrite Hhead.
    split; [discriminate|]. intros _ Hlen.
    cbn [rankLoop]. rewrite Hhead.
    rewrite <- (takeWhile_dropWhile _ is_digit r) at 1.
    rewrite rankLoop_digits;
      [|apply takeWhile_all|apply (dropWhile_head _ is_digit r)].
    pose proof (is_digit_value c Hhead) as Hv.
    unfold decimalValue. cbn [fold_left].
    replace (wrap32 (0 * 10 + (Z.of_nat (code c) - 48)))
      with (0 * 10 + (Z.of_nat (code c) - 48))
      by (unfold wrap32; rewrite Z.mod_small; lia).
    cbn [length] in Hlen.
    rewrite (digits_no_wrap _ _ 1);
      [reflexivity | apply takeWhile_all | lia | lia | lia].
Qed.




(* ================================================================== *)
(** ** C8: write, then read                                             *)
(* ================================================================== *)













(* ================================================================== *)
(** ** C9: eviction                                                     *)
(* ================================================================== *)

(** Three writes into a cache limited to two files: the oldest entry goes. *)
Lemma eviction_of_the_oldest :
  map f_path (disk (writeAll small_cache three_writes))
  = [sanitizeKey (str "http://h/b"); sanitizeKey (str "http://h/c")].
Proof. vm_compute. reflexivity. Qed.

(** C9, as stated, fails: three writes into a cache limited to two files
    and 1000 bytes, the third one of 1001 bytes.  The third write is
    complete, more entries are created than the file limit allows, and the
    prune pass of the third write removes all three: the entry written last
    does not survive, and neither do the two before it. *)
Lemma C9_newest_entry_not_kept :
  cacheMaxFiles small_cache = 2
  /\ cacheMaxBytes small_cache = 1000
  /\ snd (cacheWrite (serving [] None 1700000003 3000) (str "http://h/c")
                     (repeat "x"%char 1001)
                     (writeAll small_cache (firstn 2 oversized_writes))) = true
  /\ map f_path (disk (writeAll small_cache (firstn 2 oversized_writes)))
     = [sanitizeKey (str "http://h/a"); sanitizeKey (str "http://h/b")]
  /\ disk (writeAll small_cache oversized_writes) = []
  /\ fs_find (sanitizeKey (str "http://h/c"))
             (disk (writeAll small_cache oversized_writes)) = None.
Proof. vm_compute. repeat split; reflexivity. Qed.

(** *** Which entries the prune pass leaves *)

Lemma filter_swap :
  forall A (p q : A -> bool) l, filter p (filter q l) = filter q (filter p l).
Proof.
  intros A p q. induction l as [|x l IH]; [reflexivity|].
  cbn [filter]. destruct (p x) eqn:Hp, (q x) eqn:Hq; cbn [filter];
    rewrite ?Hp, ?Hq, IH; reflexivity.
Qed.

Lemma filter_both :
  forall A (p q : A -> bool) l,
    filter p (filter q l) = filter (fun x => q x && p x) l.
Proof.
  intros A p q. induction l as [|x l IH]; [reflexivity|].
  cbn [filter]. destruct (q x) eqn:Hq; cbn [filter andb]; rewrite IH; reflexivity.
Qed.

Lemma filter_all :
  forall A (p : A -> bool) l, (forall x, In x l -> p x = true) -> filter p l = l.
Proof.
  intros A p. induction l as [|x l IH]; intros H; [reflexivity|].
  cbn [filter]. rewrite (H x (or_introl eq_refl)). f_equal.
  apply IH. intros y Hy. apply H. right. exact Hy.
Qed.

Lemma bytesOf_filter :
  forall p l, bytesOf (filter p l) <= bytesOf l.
Proof.
  intros p. induction l as [|x l IH]; cbn [filter bytesOf fold_right]; [lia|].
  fold (bytesOf l). destruct (p x); cbn [bytesOf fold_right];
    fold (bytesOf (filter p l)); unfold len; lia.
Qed.

Lemma fits_filter :
  forall maxF maxB p l, fits maxF maxB l -> fits maxF maxB (filter p l).
Proof.
  intros maxF maxB p l (H1 & H2). split.
  - pose proof (filter_length_le p l). lia.
  - pose proof (bytesOf_filter p l). lia.
Qed.

Lemma atLeastAsNew_filter :
  forall f p d, atLeastAsNew f (filter p d) = filter p (atLeastAsNew f d).
Proof.
  intros f p d. unfold atLeastAsNew, cacheFiles.
  rewrite (filter_swap _ inCacheDir p d). apply filter_swap.
Qed.

Lemma agePhase_filter :
  forall nowt maxAge entries d,
    exists p, agePhase nowt maxAge entries d = filter p d.
Proof.
  intros nowt maxAge entries. unfold agePhase.
  induction entries as [|e entries IH]; intros d.
  - exists (fun _ => true). symmetry. apply filter_all. reflexivity.
  - cbn [fold_left].
    destruct (fs_find (fst e) d); [|apply IH].
    destruct (tooOld nowt (snd e) maxAge); [|apply IH].
    destruct (IH (fs_remove (fst e) d)) as (p & Hp). rewrite Hp.
    unfold fs_remove. rewrite filter_both. eexists. reflexivity.
Qed.

(** The loop takes the head of the sorted entries only when the files that
    are left, all of them at least as new as the head, exceed a limit. *)
Lemma evict_survivor :
  forall maxF maxB rest files bytes d,
    evictInv rest files bytes d ->
    StronglySorted (keyOrdered snd) rest ->
    forall f,
      In f (cacheFiles d) ->
      fits maxF maxB (atLeastAsNew f d) ->
      In f (evict maxF maxB rest files bytes d).
Proof.
  intros maxF maxB rest. induction rest as [|e rest IH];
    intros files bytes d Hinv Hsorted f Hf Hfits.
  - cbn [evict]. apply cacheFiles_In in Hf. apply Hf.
  - destruct (withinLimits maxF maxB files bytes) eqn:Hlim.
    + cbn [evict]. rewrite Hlim. apply cacheFiles_In in Hf. apply Hf.
    + destruct (evict_step _ _ _ _ _ Hinv)
        as (f0 & Hfind & Hf0 & Hc0 & He & H1 & H2 & Hnext).
      rewrite (evict_unfold _ _ _ _ _ _ _ f0 Hlim Hfind H1 H2).
      inversion Hsorted as [|? ? Hsorted' Hall]; subst.
      pose proof Hf as Hf'. apply cacheFiles_In in Hf'. destruct Hf' as [Hfd Hfc].
      cbn [fst] in *.
      destruct (list_eq_dec ascii_dec (f_path f) (f_path f0)) as [Hsame|Hdiff].
      * exfalso.
        assert (f = f0) by (destruct Hinv as (Hwf & _); eapply wf_same_path; eassumption).
        subst f0.
        assert (Hall' : atLeastAsNew f d = cacheFiles d).
        { unfold atLeastAsNew. apply filter_all. intros g Hg.
          apply Z.leb_le. apply cacheFiles_In in Hg. destruct Hg as [Hg Hgc].
          destruct Hinv as (_ & _ & _ & Hperm).
          assert (Hge : In (f_path g, f_mtime g) ((f_path f, f_mtime f) :: rest)).
          { eapply Permutation_in; [apply Permutation_sym, Hperm|].
            apply listing_In. exists g. repeat split; assumption. }
          destruct Hge as [Heq|Hge]; [inversion Heq; lia|].
          rewrite Forall_forall in Hall. apply (Hall _ Hge). }
        rewrite Hall' in Hfits. destruct Hfits as [F1 F2].
        destruct Hinv as (_ & Hfiles & Hbytes & _).
        assert (W : withinLimits maxF maxB files bytes = true).
        { unfold withinLimits. apply andb_true_iff. split; apply Z.leb_le.
          - rewrite Hfiles. exact F1.
          - rewrite Hbytes. exact F2. }
        congruence.
      * apply (IH _ _ _ Hnext Hsorted' f).
        -- apply cacheFiles_In. split; [|exact Hfc].
           apply fs_remove_keeps; assumption.
        -- unfold fs_remove. rewrite atLeastAsNew_filter.
           apply fits_filter, Hfits.
Qed.

Lemma capacityPhase_survivor :
  forall maxF maxB d f,
    fsWf d -> In f (cacheFiles d) -> fits maxF maxB (atLeastAsNew f d) ->
    In f (capacityPhase maxF maxB d).
Proof.
  intros maxF maxB d f Hwf Hf Hfits. unfold capacityPhase. cbv zeta.
  destruct (withinLimits maxF maxB (dirFiles d) (dirBytes d));
    [apply cacheFiles_In in Hf; apply Hf|].
  apply evict_survivor; try assumption.
  - apply capacityPhase_inv, Hwf.
  - apply (std_sort_sorted snd).
Qed.

Lemma pruneCache_survivor :
  forall env c f,
    cacheWf c -> fsReady (ensureFS env c) = true ->
    In f (cacheFiles (disk (ensureFS env c))) ->
    tooOld (env_time env) (f_mtime f) (cacheMaxAgeMs c) = false ->
    fits (cacheMaxFiles c) (cacheMaxBytes c) (atLeastAsNew f (disk (ensureFS env c))) ->
    In f (disk (pruneCache env c)).
Proof.
  intros env c f Hwf Hready Hf Hyoung Hfits.
  unfold pruneCache. cbv zeta. rewrite Hready. cbn [negb disk set_disk].
  destruct (ensureFS_limits env c) as (HF & HB & HA).
  destruct (ensureFS_wf env c Hwf) as (Hd & _).
  rewrite HF, HB, HA.
  set (d := disk (ensureFS env c)) in *. clearbody d.
  pose proof Hf as Hf'. apply cacheFiles_In in Hf'. destruct Hf' as [Hfd Hfc].
  apply capacityPhase_survivor.
  - apply agePhase_wf, Hd.
  - apply cacheFiles_In. split; [|exact Hfc].
    apply agePhase_keeps; [exact Hfd|].
    intros e He Hp. apply listing_In in He. destruct He as (g & Hg & _ & ->).
    cbn [fst snd] in *.
    assert (g = f) by (eapply wf_same_path; eassumption). subst g. exact Hyoung.
  - destruct (agePhase_filter (env_time env) (cacheMaxAgeMs c) (listing d) d)
      as (p & Hp).
    rewrite Hp, atLeastAsNew_filter. apply fits_filter, Hfits.
Qed.

(** C9, amended: after a run of cache writes that ends with a successful
    one, the cache directory holds at most [cacheMaxFiles] files and at most
    [cacheMaxBytes] bytes.  The capacity loop of the prune pass takes files
    away oldest first and stops at the limits: no file it removes has a
    later modification time than a file it leaves, and an entry that is not
    past the maximal age stays whenever the entries at least as new as it,
    itself included, fit within both limits together; so nothing is removed
    from a directory that is within the limits.  The same holds for the
    prune pass at the end of a write, the written entry included: the
    entries written last survive as long as they carry the latest
    modification times and fit the byte limit. *)
Theorem C9_cache_eviction_amended :
  (forall c ws env url body,
      cacheWf c ->
      snd (cacheWrite env url body (writeAll c ws)) = true ->
      dirFiles (disk (fst (cacheWrite env url body (writeAll c ws)))) <= cacheMaxFiles c
      /\ dirBytes (disk (fst (cacheWrite env url body (writeAll c ws))))
         <= cacheMaxBytes c)
  /\ (forall env c,
         cacheWf c -> fsReady (ensureFS env c) = true ->
         dirFiles (disk (pruneCache env c)) <= cacheMaxFiles c
         /\ dirBytes (disk (pruneCache env c)) <= cacheMaxBytes c
         /\ (forall f g,
                In f (cacheFiles (agedDisk env c)) ->
                ~ In f (disk (pruneCache env c)) ->
                In g (cacheFiles (disk (pruneCache env c))) ->
                f_mtime f <= f_mtime g)
         /\ (forall f,
                In f (cacheFiles (disk (ensureFS env c))) ->
                tooOld (env_time env) (f_mtime f) (cacheMaxAgeMs c) = false ->
                fits (cacheMaxFiles c) (cacheMaxBytes c)
                     (atLeastAsNew f (disk (ensureFS env c))) ->
                In f (disk (pruneCache env c))))
  /\ (forall env url body c f,
         cacheWf c -> fsReady (ensureFS env c) = true -> env_open env = true ->
         In f (cacheFiles (fs_write env (sanitizeKey url) body
                                    (disk (ensureFS env c)))) ->
         tooOld (env_time env) (f_mtime f) (cacheMaxAgeMs c) = false ->
         fits (cacheMaxFiles c) (cacheMaxBytes c)
              (atLeastAsNew f (fs_write env (sanitizeKey url) body
                                        (disk (ensureFS env c)))) ->
         In f (disk (fst (cacheWrite env url body c)))).
Proof.
  split; [|split].
  - intros c ws env url body Hwf Hok.
    destruct (writeAll_wf ws c Hwf) as (Hwf' & HF & HB).
    rewrite <- HF, <- HB. apply cacheWrite_bounds; assumption.
  - intros env c Hwf Hready.
    destruct (pruneCache_bounds env c Hwf Hready) as (B1 & B2 & _).
    split; [exact B1|]. split; [exact B2|]. split.
    + unfold pruneCache, agedDisk. cbv zeta. rewrite Hready. cbn [negb disk set_disk].
      apply capacityPhase_oldest_first.
      apply agePhase_wf. apply (ensureFS_wf env c Hwf).
    + intros f. apply pruneCache_survivor; assumption.
  - intros env url body c f Hwf Hready Hopen Hf Hyoung Hfits.
    unfold cacheWrite. cbv zeta. rewrite Hready, Hopen. cbn [negb fst].
    destruct (ensureFS_limits env c) as (HF & HB & HA).
    pose proof (ensureFS_wf env c Hwf) as (Hd & H1 & H2 & H3).
    set (c1 := ensureFS env c) in *.
    set (c2 := set_disk c1 (fs_write env (sanitizeKey url) body (disk c1))).
    assert (Hwf2 : cacheWf c2)
      by (subst c2; repeat split; cbn; try assumption; apply fs_write_wf, Hd).
    assert (E2 : ensureFS env c2 = c2)
      by (apply ensureFS_ready; subst c2; cbn; exact Hready).
    apply pruneCache_survivor; rewrite ?E2.
    + exact Hwf2.
    + exact Hready.
    + exact Hf.
    + subst c2. cbn [cacheMaxAgeMs set_disk]. rewrite HA. exact Hyoung.
    + subst c2. cbn [cacheMaxFiles cacheMaxBytes set_disk disk].
      rewrite HF, HB. exact Hfits.
Qed.

Lemma C9_cache_eviction_amended_witness :
  In (mkFile (sanitizeKey (str "http://h/b")) (str "second") 1700000002)
     (disk (fst (cacheWrite (serving [] None 1700000003 3000) (str "http://h/c")
                            (str "third")
                            (writeAll small_cache (firstn 2 three_writes)))))
  /\ In (mkFile (sanitizeKey (str "http://h/c")) (str "third") 1700000003)
        (disk (fst (cacheWrite (serving [] None 1700000003 3000) (str "http://h/c")
                               (str "third")
                               (writeAll small_cache (firstn 2 three_writes))))).
Proof.
  assert (Hwf : cacheWf (writeAll small_cache (firstn 2 three_writes))).
  { apply writeAll_wf. unfold cacheWf, fsWf. cbn. repeat split; try lia. constructor. }
  split.
  - apply (proj2 (proj2 C9_cache_eviction_amended)); try exact Hwf.
    + vm_compute. reflexivity.
    + reflexivity.
    + vm_compute. right. left. reflexivity.
    + vm_compute. reflexivity.
    + vm_compute. split; discriminate.
  - apply (proj2 (proj2 C9_cache_eviction_amended)); try exact Hwf.
    + vm_compute. reflexivity.
    + reflexivity.
    + vm_compute. right. right. left. reflexivity.
    + vm_compute. reflexivity.
    + vm_compute. split; discriminate.
Defined.

(* ================================================================== *)
(** ** C10: a loaded model has a current board                          *)
(* ================================================================== *)

Lemma load_valid :
  forall env titleId s,
    loaded s = false -> modelValid (fst (loadGameModel env titleId s)).
Proof.
  intros env titleId s Hoff.
  destruct (snd (loadGameModel env titleId s)) eqn:Hok.
  - destruct (loaded_boards env titleId s Hok) as (sbs & Hb & Hne & Hcur & _).
    intros _. rewrite Hb, Hcur. split.
    + apply Z.mod_pos_bound.
      destruct (loadBoards sbs); [congruence|]. cbn [length]. lia.
    + eapply Forall_impl; [|apply loadBoards_sorted].
      intros B [HB _]. exact HB.
  - destruct (load_frame env titleId s) as (_ & _ & _ & _ & _ & Hl).
    specialize (Hl Hok). intros Hon. congruence.
Qed.

Lemma maybeResolveAndLoad_valid :
  forall env s, modelValid s -> modelValid (maybeResolveAndLoad env s).
Proof.
  intros env s Hs. unfold maybeResolveAndLoad.
  destruct (u32 (ms_fetch env - lastFetchMs s) <? 100); [exact Hs|].
  set (s1 := set_lastFetchMs s (ms_fetch env)).
  assert (H1 : modelValid s1) by exact Hs.
  clearbody s1. clear Hs s.
  destruct (isEmpty (WORK_ROOT s1)).
  { destruct (stepProbe_frame env s1) as (Hm & Hl & _).
    unfold modelValid. rewrite Hm, Hl. exact H1. }
  destruct (negb (resolved (res s1))).
  { destruct (resolve_frame env s1) as (Hm & Hl & _).
    unfold modelValid. rewrite Hm, Hl. exact H1. }
  destruct (negb (loaded s1)) eqn:Hoff; [|exact H1].
  break_if; [exact H1|].
  apply load_valid. apply negb_true_iff, Hoff.
Qed.

Lemma rotateBoard_valid :
  forall env now s,
    loaded s = true -> modelValid s -> modelValid (rotateBoard env now s).
Proof.
  intros env now s Hon Hs. destruct (Hs Hon) as [Hcur Hrows].
  unfold rotateBoard.
  set (n := Z.of_nat (length (boards (model s)))) in *.
  set (next0 := if 1 <? n then u32 (rnd_tick env) mod n else curBoard (model s)).
  set (next := if (1 <? n) && (next0 =? curBoard (model s))
               then (next0 + 1) mod n else next0).
  assert (Hnext : 0 <= next < n).
  { subst next next0. destruct (1 <? n) eqn:Hn.
    - apply Z.ltb_lt in Hn. cbn [andb].
      break_if; apply Z.mod_pos_bound; lia.
    - cbn [andb]. exact Hcur. }
  clearbody next. clear next0.
  break_if; intros Hl; cbn in *; try discriminate.
  split; assumption.
Qed.

Lemma tick_valid :
  forall env s, modelValid s -> modelValid (tick env s).
Proof.
  intros env s Hs. unfold tick.
  destruct (isEmpty (curApp s)); [exact Hs|].
  pose proof (maybeResolveAndLoad_valid env s Hs) as H1.
  set (s1 := maybeResolveAndLoad env s) in *. clearbody s1. clear Hs s.
  destruct (negb (resolved (res s1)) || negb (loaded s1)) eqn:Hgo; [exact H1|].
  apply orb_false_iff in Hgo. destruct Hgo as [_ Hon].
  apply negb_false_iff in Hon.
  destruct (ms_tick env <? freezeUntilMs (rot s1)); [exact H1|].
  cbv zeta.
  set (s2 := advanceScroll (ms_tick env) s1).
  assert (H2 : modelValid s2 /\ loaded s2 = true).
  { subst s2. unfold advanceScroll. break_if; split; assumption. }
  clearbody s2. destruct H2 as [H2 Hon2].
  repeat break_if; try exact H2.
  apply rotateBoard_valid; assumption.
Qed.

Lemma run_valid :
  forall c s, modelValid s -> modelValid (run s c).
Proof.
  intros c s Hs. destruct c; cbn [run].
  - exact Hs.
  - unfold begin. break_if.
    + destruct (startProbing_frame (resetRuntime s)) as (Hm & Hl & _).
      unfold modelValid. rewrite Hl. cbn. discriminate.
    + intros H. discriminate.
  - unfold onAppName. break_if; [exact Hs|].
    repeat break_if; try (intros H; discriminate).
    match goal with
    | |- modelValid (startProbingIfNeeded ?x) =>
        destruct (startProbing_frame x) as (Hm & Hl & _)
    end.
    unfold modelValid. rewrite Hl. cbn. discriminate.
  - apply tick_valid, Hs.
  - exact Hs.
  - exact Hs.
  - unfold flushCacheNow. break_if; exact Hs.
Qed.

(** C10: from the initial state, whatever calls are made, a set [loaded]
    flag comes with a current board index inside the boards and with
    boards that all have rows; [tick], board rotation included, keeps it so. *)
Theorem C10_loaded_model_valid :
  (forall d calls, modelValid (runAll (initial d) calls))
  /\ (forall env s, modelValid s -> modelValid (tick env s)).
Proof.
  split; [|apply tick_valid].
  intros d calls.
  assert (H0 : modelValid (initial d)) by (intros H; discriminate).
  revert H0. generalize (initial d).
  unfold runAll. induction calls as [|c calls IH]; intros s Hs; [exact Hs|].
  cbn [fold_left]. apply IH, run_valid, Hs.
Qed.

Lemma C10_loaded_model_valid_witness :
  modelValid (tick (serving [] None 1700000000 100000)
                   (set_loaded between_variants true)).
Proof.
  apply (proj2 C10_loaded_model_valid).
  intros _. split; [cbn; lia|].
  repeat constructor. discriminate.
Defined.

(* ================================================================== *)
(** ** Further properties: the matcher and the title pool              *)
(* ================================================================== *)

Lemma contains_In : forall l s, contains l s = true <-> In s l.
Proof.
  intros l s. unfold contains. rewrite existsb_exists. split.
  - intros (x & Hx & Heq). apply streq_eq in Heq. subst. exact Hx.
  - intros H. exists s. split; [exact H|apply streq_refl].
Qed.

Lemma contains_not_In : forall l s, contains l s = false <-> ~ In s l.
Proof.
  intros l s. split.
  - intros H Hin. apply contains_In in Hin. congruence.
  - intros H. destruct (contains l s) eqn:Hc; [|reflexivity].
    exfalso. apply H, contains_In, Hc.
Qed.

Lemma streq_true_iff : forall a b, streq a b = true <-> a = b.
Proof.
  intros a b. split; [apply streq_eq|]. intros ->. apply streq_refl.
Qed.

Lemma pass2_step_spec :
  forall fam pool e id,
    In id (pass2_step fam pool e) <->
    In id pool
    \/ (id = e_id e /\ id <> [] /\ familyOf (e_name e) (e_slug e) = fam).
Proof.
  intros fam pool e id. unfold pass2_step.
  destruct (streq (familyOf (e_name e) (e_slug e)) fam) eqn:Hfam; cbn [andb].
  - apply streq_eq in Hfam.
    destruct (e_id e) as [|c r] eqn:Hid; cbn [length Nat.eqb negb andb].
    + split; [auto|]. intros [H|(H1 & H2 & _)]; [exact H|congruence].
    + destruct (contains pool (c :: r)) eqn:Hc; cbn [negb].
      * apply contains_In in Hc. split; [auto|].
        intros [H|(H1 & _)]; [exact H|subst; exact Hc].
      * rewrite in_app_iff. cbn [In]. split.
        -- intros [H|[H|[]]]; [auto|]. right. subst. repeat split; congruence.
        -- intros [H|(H1 & _)]; [auto|]. right. left. congruence.
  - split; [auto|]. intros [H|(_ & _ & H)]; [exact H|].
    subst. rewrite streq_refl in Hfam. discriminate.
Qed.

Lemma pass2_step_NoDup :
  forall fam pool e, NoDup pool -> NoDup (pass2_step fam pool e).
Proof.
  intros fam pool e H. unfold pass2_step.
  destruct (streq _ fam && negb (Nat.eqb (length (e_id e)) 0)); cbn [andb]; [|exact H].
  destruct (contains pool (e_id e)) eqn:Hc; cbn [negb]; [exact H|].
  apply contains_not_In in Hc.
  eapply Permutation_NoDup; [apply Permutation_cons_append|].
  constructor; assumption.
Qed.

Lemma pass2_fold_spec :
  forall fam es pool id,
    In id (fold_left (pass2_step fam) es pool) <->
    In id pool
    \/ (id <> []
        /\ exists e, In e es /\ e_id e = id
                     /\ familyOf (e_name e) (e_slug e) = fam).
Proof.
  intros fam es. induction es as [|e es IH]; intros pool id; cbn [fold_left].
  - split; [auto|]. intros [H|(_ & e & [] & _)]. exact H.
  - rewrite IH, pass2_step_spec. split.
    + intros [[H|(H1 & H2 & H3)]|(H1 & e' & H2 & H3)].
      * auto.
      * right. split; [exact H2|]. exists e. cbn. auto.
      * right. split; [exact H1|]. exists e'. cbn. tauto.
    + intros [H|(H1 & e' & [H2|H2] & H3 & H4)].
      * auto.
      * subst e'. left. right. auto.
      * right. split; [exact H1|]. exists e'. auto.
Qed.

(** X1: the pool that pass 2 collects holds exactly the non-empty title ids
    of the entries whose family key is the one asked for, each id once. *)
Theorem X1_pass2_pool :
  forall fam es,
    NoDup (pass2 fam es)
    /\ forall id,
        In id (pass2 fam es) <->
        (id <> []
         /\ exists e, In e es /\ e_id e = id
                      /\ familyOf (e_name e) (e_slug e) = fam).
Proof.
  intros fam es. unfold pass2. split.
  - assert (H : forall pool, NoDup pool -> NoDup (fold_left (pass2_step fam) es pool)).
    { induction es as [|e es IH]; intros pool Hp; [exact Hp|].
      cbn [fold_left]. apply IH, pass2_step_NoDup, Hp. }
    apply H. constructor.
  - intros id. rewrite pass2_fold_spec. cbn [In]. tauto.
Qed.

(** The holder of pass 1 is the start value or comes from an entry of the
    index that reached the acceptance score. *)
Lemma pass1_holder :
  forall q es acc,
    (fst acc = best0
     \/ exists e, In e es /\ MIN_ACCEPT_SCORE <= fst (scoreEntry q e)
                  /\ fst acc = selected e (fst (scoreEntry q e)) (snd (scoreEntry q e))) ->
    forall more,
      (forall e, In e more -> In e es) ->
      let best := fst (fold_left (pass1_step q) more acc) in
      best = best0
      \/ exists e, In e es /\ MIN_ACCEPT_SCORE <= fst (scoreEntry q e)
                   /\ best = selected e (fst (scoreEntry q e)) (snd (scoreEntry q e)).
Proof.
  intros q es acc Hacc more. revert acc Hacc.
  induction more as [|e more IH]; intros acc Hacc Hsub; [exact Hacc|].
  cbn [fold_left]. apply IH; [|intros e' He'; apply Hsub; right; exact He'].
  unfold pass1_step. destruct acc as [best diags]. cbn [fst] in *.
  destruct (scoreEntry q e) as [sc reason] eqn:Hsc.
  destruct (MIN_ACCEPT_SCORE <=? sc) eqn:Hmin; cbn [andb fst]; [|exact Hacc].
  break_if; cbn [fst]; [|exact Hacc].
  right. exists e. rewrite Hsc. cbn [fst snd].
  split; [apply Hsub; left; reflexivity|].
  split; [apply Z.leb_le, Hmin|reflexivity].
Qed.

(** X2: the best match of pass 1 is never an entry that scores below the
    acceptance score: the holder is either the empty start value or an
    entry of the index with a score of at least 65; when no entry reaches
    65 the holder stays empty. *)
Theorem X2_pass1_accepts_only_above_threshold :
  forall q es,
    (fst (pass1 q es) = best0
     \/ exists e, In e es /\ MIN_ACCEPT_SCORE <= fst (scoreEntry q e)
                  /\ fst (pass1 q es)
                     = selected e (fst (scoreEntry q e)) (snd (scoreEntry q e)))
    /\ ((forall e, In e es -> fst (scoreEntry q e) < MIN_ACCEPT_SCORE) ->
        fst (pass1 q es) = best0).
Proof.
  intros q es.
  assert (H : fst (pass1 q es) = best0
              \/ exists e, In e es /\ MIN_ACCEPT_SCORE <= fst (scoreEntry q e)
                  /\ fst (pass1 q es)
                     = selected e (fst (scoreEntry q e)) (snd (scoreEntry q e))).
  { unfold pass1. apply (pass1_holder q es (best0, [])); auto. }
  split; [exact H|].
  intros Hlow. destruct H as [H|(e & He & Hge & _)]; [exact H|].
  specialize (Hlow e He). lia.
Qed.

Lemma X2_pass1_accepts_only_above_threshold_witness :
  fst (pass1 (str "Halo 2") halo_index) = best0.
Proof.
  apply (proj2 (X2_pass1_accepts_only_above_threshold (str "Halo 2") halo_index)).
  intros e [<-|[<-|[]]]; vm_compute; reflexivity.
Defined.

(** X3: the entry that pass 1 selects, when it has a title id, is a member
    of the pool that pass 2 collects for its family. *)
Theorem X3_matched_id_in_its_pool :
  forall q es,
    b_id (fst (pass1 q es)) <> [] ->
    In (b_id (fst (pass1 q es))) (pass2 (b_fam (fst (pass1 q es))) es).
Proof.
  intros q es Hid.
  assert (H : fst (pass1 q es) = best0
              \/ exists e, In e es /\ MIN_ACCEPT_SCORE <= fst (scoreEntry q e)
                  /\ fst (pass1 q es)
                     = selected e (fst (scoreEntry q e)) (snd (scoreEntry q e))).
  { unfold pass1. apply (pass1_holder q es (best0, [])); auto. }
  destruct H as [H|(e & He & _ & H)].
  - rewrite H in Hid. cbn in Hid. congruence.
  - rewrite H in *. cbn [selected b_id b_fam] in *.
    unfold pass2. apply pass2_fold_spec. right.
    split; [exact Hid|]. exists e. auto.
Qed.

Lemma X3_matched_id_in_its_pool_witness :
  In (str "BB")
     (pass2 (b_fam (fst (pass1 (str "halo 2 (pal)") halo_index))) halo_index).
Proof.
  apply (X3_matched_id_in_its_pool (str "halo 2 (pal)") halo_index).
  vm_compute. discriminate.
Defined.

Lemma better_true_ge :
  forall raw norm A sc e, better raw norm A sc e = true -> b_score A <= sc.
Proof.
  intros raw norm A sc e. unfold better.
  destruct (b_score A <? sc) eqn:H1; [apply Z.ltb_lt in H1; lia|].
  destruct (sc <? b_score A) eqn:H2; [discriminate|].
  apply Z.ltb_ge in H2. lia.
Qed.

Lemma better_false_le :
  forall raw norm A sc e, better raw norm A sc e = false -> sc <= b_score A.
Proof.
  intros raw norm A sc e. unfold better.
  destruct (b_score A <? sc) eqn:H1; [discriminate|].
  apply Z.ltb_ge in H1. lia.
Qed.

Lemma pass1_step_monotone :
  forall q acc e,
    e_id e <> [] -> b_id (fst acc) <> [] ->
    b_id (fst (pass1_step q acc e)) <> []
    /\ b_score (fst acc) <= b_score (fst (pass1_step q acc e)).
Proof.
  intros q [best diags] e He Hb. unfold pass1_step. cbn [fst] in *.
  destruct (scoreEntry q e) as [sc reason].
  destruct (MIN_ACCEPT_SCORE <=? sc); cbn [andb fst]; [|split; [exact Hb|lia]].
  replace (Nat.eqb (length (b_id best)) 0) with false
    by (destruct (b_id best); [congruence|reflexivity]).
  cbn [orb]. destruct (better q (normKey q) best sc e) eqn:Hbt; cbn [fst b_id b_score].
  - split; [exact He|]. eapply better_true_ge, Hbt.
  - split; [exact Hb|lia].
Qed.

Lemma pass1_fold_monotone :
  forall q more acc,
    Forall (fun e => e_id e <> []) more -> b_id (fst acc) <> [] ->
    b_id (fst (fold_left (pass1_step q) more acc)) <> []
    /\ b_score (fst acc) <= b_score (fst (fold_left (pass1_step q) more acc)).
Proof.
  intros q more. induction more as [|e more IH]; intros acc Hids Hb.
  - split; [exact Hb|cbn; lia].
  - inversion Hids as [|? ? He Hrest]; subst. cbn [fold_left].
    destruct (pass1_step_monotone q acc e He Hb) as [H1 H2].
    destruct (IH _ Hrest H1) as [H3 H4]. split; [exact H3|lia].
Qed.

Lemma pass1_step_covers :
  forall q acc e,
    e_id e <> [] -> MIN_ACCEPT_SCORE <= fst (scoreEntry q e) ->
    b_id (fst (pass1_step q acc e)) <> []
    /\ fst (scoreEntry q e) <= b_score (fst (pass1_step q acc e)).
Proof.
  intros q [best diags] e He Hmin. unfold pass1_step. cbn [fst] in *.
  destruct (scoreEntry q e) as [sc reason]. cbn [fst] in Hmin.
  replace (MIN_ACCEPT_SCORE <=? sc) with true by (symmetry; apply Z.leb_le, Hmin).
  cbn [andb].
  destruct (b_id best) as [|c r] eqn:Hb; cbn [length Nat.eqb orb fst b_id b_score].
  - split; [exact He|lia].
  - destruct (better q (normKey q) best sc e) eqn:Hbt; cbn [fst b_id b_score].
    + split; [exact He|lia].
    + rewrite Hb. split; [discriminate|]. eapply better_false_le, Hbt.
Qed.

(** X4: in an index where every entry has a title id, the best match of
    pass 1 carries the highest score: no entry that reaches the acceptance
    score scores more than the entry selected. *)
Theorem X4_pass1_highest_score_wins :
  forall q es e,
    Forall (fun e => e_id e <> []) es ->
    In e es -> MIN_ACCEPT_SCORE <= fst (scoreEntry q e) ->
    b_id (fst (pass1 q es)) <> []
    /\ fst (scoreEntry q e) <= b_score (fst (pass1 q es)).
Proof.
  intros q es e Hids. unfold pass1. generalize (best0, @nil MatchDiag).
  induction es as [|e0 es IH]; intros acc Hin Hmin; [destruct Hin|].
  inversion Hids as [|? ? He0 Hrest]; subst. cbn [fold_left].
  destruct Hin as [->|Hin].
  - destruct (pass1_step_covers q acc e He0 Hmin) as [H1 H2].
    destruct (pass1_fold_monotone q es _ Hrest H1) as [H3 H4].
    split; [exact H3|lia].
  - apply IH; assumption.
Qed.

Lemma X4_pass1_highest_score_wins_witness :
  100 <= b_score (fst (pass1 (str "halo 2 (pal)") halo_index)).
Proof.
  assert (Hs : fst (scoreEntry (str "halo 2 (pal)")
                               (mkEntry (str "BB") (str "Halo 2 (PAL)") [] [])) = 100)
    by (vm_compute; reflexivity).
  rewrite <- Hs.
  apply (X4_pass1_highest_score_wins (str "halo 2 (pal)") halo_index).
  - repeat constructor; discriminate.
  - right. left. reflexivity.
  - rewrite Hs. unfold MIN_ACCEPT_SCORE. lia.
Defined.

(** X5: pass 1 keeps at most ten diagnostic records, and only for entries
    whose score is above zero. *)
Theorem X5_diagnostics_bounded :
  forall q es,
    (length (snd (pass1 q es)) <= 10)%nat
    /\ Forall (fun d => 0 < d_score d) (snd (pass1 q es)).
Proof.
  intros q es. unfold pass1.
  assert (H : forall acc : Best * list MatchDiag,
             (length (snd acc) <= 10)%nat /\ Forall (fun d => 0 < d_score d) (snd acc) ->
             (length (snd (fold_left (pass1_step q) es acc)) <= 10)%nat
             /\ Forall (fun d => 0 < d_score d) (snd (fold_left (pass1_step q) es acc))).
  { induction es as [|e es IH]; intros acc Hacc; [exact Hacc|].
    cbn [fold_left]. apply IH.
    destruct acc as [best diags]. destruct Hacc as [Hlen Hpos]. cbn [snd] in *.
    unfold pass1_step. destruct (scoreEntry q e) as [sc reason].
    destruct ((0 <? sc) && (Z.of_nat (length diags) <? 10)) eqn:Hc; cbn [snd].
    - apply andb_true_iff in Hc. destruct Hc as [H1 H2].
      apply Z.ltb_lt in H1. apply Z.ltb_lt in H2.
      split; [rewrite length_app; cbn; lia|].
      apply Forall_app. split; [exact Hpos|]. constructor; [exact H1|constructor].
    - split; assumption. }
  apply H. cbn. split; [lia|constructor].
Qed.

Lemma compositeScore_nonneg : forall qToks n e, 0 <= compositeScore qToks n e.
Proof.
  intros qToks n e. unfold compositeScore. cbv zeta.
  match goal with
  | |- 0 <= (if ?x <? 0 then 0 else ?x) =>
      destruct (x <? 0) eqn:H; [lia|apply Z.ltb_ge in H; exact H]
  end.
Qed.

(** X6: a score lies between 0 and 100, and it is either one of the five
    exact tiers 100, 98, 95, 93, 91 or at most 85: a composite score never
    reaches an exact tier. *)
Theorem X6_score_range :
  forall q e,
    0 <= fst (scoreEntry q e) <= 100
    /\ (In (fst (scoreEntry q e)) [100; 98; 95; 93; 91]
        \/ fst (scoreEntry q e) <= 85).
Proof.
  intros q e. unfold scoreEntry, tierScore. cbv zeta.
  pose proof (compositeScore_le (tokenize q) (normKey q) e).
  pose proof (compositeScore_nonneg (tokenize q) (normKey q) e).
  repeat break_if; cbn [fst In]; (split; [lia|]); try (right; lia);
    left; tauto.
Qed.

(* ================================================================== *)
(** ** Further properties: what every reachable state satisfies        *)
(* ================================================================== *)

Lemma runAll_invariant :
  forall (P : Engine -> Prop),
    (forall c s, P s -> P (run s c)) ->
    forall calls s, P s -> P (runAll s calls).
Proof.
  intros P Hstep. unfold runAll.
  induction calls as [|c calls IH]; intros s Hs; [exact Hs|].
  cbn [fold_left]. apply IH, Hstep, Hs.
Qed.

Lemma resolve_res :
  forall env s,
    (snd (resolveTitlePool env s) = true ->
     resolved (res (fst (resolveTitlePool env s))) = true
     /\ titlePool (res (fst (resolveTitlePool env s))) <> []
     /\ 0 <= curTitleIdx (res (fst (resolveTitlePool env s)))
        < Z.of_nat (length (titlePool (res (fst (resolveTitlePool env s)))))
     /\ WORK_ROOT s <> [] /\ curApp s <> [])
    /\ (snd (resolveTitlePool env s) = false ->
        resolved (res (fst (resolveTitlePool env s))) = resolved (res s)
        /\ titlePool (res (fst (resolveTitlePool env s))) = titlePool (res s)
        /\ curTitleIdx (res (fst (resolveTitlePool env s))) = curTitleIdx (res s)
        /\ haveSearch (res (fst (resolveTitlePool env s))) = haveSearch (res s)
        /\ lastDiag (res (fst (resolveTitlePool env s))) = lastDiag (res s)).
Proof.
  intros env s. unfold resolveTitlePool.
  destruct (negb (env_net env) && isEmpty (WORK_ROOT s));
    [split; [discriminate|intros _; repeat split; reflexivity]|].
  destruct (isEmpty (WORK_ROOT s)) eqn:Hroot;
    [split; [discriminate|intros _; repeat split; reflexivity]|].
  destruct (isEmpty (curApp s)) eqn:Happ;
    [split; [discriminate|intros _; repeat split; reflexivity]|].
  apply isEmpty_false in Hroot. apply isEmpty_false in Happ.
  cbv zeta. break_if; [split; [discriminate|intros _; repeat split; reflexivity]|].
  destruct (fetchThroughCache env _ TTL_SEARCH_MS _) as [c fetched].
  destruct fetched as [body|];
    [|split; [discriminate|intros _; repeat split; reflexivity]].
  destruct (pass1 _ (indexEntries body)) as [best diags].
  break_if; [split; [discriminate|intros _; repeat split; reflexivity]|].
  split; [|discriminate]. intros _. cbn [fst res set_res resolved titlePool curTitleIdx].
  set (pool := match pass2 (b_fam best) (indexEntries body) with
               | [] => [b_id best]
               | _ :: _ => pass2 (b_fam best) (indexEntries body)
               end).
  assert (Hpool : pool <> []).
  { subst pool. destruct (pass2 (b_fam best) (indexEntries body)); discriminate. }
  repeat split; try assumption; try reflexivity.
  - apply Z.mod_pos_bound. destruct pool; [congruence|cbn [length]; lia].
  - apply Z.mod_pos_bound. destruct pool; [congruence|cbn [length]; lia].
Qed.

Lemma rotateBoard_res :
  forall env now s,
    resolved (res (rotateBoard env now s)) = resolved (res s)
    /\ titlePool (res (rotateBoard env now s)) = titlePool (res s)
    /\ (0 <= curTitleIdx (res s) < Z.of_nat (length (titlePool (res s))) ->
        0 <= curTitleIdx (res (rotateBoard env now s))
        < Z.of_nat (length (titlePool (res s))))
    /\ (curTitleIdx (res (rotateBoard env now s)) = curTitleIdx (res s)
        \/ 1 < Z.of_nat (length (titlePool (res s))))
    /\ (loaded (rotateBoard env now s) = true -> loaded s = true).
Proof.
  intros env now s. unfold rotateBoard. cbv zeta.
  match goal with
  | |- context [if ?c then _ else _] => destruct c eqn:Hc
  end; cbn.
  - apply andb_true_iff in Hc. destruct Hc as [Hn _]. apply Z.ltb_lt in Hn.
    cbn in Hn.
    repeat split; try reflexivity; try discriminate.
    + apply Z.rem_nonneg; lia.
    + apply Z.rem_bound_pos; lia.
    + right. exact Hn.
  - repeat split; try reflexivity; try tauto.
Qed.

Lemma stepProbe_rooted :
  forall env s, WORK_ROOT s <> [] -> stepProbeWorkRoot env s = (s, true).
Proof.
  intros env s H. unfold stepProbeWorkRoot. apply isEmpty_false in H.
  rewrite H. reflexivity.
Qed.

(** *** The pool *)

Lemma maybeResolveAndLoad_pool :
  forall env s, poolValid s -> poolValid (maybeResolveAndLoad env s).
Proof.
  intros env s Hs. unfold maybeResolveAndLoad. cbv zeta.
  break_if; [exact Hs|].
  set (s1 := set_lastFetchMs s (ms_fetch env)).
  assert (H1 : poolValid s1) by exact Hs. clearbody s1. clear Hs.
  break_if.
  { destruct (stepProbe_frame env s1) as (_ & _ & _ & _ & Hr).
    unfold poolValid. rewrite Hr. exact H1. }
  break_if.
  { destruct (resolve_res env s1) as [Hok Hfail].
    destruct (snd (resolveTitlePool env s1)).
    - destruct (Hok eq_refl) as (R1 & R2 & R3 & _).
      split; [intros _; split; assumption|congruence].
    - destruct (Hfail eq_refl) as (R1 & R2 & R3 & _).
      unfold poolValid. rewrite R1, R2, R3. exact H1. }
  break_if; [|exact H1]. break_if; [exact H1|].
  match goal with
  | |- context [loadGameModel env ?id s1] =>
      destruct (load_frame env id s1) as (_ & _ & _ & _ & Hr & _)
  end.
  unfold poolValid. rewrite Hr. exact H1.
Qed.

Lemma tick_pool : forall env s, poolValid s -> poolValid (tick env s).
Proof.
  intros env s Hs. unfold tick.
  break_if; [exact Hs|].
  pose proof (maybeResolveAndLoad_pool env s Hs) as H1.
  set (s1 := maybeResolveAndLoad env s) in *. clearbody s1. clear Hs.
  break_if; [exact H1|]. break_if; [exact H1|]. cbv zeta.
  assert (H2 : poolValid (advanceScroll (ms_tick env) s1)).
  { destruct (advanceScroll_frame (ms_tick env) s1) as (_ & _ & _ & _ & _ & _ & Hr).
    unfold poolValid. rewrite Hr. exact H1. }
  set (s2 := advanceScroll (ms_tick env) s1) in *. clearbody s2.
  repeat break_if; try exact H2.
  destruct (rotateBoard_res env (ms_tick env) s2) as (R1 & R2 & R3 & R4 & _).
  destruct H2 as [Hon Hoff]. unfold poolValid. rewrite R1, R2. split.
  - intros Hr. destruct (Hon Hr) as [A B]. split; [exact A|apply R3, B].
  - intros Hr. destruct (Hoff Hr) as [A B]. split; [exact A|].
    destruct R4 as [R4|R4]; [congruence|]. rewrite A in R4. cbn in R4. lia.
Qed.

Lemma reset_like_pool :
  forall s, resolved (res s) = false -> titlePool (res s) = [] ->
            curTitleIdx (res s) = -1 -> poolValid s.
Proof.
  intros s H1 H2 H3. split; [congruence|]. intros _. split; assumption.
Qed.

Lemma run_pool : forall c s, poolValid s -> poolValid (run s c).
Proof.
  intros c s Hs. destruct c; cbn [run]; try exact Hs.
  - unfold begin. break_if; [|apply reset_like_pool; reflexivity].
    destruct (startProbing_frame (resetRuntime s)) as (_ & _ & _ & _ & _ & Hr).
    unfold poolValid. rewrite Hr. apply reset_like_pool; reflexivity.
  - unfold onAppName. break_if; [exact Hs|].
    repeat break_if; try (apply reset_like_pool; reflexivity).
    match goal with
    | |- poolValid (startProbingIfNeeded ?x) =>
        destruct (startProbing_frame x) as (_ & _ & _ & _ & _ & Hr)
    end.
    unfold poolValid. rewrite Hr. apply reset_like_pool; reflexivity.
  - apply tick_pool, Hs.
  - unfold flushCacheNow. break_if; exact Hs.
Qed.

(** X7: in every state that calls can reach from the initial one, a set
    [resolved] flag comes with a title pool that is not empty and a variant
    cursor inside it, and a cleared flag with an empty pool and the cursor
    at -1; the variant switch of [tick] wraps the cursor inside the pool. *)
Theorem X7_title_pool_valid :
  forall d calls, poolValid (runAll (initial d) calls).
Proof.
  intros d calls. apply (runAll_invariant poolValid run_pool).
  apply reset_like_pool; reflexivity.
Qed.

(** *** Root, then resolution, then load *)

Lemma maybeResolveAndLoad_order :
  forall env s, orderValid s -> orderValid (maybeResolveAndLoad env s).
Proof.
  intros env s Hs. unfold maybeResolveAndLoad. cbv zeta.
  break_if; [exact Hs|].
  set (s1 := set_lastFetchMs s (ms_fetch env)).
  assert (H1 : orderValid s1) by exact Hs. clearbody s1. clear Hs.
  destruct H1 as [Hres Hload].
  destruct (isEmpty (WORK_ROOT s1)) eqn:Hroot.
  { apply isEmpty_true in Hroot.
    destruct (stepProbe_frame env s1) as (_ & Hl & _ & Ha & Hr).
    unfold orderValid. rewrite Hr, Hl, Ha. split; [|exact Hload].
    intros Hon. destruct (Hres Hon) as [A _]. congruence. }
  apply isEmpty_false in Hroot.
  destruct (negb (resolved (res s1))) eqn:Hnr.
  { destruct (resolve_frame env s1) as (_ & Hl & Hw & _ & _ & Ha).
    destruct (resolve_res env s1) as [Hok Hfail].
    unfold orderValid. rewrite Hl, Hw, Ha.
    destruct (snd (resolveTitlePool env s1)).
    - destruct (Hok eq_refl) as (R1 & _ & _ & R4 & R5).
      split; [intros _; split; assumption|intros _; exact R1].
    - destruct (Hfail eq_refl) as (R1 & _). rewrite R1. split; assumption. }
  apply negb_false_iff in Hnr.
  break_if; [|split; assumption]. break_if; [split; assumption|].
  match goal with
  | |- context [loadGameModel env ?id s1] =>
      destruct (load_frame env id s1) as (Hw & _ & _ & Ha & Hr & _)
  end.
  unfold orderValid. rewrite Hr, Hw, Ha. split; [exact Hres|intros _; exact Hnr].
Qed.

Lemma tick_order : forall env s, orderValid s -> orderValid (tick env s).
Proof.
  intros env s Hs. unfold tick.
  break_if; [exact Hs|].
  pose proof (maybeResolveAndLoad_order env s Hs) as H1.
  set (s1 := maybeResolveAndLoad env s) in *. clearbody s1. clear Hs.
  break_if; [exact H1|]. break_if; [exact H1|]. cbv zeta.
  assert (H2 : orderValid (advanceScroll (ms_tick env) s1)).
  { destruct (advanceScroll_frame (ms_tick env) s1) as (_ & Hl & Hw & _ & _ & Ha & Hr).
    unfold orderValid. rewrite Hr, Hl, Hw, Ha. exact H1. }
  set (s2 := advanceScroll (ms_tick env) s1) in *. clearbody s2.
  repeat break_if; try exact H2.
  destruct (rotateBoard_res env (ms_tick env) s2) as (R1 & _ & _ & _ & R5).
  destruct (rotateBoard_frame env (ms_tick env) s2) as (Hw & _ & _ & Ha).
  destruct H2 as [Hres Hload].
  unfold orderValid. rewrite R1, Hw, Ha. split; [exact Hres|].
  intros Hon. apply Hload, R5, Hon.
Qed.

Lemma reset_like_order :
  forall s, resolved (res s) = false -> loaded s = false -> orderValid s.
Proof. intros s H1 H2. split; congruence. Qed.

Lemma run_order : forall c s, orderValid s -> orderValid (run s c).
Proof.
  intros c s Hs. destruct c; cbn [run]; try exact Hs.
  - unfold begin. break_if; [|apply reset_like_order; reflexivity].
    destruct (startProbing_frame (resetRuntime s)) as (_ & Hl & _ & _ & _ & Hr).
    apply reset_like_order; [rewrite Hr|rewrite Hl]; reflexivity.
  - unfold onAppName. break_if; [exact Hs|].
    repeat break_if; try (apply reset_like_order; reflexivity).
    match goal with
    | |- orderValid (startProbingIfNeeded ?x) =>
        destruct (startProbing_frame x) as (_ & Hl & _ & _ & _ & Hr)
    end.
    apply reset_like_order; [rewrite Hr|rewrite Hl]; reflexivity.
  - apply tick_order, Hs.
  - unfold flushCacheNow. break_if; exact Hs.
Qed.

(** X8: in every state that calls can reach from the initial one, a loaded
    model implies a resolved title pool, and a resolved pool implies a
    confirmed root and a query that is not empty; so [isActive] holds
    exactly when [resolved] and [loaded] are both set. *)
Theorem X8_root_before_resolution_before_load :
  forall d calls,
    orderValid (runAll (initial d) calls)
    /\ isActive (runAll (initial d) calls)
       = resolved (res (runAll (initial d) calls))
         && loaded (runAll (initial d) calls).
Proof.
  intros d calls.
  assert (H : orderValid (runAll (initial d) calls)).
  { apply (runAll_invariant orderValid run_order).
    apply reset_like_order; reflexivity. }
  split; [exact H|].
  unfold isActive. destruct H as [Hres _].
  destruct (resolved (res (runAll (initial d) calls)));
    [|rewrite andb_false_r; reflexivity].
  destruct (Hres eq_refl) as [_ Ha]. apply isEmpty_false in Ha. rewrite Ha.
  reflexivity.
Qed.

(** *** The probe cursor *)

Lemma stepProbe_cursor :
  forall env s, cursorValid s -> cursorValid (fst (stepProbeWorkRoot env s)).
Proof.
  intros env s Hs. unfold stepProbeWorkRoot. cbv zeta.
  break_if; [exact Hs|]. break_if; [exact Hs|].
  set (s1 := if isEmpty (probeList (probe s)) then startProbingIfNeeded s else s).
  assert (H1 : cursorValid s1).
  { subst s1. break_if; [|exact Hs]. unfold startProbingIfNeeded.
    break_if; [exact Hs|]. unfold cursorValid. cbn. lia. }
  clearbody s1. clear Hs. unfold cursorValid in *.
  break_if; [exact H1|].
  destruct (Z.of_nat (length (probeList (probe s1))) <=? probeIdx (probe s1)) eqn:Hend.
  - cbn. lia.
  - apply Z.leb_gt in Hend.
    repeat (break_if || break_match); cbn; lia.
Qed.

Lemma run_cursor : forall c s, cursorValid s -> cursorValid (run s c).
Proof.
  intros c s Hs. destruct c; cbn [run]; try exact Hs.
  - unfold begin, startProbingIfNeeded.
    repeat break_if; unfold cursorValid; cbn; lia.
  - unfold onAppName, startProbingIfNeeded.
    repeat break_if; try exact Hs; unfold cursorValid; cbn; lia.
  - unfold tick. break_if; [exact Hs|].
    assert (H1 : cursorValid (maybeResolveAndLoad env s)).
    { unfold maybeResolveAndLoad. cbv zeta. break_if; [exact Hs|].
      set (s1 := set_lastFetchMs s (ms_fetch env)).
      assert (H1 : cursorValid s1) by exact Hs. clearbody s1.
      break_if; [apply stepProbe_cursor, H1|].
      break_if.
      { destruct (resolve_frame env s1) as (_ & _ & _ & Hp & _).
        unfold cursorValid. rewrite Hp. exact H1. }
      break_if; [|exact H1]. break_if; [exact H1|].
      match goal with
      | |- context [loadGameModel env ?id s1] =>
          destruct (load_frame env id s1) as (_ & Hp & _)
      end.
      unfold cursorValid. rewrite Hp. exact H1. }
    set (s1 := maybeResolveAndLoad env s) in *. clearbody s1.
    break_if; [exact H1|]. break_if; [exact H1|]. cbv zeta.
    destruct (advanceScroll_frame (ms_tick env) s1) as (_ & _ & _ & Hp & _).
    unfold cursorValid in *. rewrite <- Hp in H1.
    set (s2 := advanceScroll (ms_tick env) s1) in *. clearbody s2.
    repeat break_if; try exact H1.
    destruct (rotateBoard_frame env (ms_tick env) s2) as (_ & Hp2 & _).
    rewrite Hp2. exact H1.
  - unfold flushCacheNow. break_if; exact Hs.
Qed.

(** X9: in every state that calls can reach from the initial one, the probe
    cursor lies between 0 and the number of candidate roots, so a probe
    always reads a candidate that exists. *)
Theorem X9_probe_cursor_in_range :
  forall d calls, cursorValid (runAll (initial d) calls).
Proof.
  intros d calls. apply (runAll_invariant cursorValid run_cursor).
  unfold cursorValid. cbn. lia.
Qed.

(* ================================================================== *)
(** ** Further properties: rotation and the query                      *)
(* ================================================================== *)

Lemma succ_mod_differs :
  forall c n, 1 < n -> 0 <= c < n -> (c + 1) mod n <> c.
Proof.
  intros c n Hn Hc.
  destruct (Z.eq_dec (c + 1) n) as [He|He].
  - rewrite He, Z.mod_same by lia. lia.
  - rewrite Z.mod_small by lia. lia.
Qed.

(** X10: a board switch moves to another board whenever there is more than
    one (and to a board that exists), stays on the only board otherwise,
    and in both cases puts the scroll offset back to zero, keeps the boards
    and starts a freeze window of 750 ms. *)
Theorem X10_rotation_changes_board :
  forall env now s,
    0 <= curBoard (model s) < Z.of_nat (length (boards (model s))) ->
    let s' := rotateBoard env now s in
    (1 < Z.of_nat (length (boards (model s))) ->
     curBoard (model s') <> curBoard (model s))
    /\ (Z.of_nat (length (boards (model s))) <= 1 ->
        curBoard (model s') = curBoard (model s))
    /\ 0 <= curBoard (model s') < Z.of_nat (length (boards (model s)))
    /\ boards (model s') = boards (model s)
    /\ scrollY (rot s') = 0
    /\ lastBoardSwitch (rot s') = now
    /\ freezeUntilMs (rot s') = u32 (now + FREEZE_MS).
Proof.
  intros env now s Hcur. unfold rotateBoard. cbv zeta.
  set (n := Z.of_nat (length (boards (model s)))) in *.
  set (next0 := if 1 <? n then u32 (rnd_tick env) mod n else curBoard (model s)).
  set (next := if (1 <? n) && (next0 =? curBoard (model s))
               then (next0 + 1) mod n else next0).
  assert (Hnext : (1 < n -> next <> curBoard (model s))
                  /\ (n <= 1 -> next = curBoard (model s))
                  /\ 0 <= next < n).
  { subst next next0. destruct (1 <? n) eqn:Hn.
    - apply Z.ltb_lt in Hn. cbn [andb].
      destruct (u32 (rnd_tick env) mod n =? curBoard (model s)) eqn:Heq.
      + apply Z.eqb_eq in Heq. rewrite Heq.
        split; [intros _; apply succ_mod_differs; lia|].
        split; [lia|apply Z.mod_pos_bound; lia].
      + apply Z.eqb_neq in Heq.
        split; [intros _; exact Heq|].
        split; [lia|apply Z.mod_pos_bound; lia].
    - apply Z.ltb_ge in Hn. cbn [andb]. split; [lia|]. split; [reflexivity|lia]. }
  clearbody next. clear next0.
  break_if; cbn; repeat split; tauto.
Qed.

Lemma X10_rotation_changes_board_witness :
  let s := set_model (rooted (str "Halo 2"))
             (mkModel [] [mkBoard (str "A") [mkRow (str "1") [] [] []];
                          mkBoard (str "B") [mkRow (str "1") [] [] []]] 1) in
  curBoard (model (rotateBoard (serving [] None 1700000000 5000) 5000 s)) <> 1.
Proof.
  intros s.
  apply (X10_rotation_changes_board (serving [] None 1700000000 5000) 5000 s);
    cbn; lia.
Defined.

(** X11: while a model is shown (root confirmed, pool resolved, model
    loaded) a tick leaves the cache, the root, the probe state, the boards
    and the title pool alone; and inside the freeze window it also leaves
    the whole model, the rotation state and the [loaded] flag as they are. *)
Theorem X11_active_tick :
  forall env s,
    WORK_ROOT s <> [] -> resolved (res s) = true -> loaded s = true ->
    cache (tick env s) = cache s
    /\ WORK_ROOT (tick env s) = WORK_ROOT s
    /\ probe (tick env s) = probe s
    /\ boards (model (tick env s)) = boards (model s)
    /\ titlePool (res (tick env s)) = titlePool (res s)
    /\ (ms_tick env < freezeUntilMs (rot s) ->
        model (tick env s) = model s /\ rot (tick env s) = rot s
        /\ res (tick env s) = res s /\ loaded (tick env s) = true).
Proof.
  intros env s Hroot Hres Hload. unfold tick.
  break_if; [repeat split; try reflexivity; assumption|].
  assert (Hm : maybeResolveAndLoad env s = s
               \/ maybeResolveAndLoad env s = set_lastFetchMs s (ms_fetch env)).
  { unfold maybeResolveAndLoad. cbv zeta. break_if; [left; reflexivity|].
    right. cbn [WORK_ROOT set_lastFetchMs res loaded].
    apply isEmpty_false in Hroot. rewrite Hroot, Hres, Hload. reflexivity. }
  set (s1 := maybeResolveAndLoad env s) in *.
  assert (H1 : cache s1 = cache s /\ WORK_ROOT s1 = WORK_ROOT s /\ probe s1 = probe s
               /\ model s1 = model s /\ res s1 = res s /\ rot s1 = rot s
               /\ loaded s1 = loaded s).
  { destruct Hm as [Hm|Hm]; rewrite Hm; repeat split; reflexivity. }
  clearbody s1. destruct H1 as (C & W & P & M & R & Ro & L).
  rewrite R, L, Hres, Hload. cbn [negb orb]. rewrite Ro.
  destruct (ms_tick env <? freezeUntilMs (rot s)) eqn:Hfz.
  - rewrite C, W, P, M, R, Ro, L. repeat split; try reflexivity; assumption.
  - apply Z.ltb_ge in Hfz. cbv zeta.
    assert (H2 : cache (advanceScroll (ms_tick env) s1) = cache s
                 /\ WORK_ROOT (advanceScroll (ms_tick env) s1) = WORK_ROOT s
                 /\ probe (advanceScroll (ms_tick env) s1) = probe s
                 /\ model (advanceScroll (ms_tick env) s1) = model s
                 /\ res (advanceScroll (ms_tick env) s1) = res s).
    { unfold advanceScroll. break_if; cbn; repeat split; assumption. }
    set (s2 := advanceScroll (ms_tick env) s1) in *. clearbody s2.
    destruct H2 as (C2 & W2 & P2 & M2 & R2).
    assert (H3 : cache (rotateBoard env (ms_tick env) s2) = cache s
                 /\ WORK_ROOT (rotateBoard env (ms_tick env) s2) = WORK_ROOT s
                 /\ probe (rotateBoard env (ms_tick env) s2) = probe s
                 /\ boards (model (rotateBoard env (ms_tick env) s2)) = boards (model s)
                 /\ titlePool (res (rotateBoard env (ms_tick env) s2))
                    = titlePool (res s)).
    { unfold rotateBoard. cbv zeta. break_if; cbn; rewrite ?M2, ?R2;
        repeat split; assumption. }
    repeat break_if;
      rewrite ?C2, ?W2, ?P2, ?M2, ?R2;
      try (repeat split; try reflexivity; try apply H3; intros; lia).
Qed.

Lemma X11_active_tick_witness :
  let s := set_loaded
             (set_res between_variants
                      (mkRes true true [str "AA"] 0 [] (str "Halo 2") (str "halo2")))
             true in
  cache (tick (serving [] None 1700000000 5000) s) = cache s.
Proof.
  intros s.
  apply (X11_active_tick (serving [] None 1700000000 5000) s).
  - vm_compute. discriminate.
  - reflexivity.
  - reflexivity.
Defined.

Lemma onAppName_curApp :
  forall env app s, curApp (onAppName env app s) = argOf app.
Proof.
  intros env app s. unfold onAppName. fold (argOf app).
  destruct (streq (argOf app) (curApp s)) eqn:Heq.
  - apply streq_eq in Heq. congruence.
  - repeat break_if; try reflexivity.
    match goal with
    | |- curApp (startProbingIfNeeded ?x) = _ =>
        destruct (startProbing_frame x) as (_ & _ & _ & _ & Ha & _)
    end.
    rewrite Ha. reflexivity.
Qed.

(** X12: reporting the same application name again, whatever the padding
    of blanks around it, changes nothing: the engine is reset only when the
    trimmed name differs from the current query. *)
Theorem X12_same_name_is_no_reset :
  forall env env' app app' s,
    argOf app' = argOf app ->
    onAppName env' app' (onAppName env app s) = onAppName env app s.
Proof.
  intros env env' app app' s Hsame.
  unfold onAppName at 1. fold (argOf app').
  rewrite onAppName_curApp, Hsame, streq_refl. reflexivity.
Qed.

Lemma X12_same_name_is_no_reset_witness :
  onAppName (unanswered 1700000000 9000) (Some (str "  Halo 2 "))
            (onAppName (unanswered 1700000000 1000) (Some (str "Halo 2")) (initial []))
  = onAppName (unanswered 1700000000 1000) (Some (str "Halo 2")) (initial []).
Proof.
  apply (X12_same_name_is_no_reset (unanswered 1700000000 1000)
           (unanswered 1700000000 9000) (Some (str "Halo 2"))
           (Some (str "  Halo 2 ")) (initial [])).
  vm_compute. reflexivity.
Defined.

(** X13: an empty, blank or null application name puts the engine to rest:
    afterwards the engine is not active and any number of ticks leaves the
    state exactly as it is, so nothing is probed, fetched or written. *)
Theorem X13_empty_name_stops_engine :
  forall env app s envs,
    argOf app = [] ->
    isActive (onAppName env app s) = false
    /\ runAll (onAppName env app s) (map CallTick envs) = onAppName env app s.
Proof.
  intros env app s envs Hblank.
  pose proof (onAppName_curApp env app s) as Hcur. rewrite Hblank in Hcur.
  set (s' := onAppName env app s) in *. clearbody s'.
  split; [unfold isActive; rewrite Hcur; reflexivity|].
  unfold runAll. induction envs as [|e envs IH]; [reflexivity|].
  cbn [map fold_left run].
  assert (Ht : tick e s' = s') by (unfold tick; rewrite Hcur; reflexivity).
  rewrite Ht. exact IH.
Qed.

Lemma X13_empty_name_stops_engine_witness :
  runAll (onAppName (unanswered 1700000000 2000) (Some (str "   ")) mid_sweep)
         (map CallTick [unanswered 1700000000 3000; unanswered 1700000000 4000])
  = onAppName (unanswered 1700000000 2000) (Some (str "   ")) mid_sweep.
Proof.
  apply (proj2 (X13_empty_name_stops_engine (unanswered 1700000000 2000)
                  (Some (str "   ")) mid_sweep
                  [unanswered 1700000000 3000; unanswered 1700000000 4000]
                  ltac:(vm_compute; reflexivity))).
Defined.

(* ================================================================== *)
(** ** Further properties: the loader                                   *)
(* ================================================================== *)




Lemma cleanExtras_plain : forall raw, Forall plainKey (cleanExtras raw).
Proof.
  intros raw. unfold cleanExtras. apply Forall_forall. intros kv Hin.
  apply filter_In in Hin. destruct Hin as [_ Hk]. unfold plainKey.
  destruct (extraKey kv) as [|c k] eqn:Hkey; [discriminate|].
  apply negb_true_iff, orb_false_iff in Hk.
  split; [discriminate|exact Hk].
Qed.

Lemma eraseAt_Forall :
  forall A (P : A -> Prop) l i, Forall P l -> Forall P (eraseAt l i).
Proof.
  intros A P l i H. unfold eraseAt. apply Forall_app.
  split; [apply firstn_Forall|apply skipn_Forall]; exact H.
Qed.

(** X15: the extras of a row never hold a rank-like or name-like key, and
    every one of them has a key: such fields are shown once, as rank or
    name, not again among the extras. *)
Theorem X15_extras_without_rank_and_name :
  forall cols rankIdx nameIdx pos rv,
    Forall plainKey (extras (buildRow cols rankIdx nameIdx pos rv)).
Proof.
  intros cols rankIdx nameIdx pos rv. unfold buildRow.
  destruct (rowFields cols rankIdx nameIdx pos rv) as [[rk nm] raw].
  pose proof (cleanExtras_plain raw) as Hc.
  set (cl := cleanExtras raw) in *. clearbody cl.
  break_if; cbn [extras]; [apply eraseAt_Forall, Hc|].
  destruct cl as [|e0 more]; [constructor|].
  break_if; cbn [extras]; [inversion Hc; assumption|exact Hc].
Qed.

(** *** The choice of the metric *)

Lemma positionIn_le :
  forall keys L i, i + Z.of_nat (length keys) <= 100 -> positionIn keys L i <= 100.
Proof.
  induction keys as [|k keys IH]; intros L i H; cbn [positionIn]; [lia|].
  cbn [length] in H. break_if; [lia|]. apply IH. lia.
Qed.

Lemma metric_pref_le : forall k, metric_pref k <= 100.
Proof. intros k. unfold metric_pref. apply positionIn_le. cbn. lia. Qed.

Lemma extraKey_has_eq :
  forall kv, extraKey kv <> [] ->
             0 < indexOfCh kv "="%char
             /\ extraKey kv = substring kv 0 (indexOfCh kv "="%char).
Proof.
  intros kv H. unfold extraKey in *.
  destruct (0 <? indexOfCh kv "="%char) eqn:He; [|congruence].
  apply Z.ltb_lt in He. split; [exact He|reflexivity].
Qed.

Lemma metricFold_spec :
  forall l i acc,
    Forall (fun kv => extraKey kv <> []) l ->
    let r := fold_left
               (fun acc ie =>
                  let eq := indexOfCh (snd ie) "="%char in
                  if eq <=? 0 then acc
                  else
                    let sc := metric_pref (substring (snd ie) 0 eq) in
                    if sc <? snd acc then (fst ie, sc) else acc)
               (indexedFrom i l) acc in
    snd r <= snd acc
    /\ (forall kv, In kv l -> snd r <= metric_pref (extraKey kv))
    /\ (r = acc
        \/ (i <= fst r < i + Z.of_nat (length l)
            /\ snd r < snd acc
            /\ snd r = metric_pref (extraKey (nth (Z.to_nat (fst r - i)) l []))
            /\ forall j, (j < Z.to_nat (fst r - i))%nat ->
                         snd r < metric_pref (extraKey (nth j l [])))).
Proof.
  induction l as [|kv l IH]; intros i acc Hl.
  - cbn. split; [lia|]. split; [intros kv []|left; reflexivity].
  - inversion Hl as [|? ? Hk Hrest]; subst.
    destruct (extraKey_has_eq kv Hk) as [Heq Hkey].
    cbn [indexedFrom fold_left fst snd].
    replace (indexOfCh kv "="%char <=? 0) with false
      by (symmetry; apply Z.leb_gt, Heq).
    rewrite <- Hkey.
    set (acc1 := if metric_pref (extraKey kv) <? snd acc
                 then (i, metric_pref (extraKey kv)) else acc).
    assert (H1 : snd acc1 <= snd acc /\ snd acc1 <= metric_pref (extraKey kv)
                 /\ (acc1 = acc
                     \/ (acc1 = (i, metric_pref (extraKey kv))
                         /\ metric_pref (extraKey kv) < snd acc))).
    { subst acc1. destruct (metric_pref (extraKey kv) <? snd acc) eqn:Hlt.
      - apply Z.ltb_lt in Hlt. cbn [fst snd]. repeat split; try lia. right.
        split; [reflexivity|exact Hlt].
      - apply Z.ltb_ge in Hlt. repeat split; try lia. left. reflexivity. }
    clearbody acc1. destruct H1 as (A1 & A2 & A3).
    pose proof (IH (i + 1) acc1 Hrest) as HIH. cbv zeta in HIH.
    match type of HIH with
    | snd ?r <= _ /\ _ => set (rr := r) in *
    end.
    clearbody rr. destruct HIH as (B1 & B2 & B3).
    split; [lia|]. split.
    + intros kv' [<-|Hin]; [lia|apply B2, Hin].
    + destruct B3 as [B3|(B3 & B4 & B5 & B6)].
      * rewrite B3. destruct A3 as [A3|[A3 A4]]; [left; exact A3|].
        right. rewrite A3. cbn [fst snd length nth].
        replace (i - i) with 0 by lia. cbn [Z.to_nat nth].
        split; [lia|]. split; [exact A4|]. split; [reflexivity|].
        intros j Hj. lia.
      * right. cbn [length]. split; [lia|]. split; [lia|].
        replace (Z.to_nat (fst rr - i)) with (S (Z.to_nat (fst rr - (i + 1)))) by lia.
        split; [exact B5|].
        intros [|j] Hj; cbn [nth]; [lia|]. apply B6. lia.
Qed.

(** X16: the metric of a row is the value of the extra whose key ranks best
    in the preference list (score, points, rating, ...), the earliest one
    among equals, so the first extra when none is preferred; that extra is
    taken out of the extras, the others stay in order.  A row without
    extras has no metric. *)
Theorem X16_metric_choice :
  forall cols rankIdx nameIdx pos rv,
    let cl := cleanedExtras cols rankIdx nameIdx pos rv in
    let row := buildRow cols rankIdx nameIdx pos rv in
    (cl = [] -> metric row = [] /\ extras row = [])
    /\ (cl <> [] ->
        exists i,
          (i < length cl)%nat
          /\ metric row = valueOf (nth i cl [])
          /\ extras row = eraseAt cl (Z.of_nat i)
          /\ (forall kv, In kv cl ->
                         metric_pref (extraKey (nth i cl []))
                         <= metric_pref (extraKey kv))
          /\ (forall j, (j < i)%nat ->
                        metric_pref (extraKey (nth i cl []))
                        < metric_pref (extraKey (nth j cl [])))).
Proof.
  intros cols rankIdx nameIdx pos rv. unfold cleanedExtras, buildRow. cbv zeta.
  destruct (rowFields cols rankIdx nameIdx pos rv) as [[rk nm] raw]. cbn [snd].
  pose proof (cleanExtras_plain raw) as Hc.
  set (cl := cleanExtras raw) in *. clearbody cl.
  split.
  - intros ->. cbn. split; reflexivity.
  - intros Hne.
    assert (Hkeys : Forall (fun kv => extraKey kv <> []) cl)
      by (eapply Forall_impl; [|exact Hc]; intros kv Hp; apply Hp).
    destruct (metricFold_spec cl 0 (-1, 999) Hkeys) as (B1 & B2 & B3).
    cbv zeta in *. fold (indexed cl) in B1, B2, B3. fold (metricChoice cl) in B1, B2, B3.
    assert (Hlow : snd (metricChoice cl) <= 100).
    { destruct cl as [|kv0 cl']; [congruence|].
      pose proof (B2 kv0 (or_introl eq_refl)). pose proof (metric_pref_le (extraKey kv0)).
      lia. }
    destruct B3 as [B3|(B3 & _ & B4 & B5)]; [rewrite B3 in Hlow; cbn in Hlow; lia|].
    replace (0 <=? fst (metricChoice cl)) with true
      by (symmetry; apply Z.leb_le; lia).
    cbn [metric extras].
    exists (Z.to_nat (fst (metricChoice cl))).
    rewrite Z.sub_0_r in B4, B5.
    split; [lia|]. split; [reflexivity|].
    split; [rewrite Z2Nat.id by lia; reflexivity|].
    split.
    + intros kv Hin. rewrite <- B4. apply B2, Hin.
    + intros j Hj. rewrite <- B4. apply B5, Hj.
Qed.

Lemma X16_metric_choice_witness :
  let rv := JObj [(str "Name", JStr (str "Bob")); (str "Laps", JStr (str "3"));
                  (str "Score", JStr (str "500"))] in
  exists i,
    (i < 2)%nat
    /\ metric (buildRow (map str ["Name"; "Laps"; "Score"]%string) (-1) 0 0 rv)
       = valueOf (nth i [str "Laps=3"; str "Score=500"] []).
Proof.
  intros rv.
  destruct (proj2 (X16_metric_choice (map str ["Name"; "Laps"; "Score"]%string)
                     (-1) 0 0 rv)) as (i & Hi & Hm & _).
  - vm_compute. discriminate.
  - exists i. split; [exact Hi|exact Hm].
Defined.

(** *** Ranks written by the loader *)

Lemma digit_char :
  forall d, 0 <= d <= 9 ->
            is_digit (ascii_of_nat (48 + Z.to_nat d)) = true
            /\ Z.of_nat (code (ascii_of_nat (48 + Z.to_nat d))) - 48 = d.
Proof.
  intros d Hd. unfold is_digit, code.
  rewrite nat_ascii_embedding by lia.
  split; [|lia].
  apply andb_true_iff. split; apply Nat.leb_le; lia.
Qed.

Lemma digitsFuel_spec :
  forall k n acc,
    0 <= n < 10 ^ (Z.of_nat (S k)) ->
    exists ds,
      digitsFuel (S k) n acc = ds ++ acc
      /\ ds <> []
      /\ Forall (fun c => is_digit c = true) ds
      /\ (forall v, fold_left (fun n c => n * 10 + (Z.of_nat (code c) - 48)) ds v
                    = v * 10 ^ Z.of_nat (length ds) + n)
      /\ ((1 < length ds)%nat -> 10 ^ (Z.of_nat (length ds) - 1) <= n).
Proof.
  induction k as [|k IH]; intros n acc Hn.
  - change (10 ^ Z.of_nat 1) with 10 in Hn.
    destruct (digit_char (n mod 10)) as [D1 D2];
      [pose proof (Z.mod_pos_bound n 10 ltac:(lia)); lia|].
    exists [ascii_of_nat (48 + Z.to_nat (n mod 10))].
    cbn [digitsFuel]. replace (n <? 10) with true by (symmetry; apply Z.ltb_lt; lia).
    split; [reflexivity|]. split; [discriminate|].
    split; [constructor; [exact D1|constructor]|].
    split; [|cbn [length]; lia].
    intros v. cbn [fold_left length]. rewrite D2, Z.mod_small by lia.
    change (10 ^ Z.of_nat 1) with 10. lia.
  - destruct (digit_char (n mod 10)) as [D1 D2];
      [pose proof (Z.mod_pos_bound n 10 ltac:(lia)); lia|].
    cbn [digitsFuel]. destruct (n <? 10) eqn:Hsmall.
    + apply Z.ltb_lt in Hsmall.
      exists [ascii_of_nat (48 + Z.to_nat (n mod 10))].
      split; [reflexivity|]. split; [discriminate|].
      split; [constructor; [exact D1|constructor]|].
      split; [|cbn [length]; lia].
      intros v. cbn [fold_left length]. rewrite D2, Z.mod_small by lia.
      change (10 ^ Z.of_nat 1) with 10. lia.
    + apply Z.ltb_ge in Hsmall.
      assert (Hpow : 10 ^ Z.of_nat (S (S k)) = 10 * 10 ^ Z.of_nat (S k)).
      { replace (Z.of_nat (S (S k))) with (Z.of_nat (S k) + 1) by lia.
        rewrite Z.pow_add_r by lia. lia. }
      assert (Hdiv : 0 <= n / 10 < 10 ^ Z.of_nat (S k)).
      { split; [apply Z.div_pos; lia|]. apply Z.div_lt_upper_bound; lia. }
      destruct (IH (n / 10) (ascii_of_nat (48 + Z.to_nat (n mod 10)) :: acc) Hdiv)
        as (ds & E & Hne & Hall & Hval & Hlow).
      exists (ds ++ [ascii_of_nat (48 + Z.to_nat (n mod 10))]).
      split; [rewrite <- app_assoc; exact E|].
      split; [destruct ds; discriminate|].
      split; [apply Forall_app; split; [exact Hall|constructor; [exact D1|constructor]]|].
      pose proof (Z.div_mod n 10 ltac:(lia)) as Hdm.
      rewrite length_app. cbn [length].
      replace (Z.of_nat (length ds + 1)) with (Z.of_nat (length ds) + 1) by lia.
      split.
      * intros v. rewrite fold_left_app. cbn [fold_left]. rewrite Hval, D2.
        rewrite Z.pow_add_r by lia. lia.
      * intros _. replace (Z.of_nat (length ds) + 1 - 1) with (Z.of_nat (length ds)) by lia.
        destruct (length ds) as [|[|m]] eqn:Hl.
        -- destruct ds; [congruence|discriminate].
        -- change (10 ^ Z.of_nat 1) with 10. lia.
        -- pose proof (Z.mod_pos_bound n 10 ltac:(lia)) as Hmod.
           assert (Hl2 : 10 ^ (Z.of_nat (S (S m)) - 1) <= n / 10) by (apply Hlow; lia).
           replace (Z.of_nat (S (S m))) with ((Z.of_nat (S (S m)) - 1) + 1) by lia.
           rewrite Z.pow_add_r by lia. change (10 ^ 1) with 10.
           pose proof (Z.mod_pos_bound n 10 ltac:(lia)). lia.
Qed.

Lemma fuel_enough : forall n, 0 <= n -> n < 10 ^ Z.of_nat (S (Z.to_nat (Z.log2 n))).
Proof.
  intros n Hn.
  destruct (Z.eq_dec n 0) as [->|Hz]; [cbn; lia|].
  pose proof (Z.log2_spec n ltac:(lia)) as [_ Hup].
  pose proof (Z.log2_nonneg n) as Hl.
  replace (Z.of_nat (S (Z.to_nat (Z.log2 n)))) with (Z.succ (Z.log2 n)) by lia.
  eapply Z.lt_le_trans; [exact Hup|].
  apply Z.pow_le_mono_l. lia.
Qed.

(** X17: a rank that the loader writes is read back by [rankKey] as the
    same number: for a position n below 1000000000 the text [String(n)]
    has the rank key n, so rows with synthesized ranks sort by position. *)
Theorem X17_written_rank_reads_back :
  forall n, 0 <= n < 1000000000 -> rankKey (String_of_int n) = n.
Proof.
  intros n Hn. unfold String_of_int.
  replace (n <? 0) with false by (symmetry; apply Z.ltb_ge; lia).
  destruct (digitsFuel_spec (Z.to_nat (Z.log2 n)) n [] (conj (proj1 Hn) (fuel_enough n (proj1 Hn))))
    as (ds & E & Hne & Hall & Hval & Hlow).
  rewrite E, app_nil_r.
  assert (Hrun : firstDigitRun ds = ds).
  { unfold firstDigitRun. destruct ds as [|c r]; [congruence|].
    inversion Hall as [|? ? Hc Hr]; subst.
    cbn [dropWhile]. rewrite Hc. cbn [negb takeWhile]. rewrite Hc. f_equal.
    clear - Hr. induction Hr as [|x l Hx Hl IH]; [reflexivity|].
    cbn [takeWhile]. rewrite Hx, IH. reflexivity. }
  assert (Hlen : (length ds <= 9)%nat).
  { destruct (le_lt_dec (length ds) 9) as [H|H]; [exact H|exfalso].
    assert (H9 : 10 ^ 9 <= 10 ^ (Z.of_nat (length ds) - 1))
      by (apply Z.pow_le_mono_r; lia).
    assert (Hl : 10 ^ (Z.of_nat (length ds) - 1) <= n) by (apply Hlow; lia).
    change (10 ^ 9) with 1000000000 in H9. lia. }
  destruct (rankKey_value ds) as [_ Hkey].
  rewrite Hkey; rewrite Hrun; try assumption.
  unfold decimalValue. rewrite Hval. lia.
Qed.

Lemma X17_written_rank_reads_back_witness :
  rankKey (String_of_int 1000) = 1000.
Proof. apply X17_written_rank_reads_back. lia. Defined.

(* ================================================================== *)
(** ** Further properties: the cache                                    *)
(* ================================================================== *)

(** X18: when the flash cannot be mounted every cache operation is a miss
    that changes nothing: [cacheRead] and [cacheWrite] return false,
    [pruneCache] and [flushCacheNow] do nothing, and a fetch through the
    cache is the plain network fetch. *)
Theorem X18_cache_unavailable :
  forall env c,
    fsReady c = false -> env_mount env = false ->
    (forall url out maxAgeMs allowStale,
        cacheRead env url out maxAgeMs allowStale c = (c, false, out))
    /\ (forall url body, cacheWrite env url body c = (c, false))
    /\ pruneCache env c = c
    /\ (forall url ttl, fetchThroughCache env url ttl c = (c, env_http env url))
    /\ (forall s, cache s = c -> flushCacheNow env s = s).
Proof.
  intros env c Hready Hmount.
  assert (He : ensureFS env c = c) by (unfold ensureFS; rewrite Hready, Hmount; reflexivity).
  assert (Hr : forall url out maxAgeMs allowStale,
             cacheRead env url out maxAgeMs allowStale c = (c, false, out)).
  { intros. unfold cacheRead. cbv zeta. rewrite He, Hready. reflexivity. }
  assert (Hw : forall url body, cacheWrite env url body c = (c, false)).
  { intros. unfold cacheWrite. cbv zeta. rewrite He, Hready. reflexivity. }
  split; [exact Hr|]. split; [exact Hw|].
  split; [unfold pruneCache; cbv zeta; rewrite He, Hready; reflexivity|].
  split.
  - intros url ttl. unfold fetchThroughCache. rewrite Hr. unfold httpGet.
    destruct (env_http env url) as [body|]; [rewrite Hw; reflexivity|].
    rewrite Hr. reflexivity.
  - intros s Hs. unfold flushCacheNow. cbv zeta. rewrite Hs, He, Hready.
    cbn [negb]. destruct s. cbn in *. subst. reflexivity.
Qed.

Lemma X18_cache_unavailable_witness :
  let env := mkEnv true 0 0 0 0 0 1700000000 7 7 7 (fun _ => Some (str "body"))
                   (fun _ => None) (fun _ => true) false true 1000 in
  let c := mkCache false false 32 1000 1000 [] in
  fetchThroughCache env (str "http://h/a") 1000 c = (c, Some (str "body")).
Proof.
  intros env c.
  apply (proj1 (proj2 (proj2 (proj2 (X18_cache_unavailable env c eq_refl eq_refl))))).
Defined.

Lemma replaceCh_clean :
  forall (done : list ascii) b w s,
    Forall (fun c => ~ In c done) s ->
    Forall (fun c => ~ In c (done ++ [b])) w ->
    Forall (fun c => ~ In c (done ++ [b])) (replaceCh s b w).
Proof.
  intros done b w s Hs Hw. unfold replaceCh.
  induction Hs as [|c s Hc Hs IH]; cbn [flat_map]; [constructor|].
  apply Forall_app. split; [|exact IH].
  destruct (Ascii.eqb c b) eqn:Hcb; [exact Hw|].
  constructor; [|constructor].
  intros Hin. apply in_app_or in Hin. destruct Hin as [Hin|[Hin|[]]]; [auto|].
  subst. rewrite Ascii.eqb_refl in Hcb. discriminate.
Qed.

Lemma replace_all_clean :
  forall bads (done : list ascii) w s,
    Forall (fun c => ~ In c done) s ->
    Forall (fun c => ~ In c (done ++ bads)) w ->
    Forall (fun c => ~ In c (done ++ bads))
           (fold_left (fun k bad => replaceCh k bad w) bads s).
Proof.
  induction bads as [|b bads IH]; intros done w s Hs Hw; cbn [fold_left].
  - rewrite app_nil_r. exact Hs.
  - replace (done ++ b :: bads) with ((done ++ [b]) ++ bads) in *
      by (rewrite <- app_assoc; reflexivity).
    apply IH; [|exact Hw].
    apply replaceCh_clean; [exact Hs|].
    eapply Forall_impl; [|exact Hw].
    intros c Hc Hin. apply Hc, in_or_app. left. exact Hin.
Qed.

(** X19: a cache key is the cache directory, one slash, and a name that
    holds none of the characters / ? : & = % #; so every cached resource is
    a file directly under /insig. *)
Theorem X19_cache_key_shape :
  forall url,
    exists k,
      sanitizeKey url = CACHE_DIR ++ "/"%char :: k
      /\ Forall (fun c => reservedChar c = false) k.
Proof.
  intros url. unfold sanitizeKey. cbv zeta.
  set (k0 := replace url (str "://") (str "__")).
  pose proof (replace_all_clean (str "/?:&=%#") [] (str "_") k0) as H.
  cbn [app] in H.
  assert (Hk : Forall (fun c => ~ In c (str "/?:&=%#"))
                      (fold_left (fun k bad => replaceCh k bad (str "_"))
                                 (str "/?:&=%#") k0)).
  { apply H.
    - apply Forall_forall. intros c _ [].
    - repeat constructor. cbn. intuition discriminate. }
  set (k1 := fold_left (fun k bad => replaceCh k bad (str "_")) (str "/?:&=%#") k0) in *.
  clearbody k1.
  assert (Hstart : startsWith k1 (str "/") = false).
  { destruct k1 as [|c r]; [reflexivity|].
    inversion Hk as [|? ? Hc _]; subst.
    unfold startsWith. change (str "/") with ["/"%char]. cbn [isPrefix].
    destruct (Ascii.eqb "/"%char c) eqn:He; [|reflexivity].
    apply Ascii.eqb_eq in He. exfalso. apply Hc. left. exact He. }
  rewrite Hstart. exists k1. split; [reflexivity|].
  eapply Forall_impl; [|exact Hk].
  intros c Hc. unfold reservedChar.
  destruct (existsb (Ascii.eqb c) (str "/?:&=%#")) eqn:He; [|reflexivity].
  apply existsb_exists in He. destruct He as (x & Hx & Heq).
  apply Ascii.eqb_eq in Heq. subst. contradiction.
Qed.

(** *** Pruning twice *)

Lemma agePhase_noop :
  forall nowt maxAge entries d,
    (forall e, In e entries -> tooOld nowt (snd e) maxAge = false) ->
    agePhase nowt maxAge entries d = d.
Proof.
  intros nowt maxAge entries. unfold agePhase.
  induction entries as [|e entries IH]; intros d H; [reflexivity|].
  cbn [fold_left]. rewrite (H e (or_introl eq_refl)).
  destruct (fs_find (fst e) d); apply IH; intros e' He'; apply H; right; exact He'.
Qed.

Lemma fs_find_exists :
  forall d f, In f d -> exists g, fs_find (f_path f) d = Some g.
Proof.
  intros d f Hin. unfold fs_find.
  destruct (find (fun g => streq (f_path g) (f_path f)) d) as [g|] eqn:Hf;
    [exists g; reflexivity|].
  exfalso. pose proof (find_none _ _ Hf f Hin) as Hn. cbn in Hn.
  rewrite streq_refl in Hn. discriminate.
Qed.

Lemma agePhase_survivor :
  forall nowt maxAge entries d f,
    In (f_path f, f_mtime f) entries ->
    In f (agePhase nowt maxAge entries d) ->
    tooOld nowt (f_mtime f) maxAge = false.
Proof.
  intros nowt maxAge entries. induction entries as [|e entries IH];
    intros d f He Hin; [destruct He|].
  change (agePhase nowt maxAge (e :: entries) d)
    with (agePhase nowt maxAge entries
            (match fs_find (fst e) d with
             | None => d
             | Some _ => if tooOld nowt (snd e) maxAge then fs_remove (fst e) d else d
             end)) in Hin.
  destruct He as [He|He]; [|eapply IH; eassumption].
  subst e. cbn [fst snd] in Hin.
  destruct (tooOld nowt (f_mtime f) maxAge) eqn:Hold; [|reflexivity].
  exfalso. apply agePhase_sub in Hin.
  destruct (fs_find (f_path f) d) eqn:Hfind.
  - apply fs_remove_In in Hin. destruct Hin as [_ Hne]. congruence.
  - destruct (fs_find_exists d f Hin) as (g & Hg). congruence.
Qed.

Lemma capacityPhase_sub :
  forall maxF maxB d g, In g (capacityPhase maxF maxB d) -> In g d.
Proof.
  intros maxF maxB d g. unfold capacityPhase. cbv zeta.
  break_if; [auto|]. apply evict_sub.
Qed.

Lemma capacityPhase_within :
  forall maxF maxB d,
    dirFiles d <= maxF -> dirBytes d <= maxB -> capacityPhase maxF maxB d = d.
Proof.
  intros maxF maxB d H1 H2. unfold capacityPhase, withinLimits. cbv zeta.
  replace (dirFiles d <=? maxF) with true by (symmetry; apply Z.leb_le, H1).
  replace (dirBytes d <=? maxB) with true by (symmetry; apply Z.leb_le, H2).
  reflexivity.
Qed.

(** X20: pruning is idempotent: a second prune pass at the same clock
    reading removes nothing more. *)
Theorem X20_prune_idempotent :
  forall env c,
    cacheWf c -> pruneCache env (pruneCache env c) = pruneCache env c.
Proof.
  intros env c Hwf.
  destruct (fsReady (ensureFS env c)) eqn:Hready.
  - destruct (ensureFS_wf env c Hwf) as (Hd & H1 & H2 & H3).
    assert (Hp : pruneCache env c
                 = set_disk (ensureFS env c)
                     (capacityPhase (cacheMaxFiles (ensureFS env c))
                        (cacheMaxBytes (ensureFS env c))
                        (agePhase (env_time env) (cacheMaxAgeMs (ensureFS env c))
                           (listing (disk (ensureFS env c))) (disk (ensureFS env c)))))
      by (unfold pruneCache; cbv zeta; rewrite Hready; reflexivity).
    rewrite Hp. clear Hp.
    set (c1 := ensureFS env c) in *. clearbody c1.
    set (d1 := agePhase (env_time env) (cacheMaxAgeMs c1) (listing (disk c1)) (disk c1)).
    assert (Hd1 : fsWf d1) by (apply agePhase_wf, Hd).
    destruct (capacityPhase_bounds (cacheMaxFiles c1) (cacheMaxBytes c1) d1 H1 H2 Hd1)
      as (B1 & B2 & B3).
    set (d2 := capacityPhase (cacheMaxFiles c1) (cacheMaxBytes c1) d1) in *.
    unfold pruneCache. cbv zeta.
    rewrite ensureFS_ready by (cbn; exact Hready).
    cbn [fsReady set_disk disk cacheMaxFiles cacheMaxBytes cacheMaxAgeMs].
    rewrite Hready. cbn [negb].
    rewrite agePhase_noop.
    + rewrite capacityPhase_within by assumption. reflexivity.
    + intros e He. apply listing_In in He. destruct He as (f & Hf & Hc & ->).
      cbn [snd]. subst d2. apply capacityPhase_sub in Hf.
      eapply (agePhase_survivor _ _ (listing (disk c1)) (disk c1) f); [|exact Hf].
      apply listing_In. exists f. split; [|split; [exact Hc|reflexivity]].
      eapply agePhase_sub. exact Hf.
  - assert (He : ensureFS env c = c).
    { unfold ensureFS in *. destruct (fsReady c) eqn:Hrc; [congruence|].
      destruct (env_mount env); [|reflexivity].
      destruct (flushOnBoot c); cbn in Hready; discriminate. }
    assert (Hp : pruneCache env c = c).
    { unfold pruneCache. cbv zeta. rewrite Hready. cbn [negb]. exact He. }
    rewrite Hp. exact Hp.
Qed.

Lemma X20_prune_idempotent_witness :
  let env := serving [] None 1700000004 4000 in
  pruneCache env (pruneCache env (writeAll small_cache three_writes))
  = pruneCache env (writeAll small_cache three_writes).
Proof.
  intros env. apply X20_prune_idempotent.
  apply (writeAll_wf three_writes small_cache).
  unfold cacheWf, fsWf. cbn. repeat split; try lia. constructor.
Defined.

(** X21: what a fetch through a mounted cache returns: the cached body when
    it is fresh, without asking the network; otherwise the answer of the
    network; and when the network gives none, the cached body however old.
    It fails only when there is neither a cached copy nor an answer. *)
Theorem X21_fetch_through_cache :
  forall env url ttl c,
    fsReady c = true ->
    snd (fetchThroughCache env url ttl c)
    = match fs_find (sanitizeKey url) (disk c) with
      | Some f =>
          if freshAt env ttl f then Some (f_data f)
          else match env_http env url with
               | Some body => Some body
               | None => Some (f_data f)
               end
      | None => env_http env url
      end.
Proof.
  intros env url ttl c Hready. unfold fetchThroughCache, cacheRead. cbv zeta.
  rewrite (ensureFS_ready env c Hready), Hready. cbn [negb].
  destruct (fs_find (sanitizeKey url) (disk c)) as [f|] eqn:Hf.
  - fold (freshAt env ttl f). destruct (freshAt env ttl f); [reflexivity|].
    unfold httpGet. destruct (env_http env url) as [body|]; [reflexivity|].
    rewrite (ensureFS_ready env c Hready), Hready, Hf. cbn [negb].
    match goal with
    | |- context [if ?b then true else true] => destruct b
    end; reflexivity.
  - unfold httpGet. destruct (env_http env url) as [body|]; [reflexivity|].
    rewrite (ensureFS_ready env c Hready), Hready, Hf. reflexivity.
Qed.

Lemma X21_fetch_through_cache_witness :
  snd (fetchThroughCache (unanswered 1900000000 9000) (str "http://h/c") 1000
                         (writeAll small_cache three_writes))
  = Some (str "third").
Proof.
  rewrite X21_fetch_through_cache by reflexivity.
  vm_compute. reflexivity.
Defined.

(** *** The cache in every reachable state *)

Lemma ensureFS_good : forall env c, cacheGood c -> cacheGood (ensureFS env c).
Proof.
  intros env c (Hd & H1 & H2 & H3). unfold ensureFS.
  repeat break_if; repeat split; cbn; try assumption.
  apply filter_paths_NoDup, Hd.
Qed.

Lemma pruneCache_good : forall env c, cacheGood c -> cacheGood (pruneCache env c).
Proof.
  intros env c Hc. unfold pruneCache. cbv zeta.
  pose proof (ensureFS_good env c Hc) as (Hd & H1 & H2 & H3).
  set (c1 := ensureFS env c) in *. clearbody c1.
  break_if; [repeat split; assumption|].
  repeat split; cbn [disk set_disk cacheMaxFiles cacheMaxBytes cacheMaxAgeMs];
    try assumption.
  apply capacityPhase_bounds; try lia. apply agePhase_wf, Hd.
Qed.

Lemma cacheWrite_good :
  forall env url body c, cacheGood c -> cacheGood (fst (cacheWrite env url body c)).
Proof.
  intros env url body c Hc. unfold cacheWrite. cbv zeta.
  pose proof (ensureFS_good env c Hc) as Hc1.
  set (c1 := ensureFS env c) in *. clearbody c1.
  break_if; [exact Hc1|]. break_if; [exact Hc1|]. cbn [fst].
  apply pruneCache_good.
  destruct Hc1 as (Hd & H1 & H2 & H3).
  repeat split; cbn [disk set_disk cacheMaxFiles cacheMaxBytes cacheMaxAgeMs];
    try assumption.
  apply fs_write_wf, Hd.
Qed.

Lemma cacheRead_good :
  forall env url out maxAgeMs allowStale c,
    cacheGood c ->
    cacheGood (fst (fst (cacheRead env url out maxAgeMs allowStale c))).
Proof.
  intros env url out maxAgeMs allowStale c Hc. unfold cacheRead. cbv zeta.
  pose proof (ensureFS_good env c Hc) as Hc1.
  repeat (break_if || break_match); exact Hc1.
Qed.

Lemma fetchThroughCache_good :
  forall env url ttl c,
    cacheGood c -> cacheGood (fst (fetchThroughCache env url ttl c)).
Proof.
  intros env url ttl c Hc. unfold fetchThroughCache.
  pose proof (cacheRead_good env url [] ttl false c Hc) as H1.
  destruct (cacheRead env url [] ttl false c) as [[c1 ok] body]. cbn [fst] in H1.
  destruct ok; [exact H1|].
  destruct (httpGet env url body) as [got body2].
  destruct got; [apply cacheWrite_good, H1|].
  pose proof (cacheRead_good env url body2 0 true c1 H1) as H2.
  destruct (cacheRead env url body2 0 true c1) as [[c2 ok2] body3]. cbn [fst] in H2.
  destruct ok2; exact H2.
Qed.

Lemma stepProbe_cache :
  forall env s, cacheGood (cache s) -> cacheGood (cache (fst (stepProbeWorkRoot env s))).
Proof.
  intros env s Hc. unfold stepProbeWorkRoot. cbv zeta.
  break_if; [exact Hc|]. break_if; [exact Hc|].
  set (s1 := if isEmpty (probeList (probe s)) then startProbingIfNeeded s else s).
  assert (H1 : cacheGood (cache s1)).
  { subst s1. unfold startProbingIfNeeded. repeat break_if; exact Hc. }
  clearbody s1. clear Hc.
  break_if; [exact H1|]. break_if; [exact H1|].
  match goal with
  | |- context [cacheRead env ?u ?o ?t ?a ?c] =>
      pose proof (cacheRead_good env u o t a c H1) as H2;
      destruct (cacheRead env u o t a c) as [[c2 hit] body]
  end.
  cbn [fst cache set_probe] in H2.
  break_if; [exact H2|].
  destruct (httpGet env _ body) as [got body2].
  destruct got; [|exact H2].
  assert (H3 : cacheGood (fst (cacheWrite env
                 (nth (Z.to_nat (probeIdx (probe s1))) (probeList (probe s1)) []
                  ++ str "/data/search.json") body2 c2)))
    by (apply cacheWrite_good, H2).
  break_if; exact H3.
Qed.

Lemma resolve_cache :
  forall env s, cacheGood (cache s) -> cacheGood (cache (fst (resolveTitlePool env s))).
Proof.
  intros env s Hc. unfold resolveTitlePool. cbv zeta.
  repeat (break_if; [exact Hc|]).
  match goal with
  | |- context [fetchThroughCache env ?u ?t ?c] =>
      pose proof (fetchThroughCache_good env u t c Hc) as H1;
      destruct (fetchThroughCache env u t c) as [c1 fetched]
  end.
  cbn [fst] in H1.
  destruct fetched; [|exact H1].
  destruct (pass1 _ _) as [best diags]. break_if; exact H1.
Qed.

Lemma load_cache :
  forall env titleId s,
    cacheGood (cache s) -> cacheGood (cache (fst (loadGameModel env titleId s))).
Proof.
  intros env titleId s Hc. unfold loadGameModel. cbv zeta.
  match goal with
  | |- context [fetchThroughCache env ?u ?t ?c] =>
      pose proof (fetchThroughCache_good env u t c Hc) as H1;
      destruct (fetchThroughCache env u t c) as [c1 fetched]
  end.
  cbn [fst] in H1.
  repeat (break_if || break_match); exact H1.
Qed.

Lemma tick_cache :
  forall env s, cacheGood (cache s) -> cacheGood (cache (tick env s)).
Proof.
  intros env s Hc. unfold tick. break_if; [exact Hc|].
  assert (H1 : cacheGood (cache (maybeResolveAndLoad env s))).
  { unfold maybeResolveAndLoad. cbv zeta. break_if; [exact Hc|].
    set (s1 := set_lastFetchMs s (ms_fetch env)).
    assert (H1 : cacheGood (cache s1)) by exact Hc. clearbody s1.
    break_if; [apply stepProbe_cache, H1|].
    break_if; [apply resolve_cache, H1|].
    break_if; [|exact H1]. break_if; [exact H1|].
    apply load_cache, H1. }
  set (s1 := maybeResolveAndLoad env s) in *. clearbody s1.
  break_if; [exact H1|]. break_if; [exact H1|]. cbv zeta.
  assert (H2 : cache (advanceScroll (ms_tick env) s1) = cache s1)
    by (unfold advanceScroll; break_if; reflexivity).
  rewrite <- H2 in H1.
  set (s2 := advanceScroll (ms_tick env) s1) in *. clearbody s2.
  repeat break_if; try exact H1.
  unfold rotateBoard. cbv zeta. break_if; exact H1.
Qed.

Lemma run_cache :
  forall c s, callTyped c -> cacheGood (cache s) -> cacheGood (cache (run s c)).
Proof.
  intros c s Ht Hc. destruct c; cbn [run]; try exact Hc.
  - unfold begin, startProbingIfNeeded. repeat break_if; exact Hc.
  - unfold onAppName, startProbingIfNeeded. repeat break_if; exact Hc.
  - apply tick_cache, Hc.
  - destruct Hc as (Hd & H1 & H2 & H3). destruct Ht as (A & B & C).
    unfold setCacheLimits. cbn.
    repeat split; try assumption.
    + cbn [cacheMaxFiles].
      destruct (maxFiles =? 0) eqn:E; [exact H1|apply Z.eqb_neq in E; lia].
    + cbn [cacheMaxBytes].
      destruct (maxBytes =? 0) eqn:E; [exact H2|apply Z.eqb_neq in E; lia].
    + cbn [cacheMaxAgeMs].
      destruct (maxAgeMs =? 0) eqn:E; [exact H3|apply Z.eqb_neq in E; lia].
  - unfold flushCacheNow. cbv zeta.
    pose proof (ensureFS_good env (cache s) Hc) as (Hd & H1 & H2 & H3).
    break_if; cbn [cache set_cache]; [repeat split; assumption|].
    repeat split; cbn [disk set_disk cacheMaxFiles cacheMaxBytes cacheMaxAgeMs];
      try assumption.
    apply filter_paths_NoDup, Hd.
Qed.

(** X22: starting with a flash that has one file per path, whatever calls
    are made, the flash keeps one file per path and the three cache limits
    stay at least 1: [setCacheLimits] takes a zero as "keep the current
    value", so pruning can never be configured to allow nothing. *)
Theorem X22_cache_limits_stay_positive :
  forall d calls,
    fsWf d -> Forall callTyped calls ->
    cacheGood (cache (runAll (initial d) calls)).
Proof.
  intros d calls Hd Hcalls.
  assert (H0 : cacheGood (cache (initial d))).
  { repeat split; cbn; try lia. exact Hd. }
  revert H0. generalize (initial d). unfold runAll.
  induction Hcalls as [|c calls Hc Hrest IH]; intros s Hs; [exact Hs|].
  cbn [fold_left]. apply IH, run_cache; assumption.
Qed.

Lemma X22_cache_limits_stay_positive_witness :
  cacheGood (cache (runAll (initial [])
                           [CallSetCacheLimits 0 4 0;
                            CallOnAppName (unanswered 1700000000 1000) (Some (str "Halo 2"));
                            CallTick (unanswered 1700000000 1000)])).
Proof.
  apply X22_cache_limits_stay_positive.
  - constructor.
  - repeat constructor; cbn; lia.
Defined.

(** *** Candidate roots *)

Lemma stripSlashes_shape :
  forall s, stripSlashes s <> [] -> rootShaped (stripSlashes s).
Proof.
  intros s Hne. split; [exact Hne|].
  unfold endsWith, stripSlashes in *. rewrite rev_involutive.
  pose proof (dropWhile_head ascii (fun c => Ascii.eqb c "/"%char) (rev s)) as Hd.
  destruct (dropWhile (fun c => Ascii.eqb c "/"%char) (rev s)) as [|x r];
    [contradiction Hne; reflexivity|].
  change (rev (str "/")) with ["/"%char]. cbn [isPrefix].
  rewrite Ascii.eqb_sym, Hd. reflexivity.
Qed.

Lemma addRoot_valid :
  forall out s,
    NoDup out /\ Forall rootShaped out ->
    NoDup (addRoot out s) /\ Forall rootShaped (addRoot out s).
Proof.
  intros out s (Hnd & Hall). unfold addRoot. cbv zeta.
  destruct (isEmpty (stripSlashes s)) eqn:He; cbn [negb andb]; [split; assumption|].
  destruct (contains out (stripSlashes s)) eqn:Hc; cbn [negb]; [split; assumption|].
  apply contains_not_In in Hc. split.
  - apply NoDup_app; repeat split; try assumption.
    + constructor; [intros []|constructor].
    + intros x Hx [Hy|[]]. subst. contradiction.
  - apply Forall_app. split; [exact Hall|]. constructor; [|constructor].
    apply stripSlashes_shape. intros E. rewrite E in He. discriminate.
Qed.

Lemma addBase_valid :
  forall out piece,
    NoDup out /\ Forall rootShaped out ->
    NoDup (addBase out piece) /\ Forall rootShaped (addBase out piece).
Proof.
  intros out piece H. unfold addBase. cbv zeta.
  break_if; [exact H|].
  apply addRoot_valid, addRoot_valid.
  break_if; [apply addRoot_valid|]; apply addRoot_valid, H.
Qed.

Lemma buildCandidateRoots_valid :
  forall base,
    NoDup (buildCandidateRoots base) /\ Forall rootShaped (buildCandidateRoots base).
Proof.
  intros base. unfold buildCandidateRoots. cbv zeta.
  assert (H0 : NoDup (@nil Str) /\ Forall rootShaped (@nil Str))
    by (split; constructor).
  revert H0. generalize (@nil Str).
  induction (splitOn (fun c => Ascii.eqb c ","%char) (trim base)) as [|p ps IH];
    intros out H; [exact H|].
  cbn [fold_left]. apply IH, addBase_valid, H.
Qed.

(** X23: the candidate roots built from the configured base list are pairwise
    different, none is blank and none ends in a slash, whatever the base
    text is. *)
Theorem X23_candidate_roots_distinct_and_trimmed :
  forall base,
    NoDup (buildCandidateRoots base)
    /\ Forall rootShaped (buildCandidateRoots base).
Proof. exact buildCandidateRoots_valid. Qed.

Lemma startProbing_roots :
  forall s, rootsValid s -> rootsValid (startProbingIfNeeded s).
Proof.
  intros s Hs. unfold startProbingIfNeeded. break_if; [exact Hs|].
  destruct Hs as (_ & _ & Hw).
  destruct (buildCandidateRoots_valid (BASE s)) as (Hn & Hf).
  repeat split; cbn; assumption.
Qed.

Lemma reset_roots :
  forall s, rootsValid s -> rootsValid (resetRuntime s).
Proof.
  intros s (Hn & Hf & Hw). unfold resetRuntime.
  repeat split; cbn; try assumption; constructor.
Qed.

Lemma stepProbe_roots :
  forall env s,
    cursorValid s -> rootsValid s -> rootsValid (fst (stepProbeWorkRoot env s)).
Proof.
  intros env s Hc Hs. unfold stepProbeWorkRoot. cbv zeta.
  break_if; [exact Hs|]. break_if; [exact Hs|].
  set (s1 := if isEmpty (probeList (probe s)) then startProbingIfNeeded s else s).
  assert (H1 : rootsValid s1).
  { subst s1. break_if; [apply startProbing_roots, Hs|exact Hs]. }
  assert (Hc1 : cursorValid s1).
  { subst s1. break_if; [|exact Hc]. unfold startProbingIfNeeded.
    break_if; [exact Hc|]. unfold cursorValid. cbn. lia. }
  clearbody s1. clear Hs Hc. destruct H1 as (Hn & Hf & Hw).
  unfold cursorValid in Hc1.
  break_if; [repeat split; assumption|].
  destruct (Z.of_nat (length (probeList (probe s1))) <=? probeIdx (probe s1)) eqn:Hend.
  - repeat split; cbn; assumption.
  - apply Z.leb_gt in Hend.
    assert (Hr : rootShaped
                   (nth (Z.to_nat (probeIdx (probe s1))) (probeList (probe s1)) [])).
    { rewrite Forall_forall in Hf. apply Hf, nth_In. lia. }
    repeat (break_if || break_match); repeat split; cbn;
      solve [assumption | right; exact Hr].
Qed.

Lemma run_roots :
  forall c s, cursorValid s -> rootsValid s -> rootsValid (run s c).
Proof.
  intros c s Hc Hs. destruct c; cbn [run]; try exact Hs.
  - unfold begin. cbv zeta.
    break_if; [apply startProbing_roots|]; apply reset_roots, Hs.
  - unfold onAppName. cbv zeta. break_if; [exact Hs|].
    assert (H1 : rootsValid (resetRuntime (set_curApp s (trim
                   match app with Some a => a | None => [] end))))
      by (apply reset_roots; exact Hs).
    repeat break_if; try exact H1. apply startProbing_roots, H1.
  - unfold tick. break_if; [exact Hs|].
    assert (H1 : rootsValid (maybeResolveAndLoad env s)).
    { unfold maybeResolveAndLoad. cbv zeta. break_if; [exact Hs|].
      set (s1 := set_lastFetchMs s (ms_fetch env)).
      assert (H1 : rootsValid s1) by exact Hs.
      assert (Hc1 : cursorValid s1) by exact Hc. clearbody s1.
      break_if; [apply stepProbe_roots; [exact Hc1|exact H1]|].
      break_if.
      { destruct (resolve_frame env s1) as (_ & _ & Hw & Hp & _).
        unfold rootsValid. rewrite Hp, Hw. exact H1. }
      break_if; [|exact H1]. break_if; [exact H1|].
      match goal with
      | |- context [loadGameModel env ?id s1] =>
          destruct (load_frame env id s1) as (Hw & Hp & _)
      end.
      unfold rootsValid. rewrite Hp, Hw. exact H1. }
    set (s1 := maybeResolveAndLoad env s) in *. clearbody s1.
    break_if; [exact H1|]. break_if; [exact H1|]. cbv zeta.
    destruct (advanceScroll_frame (ms_tick env) s1) as (_ & _ & Hw & Hp & _).
    unfold rootsValid in *. rewrite <- Hp, <- Hw in H1.
    set (s2 := advanceScroll (ms_tick env) s1) in *. clearbody s2.
    repeat break_if; try exact H1.
    destruct (rotateBoard_frame env (ms_tick env) s2) as (Hw2 & Hp2 & _).
    rewrite Hp2, Hw2. exact H1.
  - unfold flushCacheNow. break_if; exact Hs.
Qed.

(** X24: in every state that calls can reach from the initial one, the
    candidate list holds distinct roots without a trailing slash, and the
    confirmed server root is either still unset or one such root; the
    [/data/...] addresses built from it never contain a doubled slash at
    the joint. *)
Theorem X24_confirmed_root_has_no_trailing_slash :
  forall d calls, rootsValid (runAll (initial d) calls).
Proof.
  intros d calls.
  enough (H : cursorValid (runAll (initial d) calls)
              /\ rootsValid (runAll (initial d) calls)) by apply H.
  apply (runAll_invariant (fun s => cursorValid s /\ rootsValid s)).
  - intros c s (Hc & Hs). split; [apply run_cursor, Hc|apply run_roots; assumption].
  - split; [unfold cursorValid; cbn; lia|].
    repeat split; cbn; [constructor|constructor|left; reflexivity].
Qed.

(** *** The Normalizer's output *)

(** X25: whatever the raw name is, each of its tokens is non-empty, made of
    lowercase letters and digits only, and is not a roman numeral from i to
    x any more; the normalized key is made of lowercase letters and digits
    only. *)
Theorem X25_tokens_are_lowercase_alphanumeric :
  forall raw,
    Forall normalToken (tokenize raw)
    /\ Forall (fun c => tokenChar c = true) (normKey raw).
Proof.
  intros raw. pose proof (tokenize_normal raw) as Hn. split; [exact Hn|].
  unfold normKey. induction Hn as [|t ts (_ & Ht & _) _ IH]; [constructor|].
  cbn [concat]. apply Forall_app. split; assumption.
Qed.

Lemma lc_idem : forall s, lc (lc s) = lc s.
Proof.
  intros s. unfold lc, toLowerCase. rewrite map_map. apply map_ext.
  intros c. unfold tolower. destruct (is_upper c) eqn:Hu; [|rewrite Hu; reflexivity].
  break_if; [|reflexivity].
  exfalso. revert Hu Heqb. unfold is_upper, code.
  destruct c as [[] [] [] [] [] [] [] []]; vm_compute; congruence.
Qed.

(** X26: lowercasing a name first changes neither its tokens nor its
    normalized key. *)
Theorem X26_normalizer_ignores_case :
  forall raw,
    tokenize (toLowerCase raw) = tokenize raw
    /\ normKey (toLowerCase raw) = normKey raw.
Proof.
  intros raw. split; [apply tokenize_lc|apply normKey_lc]; apply lc_idem.
Qed.

(** *** The scanner of the search index *)

Lemma quoteWalk_found :
  forall s i skip r,
    quoteWalk s i skip = r -> r <> -1 -> 0 <= i ->
    exists k,
      r = i + Z.of_nat k /\ (k < length s)%nat /\ nth k s zero = dquote
      /\ (skip = true -> (0 < k)%nat)
      /\ forall m, (m < k)%nat -> nth m s zero = dquote ->
                   (m = 0%nat /\ skip = true)
                   \/ (0 < m)%nat /\ nth (m - 1) s zero = backslash.
Proof.
  induction s as [|c s IH]; intros i skip r Hr Hne Hi; cbn [quoteWalk] in Hr;
    [congruence|].
  assert (Hnext : forall sk,
             quoteWalk s (i + 1) sk = r ->
             (sk = true -> c = backslash) ->
             (sk = false -> skip = true \/ c <> dquote) ->
             exists k,
               r = i + Z.of_nat k /\ (k < length (c :: s))%nat
               /\ nth k (c :: s) zero = dquote
               /\ (skip = true -> (0 < k)%nat)
               /\ forall m, (m < k)%nat -> nth m (c :: s) zero = dquote ->
                            (m = 0%nat /\ skip = true)
                            \/ (0 < m)%nat /\ nth (m - 1) (c :: s) zero = backslash).
  { intros sk Hw Hsk Hc.
    destruct (IH (i + 1) sk r Hw Hne ltac:(lia)) as (k & Hk & Hlt & Hq & Hpos & Hall).
    exists (S k). repeat split.
    - lia.
    - cbn [length]. lia.
    - exact Hq.
    - intros _. lia.
    - intros m Hm Hmq. destruct m as [|m].
      + cbn [nth] in Hmq. left. split; [reflexivity|].
        destruct sk.
        * rewrite (Hsk eq_refl) in Hmq. discriminate.
        * destruct (Hc eq_refl) as [H|H]; [exact H|contradiction].
      + right. split; [lia|]. cbn [nth] in Hmq.
        replace (S m - 1)%nat with m by lia.
        destruct (Hall m ltac:(lia) Hmq) as [(Hm0 & Hs)|(Hm0 & Hb)].
        * subst m. cbn [nth]. apply Hsk, Hs.
        * destruct m as [|m']; [lia|]. cbn [nth].
          replace (S m' - 1)%nat with m' in Hb by lia. exact Hb. }
  destruct skip.
  - apply (Hnext false Hr); [discriminate|]. intros _. left. reflexivity.
  - destruct (Ascii.eqb c backslash) eqn:Hb.
    + apply Ascii.eqb_eq in Hb. apply (Hnext true Hr); [intros _; exact Hb|discriminate].
    + destruct (Ascii.eqb c dquote) eqn:Hq.
      * apply Ascii.eqb_eq in Hq. exists 0%nat. repeat split.
        -- lia.
        -- cbn [length]. lia.
        -- exact Hq.
        -- discriminate.
        -- intros m Hm. lia.
      * apply Ascii.eqb_neq in Hq. apply (Hnext false Hr); [discriminate|].
        intros _. right. exact Hq.
Qed.

Lemma charAt_skipn :
  forall s n k,
    charAt s (Z.of_nat n + Z.of_nat k) = nth k (skipn n s) zero.
Proof.
  intros s n k. unfold charAt.
  destruct (Z.of_nat n + Z.of_nat k <? 0) eqn:E; [apply Z.ltb_lt in E; lia|].
  replace (Z.to_nat (Z.of_nat n + Z.of_nat k)) with (n + k)%nat by lia.
  rewrite <- (firstn_skipn n s) at 1.
  destruct (Nat.le_gt_cases (length s) n) as [Hle|Hgt].
  - rewrite (skipn_all2 s Hle). rewrite app_nil_r.
    rewrite firstn_all2 by exact Hle.
    rewrite nth_overflow by lia. destruct k; reflexivity.
  - rewrite app_nth2; rewrite length_firstn; [|lia].
    f_equal. lia.
Qed.

(** X27: from a position [pos] of the text on, the quote search returns -1
    or a position after [pos], inside the text, that holds a double quote;
    every double quote it passed over on the way stands right after a
    backslash. *)
Theorem X27_quote_search :
  forall s pos,
    -1 <= pos ->
    let r := find_unescaped_quote s pos in
    r = -1
    \/ (pos < r < len s /\ charAt s r = dquote
        /\ forall j, pos < j < r -> charAt s j = dquote ->
                     charAt s (j - 1) = backslash).
Proof.
  intros s pos Hpos r. subst r. unfold find_unescaped_quote.
  destruct (Z.eq_dec (quoteWalk (skipn (Z.to_nat (pos + 1)) s) (pos + 1) false) (-1))
    as [E|E]; [left; exact E|right].
  destruct (quoteWalk_found _ _ _ _ eq_refl E ltac:(lia))
    as (k & Hk & Hlt & Hq & _ & Hall).
  rewrite Hk. rewrite length_skipn in Hlt.
  set (n := Z.to_nat (pos + 1)) in *.
  assert (Hn : pos + 1 = Z.of_nat n) by (subst n; lia).
  rewrite Hn. repeat split.
  - lia.
  - unfold len. lia.
  - rewrite charAt_skipn. exact Hq.
  - intros j Hj Hjq.
    assert (Hm : j = Z.of_nat n + Z.of_nat (Z.to_nat (j - Z.of_nat n))) by lia.
    set (m := Z.to_nat (j - Z.of_nat n)) in *.
    rewrite Hm in Hjq. rewrite charAt_skipn in Hjq.
    destruct (Hall m ltac:(lia) Hjq) as [(_ & Hs)|(Hm0 & Hb)]; [discriminate|].
    replace (j - 1) with (Z.of_nat n + Z.of_nat (m - 1)) by lia.
    rewrite charAt_skipn. exact Hb.
Qed.

Lemma X27_quote_search_witness :
  find_unescaped_quote (jsonText "{'name':'a\'b'}") 8 = -1
  \/ (8 < find_unescaped_quote (jsonText "{'name':'a\'b'}") 8
          < len (jsonText "{'name':'a\'b'}")
      /\ charAt (jsonText "{'name':'a\'b'}")
                (find_unescaped_quote (jsonText "{'name':'a\'b'}") 8) = dquote
      /\ forall j,
           8 < j < find_unescaped_quote (jsonText "{'name':'a\'b'}") 8 ->
           charAt (jsonText "{'name':'a\'b'}") j = dquote ->
           charAt (jsonText "{'name':'a\'b'}") (j - 1) = backslash).
Proof.
  apply (X27_quote_search (jsonText "{'name':'a\'b'}") 8). lia.
Defined.

Lemma skipn_at :
  forall (a b : Str) n, n = len a -> skipn (Z.to_nat n) (a ++ b) = b.
Proof.
  intros a b n ->. unfold len. rewrite Nat2Z.id.
  rewrite skipn_app, skipn_all, Nat.sub_diag. reflexivity.
Qed.

Lemma quoteWalk_plain :
  forall v rest i,
    Forall plainChar v -> quoteWalk (v ++ dquote :: rest) i false = i + len v.
Proof.
  induction v as [|c v IH]; intros rest i Hv.
  - cbn. unfold len. cbn. lia.
  - inversion Hv as [|? ? (Hq & Hb) Hrest]; subst.
    cbn [app quoteWalk].
    apply Ascii.eqb_neq in Hq, Hb. rewrite Hb, Hq.
    rewrite (IH rest (i + 1) Hrest). unfold len. cbn [length]. lia.
Qed.

(** X28: when the first quoted occurrence of the key in an object is
    followed by a colon and a quoted value that needs no escaping, the
    field scanner returns exactly that value. *)
Theorem X28_field_value_read_back :
  forall pre key v rest,
    Forall plainChar v ->
    indexOf (fieldText pre key v rest) (dquote :: key ++ [dquote]) = len pre ->
    extract_str_field (fieldText pre key v rest) key = Some v.
Proof.
  intros pre key v rest Hv Hk. unfold extract_str_field. cbv zeta.
  rewrite Hk.
  set (pat := dquote :: key ++ [dquote]) in *.
  set (obj := fieldText pre key v rest) in *.
  assert (Ho1 : obj = (pre ++ pat) ++ ":"%char :: dquote :: v ++ dquote :: rest)
    by (subst obj; unfold fieldText; fold pat; rewrite <- app_assoc; reflexivity).
  assert (Ho2 : obj = (pre ++ pat ++ [":"%char]) ++ dquote :: v ++ dquote :: rest)
    by (rewrite Ho1; repeat rewrite <- app_assoc; reflexivity).
  assert (Ho3 : obj = (pre ++ pat ++ [":"%char; dquote]) ++ v ++ dquote :: rest)
    by (rewrite Ho1; repeat rewrite <- app_assoc; reflexivity).
  assert (Hlen : len obj = len pre + len pat + 2 + len v + 1 + len rest).
  { rewrite Ho1. unfold len. repeat (rewrite length_app || cbn [length]). lia. }
  assert (Hnn : 0 <= len pre /\ 0 <= len pat /\ 0 <= len v /\ 0 <= len rest)
    by (unfold len; lia).
  destruct (len pre <? 0) eqn:E1; [apply Z.ltb_lt in E1; lia|].
  assert (Hcolon : indexOfChFrom obj ":"%char (len pre + len pat) = len pre + len pat).
  { unfold indexOfChFrom.
    destruct (len obj <=? len pre + len pat) eqn:E; [apply Z.leb_le in E; lia|].
    rewrite Ho1 at 1. rewrite skipn_at.
    - cbn [findCh]. rewrite Ascii.eqb_refl. reflexivity.
    - unfold len. rewrite length_app. lia. }
  rewrite Hcolon.
  destruct (len pre + len pat <? 0) eqn:E2; [apply Z.ltb_lt in E2; lia|].
  assert (Hq1 : indexOfChFrom obj dquote (len pre + len pat + 1)
                = len pre + len pat + 1).
  { unfold indexOfChFrom.
    destruct (len obj <=? len pre + len pat + 1) eqn:E; [apply Z.leb_le in E; lia|].
    rewrite Ho2 at 1. rewrite skipn_at.
    - cbn [findCh]. rewrite Ascii.eqb_refl. reflexivity.
    - unfold len. repeat (rewrite length_app || cbn [length]). lia. }
  rewrite Hq1.
  destruct (len pre + len pat + 1 <? 0) eqn:E3; [apply Z.ltb_lt in E3; lia|].
  assert (Hq2 : find_unescaped_quote obj (len pre + len pat + 1)
                = len pre + len pat + 2 + len v).
  { unfold find_unescaped_quote. rewrite Ho3 at 1. rewrite skipn_at.
    - rewrite (quoteWalk_plain v rest _ Hv). lia.
    - unfold len. repeat (rewrite length_app || cbn [length]). lia. }
  rewrite Hq2.
  destruct (len pre + len pat + 2 + len v <? 0) eqn:E4; [apply Z.ltb_lt in E4; lia|].
  f_equal. unfold substring.
  destruct (len pre + len pat + 2 + len v <? len pre + len pat + 1 + 1) eqn:E5;
    [apply Z.ltb_lt in E5; lia|].
  destruct (len obj <=? len pre + len pat + 1 + 1) eqn:E6; [apply Z.leb_le in E6; lia|].
  rewrite Ho3 at 2. rewrite skipn_at.
  - rewrite Z.min_l by lia.
    replace (Z.to_nat (len pre + len pat + 2 + len v - (len pre + len pat + 1 + 1)))
      with (length v) by (unfold len; lia).
    rewrite firstn_app, firstn_all, Nat.sub_diag. cbn [firstn]. apply app_nil_r.
  - unfold len. repeat (rewrite length_app || cbn [length]). lia.
Qed.

Lemma X28_field_value_read_back_witness :
  extract_str_field
    (fieldText (jsonText "{'name':'Halo 2',") (str "title_id") (str "4d530064")
               (str "}"))
    (str "title_id")
  = Some (str "4d530064").
Proof.
  apply X28_field_value_read_back.
  - repeat constructor; discriminate.
  - vm_compute. reflexivity.
Defined.

(** *** Family keys of slugs *)

Lemma isPrefix_app_self : forall p q, isPrefix p (p ++ q) = true.
Proof.
  induction p as [|c p IH]; intros q; [reflexivity|].
  cbn [app isPrefix]. rewrite Ascii.eqb_refl, IH. reflexivity.
Qed.

Lemma endsWith_app_self : forall base suf, endsWith (base ++ suf) suf = true.
Proof.
  intros base suf. unfold endsWith. rewrite rev_app_distr. apply isPrefix_app_self.
Qed.

Lemma removeFrom_app :
  forall base suf,
    suf <> [] -> removeFrom (base ++ suf) (len (base ++ suf) - len suf) = base.
Proof.
  intros base suf Hne. unfold removeFrom, len. rewrite length_app.
  destruct suf as [|c suf]; [contradiction|]. cbn [length].
  destruct (_ <=? _) eqn:E; [apply Z.leb_le in E; lia|].
  replace (Z.to_nat _) with (length base) by lia.
  rewrite firstn_app, firstn_all, Nat.sub_diag. cbn [firstn]. apply app_nil_r.
Qed.

Lemma len_lt_app :
  forall base suf, base <> [] -> (len suf <? len (base ++ suf)) = true.
Proof.
  intros base suf Hne. apply Z.ltb_lt. unfold len. rewrite length_app.
  destruct base; [contradiction|]. cbn [length]. lia.
Qed.

Ltac strip_suffixes base Hne :=
  cbn [stripSuffix];
  repeat match goal with
         | |- context [endsWith (base ++ ?s) ?s'] =>
             replace (endsWith (base ++ s) s') with false
               by (unfold endsWith; rewrite rev_app_distr; reflexivity)
         end;
  rewrite ?andb_false_r;
  match goal with
  | |- context [endsWith (base ++ ?s) ?s] =>
      rewrite (endsWith_app_self base s), (len_lt_app base s Hne)
  end;
  cbn [andb]; apply removeFrom_app;
  let E := fresh in intros E; vm_compute in E; discriminate E.

Lemma stripSuffix_variant :
  forall base suf,
    base <> [] -> In suf slug_suffixes ->
    stripSuffix slug_suffixes (base ++ suf) = base.
Proof.
  intros base suf Hne Hin. unfold slug_suffixes in *. cbn [map In] in *.
  repeat (destruct Hin as [Hin|Hin]; [subst suf; strip_suffixes base Hne|]).
  contradiction.
Qed.

Lemma toLowerCase_suffix :
  forall suf, In suf slug_suffixes -> toLowerCase suf = suf.
Proof.
  intros suf Hin. unfold slug_suffixes in Hin. cbn [map In] in Hin.
  repeat (destruct Hin as [Hin|Hin]; [subst suf; reflexivity|]).
  contradiction.
Qed.

(** X29: a slug that carries one of the region suffixes falls into the
    family of the slug without it, provided that shorter slug is not empty
    and ends in no region suffix itself. *)
Theorem X29_region_suffix_keeps_family :
  forall base suf,
    base <> [] -> In suf slug_suffixes ->
    stripSuffix slug_suffixes (toLowerCase base) = toLowerCase base ->
    familyKeyFromSlug (base ++ suf) = familyKeyFromSlug base.
Proof.
  intros base suf Hne Hin Hplain. unfold familyKeyFromSlug. cbv zeta.
  rewrite Hplain. unfold toLowerCase at 1. rewrite map_app.
  fold (toLowerCase base). fold (toLowerCase suf).
  rewrite (toLowerCase_suffix suf Hin).
  rewrite stripSuffix_variant; [reflexivity| |exact Hin].
  intros E. apply Hne. destruct base; [reflexivity|discriminate].
Qed.

Lemma X29_region_suffix_keeps_family_witness :
  familyKeyFromSlug (str "Halo-2" ++ str "-pal") = familyKeyFromSlug (str "Halo-2").
Proof.
  apply X29_region_suffix_keeps_family.
  - discriminate.
  - vm_compute. tauto.
  - vm_compute. reflexivity.
Defined.
